(** * The position-indexing engine of the chess move index (indexer.ts)

    A shallow embedding of [MoveIndex] and of the data it owns, followed by
    the properties of ingestion, querying and serialization.

    Conventions of the embedding.
    - A JavaScript string is a [string], one [ascii] per UTF-16 code unit;
      the case and white-space tables below cover the code units 0..255.
    - A JavaScript number that holds a counter is a [Z].
    - A [Map<string, V>] is an association list in insertion order whose
      keys are pairwise distinct ([set] overwrites in place, a fresh key is
      appended), because the iteration order of the maps is observable.
    - The chess rules engine (chess.js) is an interface, [RulesEngine]. *)

From stdpp Require Import base list strings gmap.
From Stdlib Require Import ZArith Ascii String Permutation.

Local Open Scope Z_scope.

(** ** Strings *)

Fixpoint str_take (n : nat) (s : string) : string :=
  match n, s with
  | S n', String c s' => String c (str_take n' s')
  | _, _ => EmptyString
  end.

Fixpoint str_drop (n : nat) (s : string) : string :=
  match n, s with
  | S n', String _ s' => str_drop n' s'
  | _, _ => s
  end.

(** [s.slice(a, b)] for literal bounds [0 <= a <= b]. *)
Definition slice (a b : nat) (s : string) : string :=
  str_take (b - a) (str_drop a s).

(** [s.slice(a)]. *)
Definition slice_from (a : nat) (s : string) : string := str_drop a s.

(** White space removed by [String.prototype.trim]: TAB, LF, VT, FF, CR,
    SPACE and NBSP. *)
Definition isWhiteSpace (c : ascii) : bool :=
  let n := nat_of_ascii c in
  ((9 <=? n)%nat && (n <=? 13)%nat) || (n =? 32)%nat || (n =? 160)%nat.

(** Lower-casing of one code unit: A-Z, and the Latin-1 capitals
    U+00C0..U+00DE without the multiplication sign U+00D7. *)
Definition lowerChar (c : ascii) : ascii :=
  let n := nat_of_ascii c in
  if ((65 <=? n)%nat && (n <=? 90)%nat)
     || ((192 <=? n)%nat && (n <=? 222)%nat && negb (n =? 215)%nat)
  then ascii_of_nat (n + 32) else c.

Fixpoint toLowerCase (s : string) : string :=
  match s with
  | EmptyString => EmptyString
  | String c s' => String (lowerChar c) (toLowerCase s')
  end.

Fixpoint trimStart (s : string) : string :=
  match s with
  | EmptyString => EmptyString
  | String c s' => if isWhiteSpace c then trimStart s' else s
  end.

Fixpoint trimEnd (s : string) : string :=
  match s with
  | EmptyString => EmptyString
  | String c s' =>
      match trimEnd s' with
      | EmptyString => if isWhiteSpace c then EmptyString else String c EmptyString
      | r => String c r
      end
  end.

Definition trim (s : string) : string := trimStart (trimEnd s).

(** ** Insertion-ordered maps: [Map<string, V>] *)

Section OrderedMap.
Context {V : Type}.

Fixpoint map_get (k : string) (m : list (string * V)) : option V :=
  match m with
  | [] => None
  | (k', v) :: m' => if String.eqb k k' then Some v else map_get k m'
  end.

(** [m.set(k, v)]: an existing key keeps its place, a new one goes last. *)
Fixpoint map_set (k : string) (v : V) (m : list (string * V)) : list (string * V) :=
  match m with
  | [] => [(k, v)]
  | (k', v') :: m' =>
      if String.eqb k k' then (k, v) :: m' else (k', v') :: map_set k v m'
  end.

Definition map_keys (m : list (string * V)) : list string := m.*1.

(** [new Map(entries)]. *)
Definition Map_of (entries : list (string * V)) : list (string * V) :=
  foldl (fun acc kv => map_set kv.1 kv.2 acc) [] entries.

(** [Array.from(m.entries())]. *)
Definition map_entries (m : list (string * V)) : list (string * V) := m.
End OrderedMap.

(** The keys of a [Map] are pairwise distinct. *)
Definition isMap {V : Type} (m : list (string * V)) : Prop := NoDup m.*1.

(** [m.set(k, (m.get(k) ?? 0) + 1)] *)
Definition incr (k : string) (m : list (string * Z)) : list (string * Z) :=
  map_set k (default 0 (map_get k m) + 1) m.

Definition sum_values (m : list (string * Z)) : Z :=
  foldr (fun kv acc => kv.2 + acc) 0 m.

(** ** Position buckets *)

Record Results := { win : Z; loss : Z; draw : Z }.

Record PositionBucket := {
  total : Z;
  moveCounts : list (string * Z);
  toSquareCounts : list (string * Z);
  fromSquareCounts : list (string * Z);
  results : Results;
  userTotal : Z;
  userMoveCounts : list (string * Z);
  userToSquareCounts : list (string * Z);
  oppTotal : Z;
  oppMoveCounts : list (string * Z);
  oppToSquareCounts : list (string * Z);
  userWhiteTotal : Z;
  userWhiteMoveCounts : list (string * Z);
  userWhiteToSquareCounts : list (string * Z);
  userBlackTotal : Z;
  userBlackMoveCounts : list (string * Z);
  userBlackToSquareCounts : list (string * Z);
  oppWhiteTotal : Z;
  oppWhiteMoveCounts : list (string * Z);
  oppWhiteToSquareCounts : list (string * Z);
  oppBlackTotal : Z;
  oppBlackMoveCounts : list (string * Z);
  oppBlackToSquareCounts : list (string * Z)
}.

(** The bucket literal of [addMove] and [addResult]. *)
Definition newBucket : PositionBucket :=
  {| total := 0; moveCounts := []; toSquareCounts := []; fromSquareCounts := [];
     results := {| win := 0; loss := 0; draw := 0 |};
     userTotal := 0; userMoveCounts := []; userToSquareCounts := [];
     oppTotal := 0; oppMoveCounts := []; oppToSquareCounts := [];
     userWhiteTotal := 0; userWhiteMoveCounts := []; userWhiteToSquareCounts := [];
     userBlackTotal := 0; userBlackMoveCounts := []; userBlackToSquareCounts := [];
     oppWhiteTotal := 0; oppWhiteMoveCounts := []; oppWhiteToSquareCounts := [];
     oppBlackTotal := 0; oppBlackMoveCounts := []; oppBlackToSquareCounts := [] |}.

Inductive Color := White | Black.
Inductive Outcome := Win | Loss | Draw.

#[global] Instance Color_eq_dec : EqDecision Color.
Proof. solve_decision. Defined.

#[global] Instance Outcome_eq_dec : EqDecision Outcome.
Proof. solve_decision. Defined.

(** [{ from, to, promotion? }] *)
Record MoveParams := {
  from : string;
  to : string;
  promotion : option string
}.

(** [`${params.from}${params.to}${params.promotion ?? ''}`] *)
Definition moveKey (p : MoveParams) : string :=
  from p +:+ to p +:+ default EmptyString (promotion p).

(** *** The mutations of [addMove], one definition per block of the source *)

(** [bucket.total += 1] and the three unconditional map updates. *)
Definition bumpGlobal (key : string) (p : MoveParams) (b : PositionBucket) : PositionBucket :=
  {| total := total b + 1;
     moveCounts := incr key (moveCounts b);
     toSquareCounts := incr (to p) (toSquareCounts b);
     fromSquareCounts := incr (from p) (fromSquareCounts b);
     results := results b;
     userTotal := userTotal b; userMoveCounts := userMoveCounts b;
     userToSquareCounts := userToSquareCounts b;
     oppTotal := oppTotal b; oppMoveCounts := oppMoveCounts b;
     oppToSquareCounts := oppToSquareCounts b;
     userWhiteTotal := userWhiteTotal b; userWhiteMoveCounts := userWhiteMoveCounts b;
     userWhiteToSquareCounts := userWhiteToSquareCounts b;
     userBlackTotal := userBlackTotal b; userBlackMoveCounts := userBlackMoveCounts b;
     userBlackToSquareCounts := userBlackToSquareCounts b;
     oppWhiteTotal := oppWhiteTotal b; oppWhiteMoveCounts := oppWhiteMoveCounts b;
     oppWhiteToSquareCounts := oppWhiteToSquareCounts b;
     oppBlackTotal := oppBlackTotal b; oppBlackMoveCounts := oppBlackMoveCounts b;
     oppBlackToSquareCounts := oppBlackToSquareCounts b |}.

Definition bumpUser (key : string) (p : MoveParams) (b : PositionBucket) : PositionBucket :=
  {| total := total b; moveCounts := moveCounts b; toSquareCounts := toSquareCounts b;
     fromSquareCounts := fromSquareCounts b; results := results b;
     userTotal := userTotal b + 1;
     userMoveCounts := incr key (userMoveCounts b);
     userToSquareCounts := incr (to p) (userToSquareCounts b);
     oppTotal := oppTotal b; oppMoveCounts := oppMoveCounts b;
     oppToSquareCounts := oppToSquareCounts b;
     userWhiteTotal := userWhiteTotal b; userWhiteMoveCounts := userWhiteMoveCounts b;
     userWhiteToSquareCounts := userWhiteToSquareCounts b;
     userBlackTotal := userBlackTotal b; userBlackMoveCounts := userBlackMoveCounts b;
     userBlackToSquareCounts := userBlackToSquareCounts b;
     oppWhiteTotal := oppWhiteTotal b; oppWhiteMoveCounts := oppWhiteMoveCounts b;
     oppWhiteToSquareCounts := oppWhiteToSquareCounts b;
     oppBlackTotal := oppBlackTotal b; oppBlackMoveCounts := oppBlackMoveCounts b;
     oppBlackToSquareCounts := oppBlackToSquareCounts b |}.

Definition bumpUserWhite (key : string) (p : MoveParams) (b : PositionBucket) : PositionBucket :=
  {| total := total b; moveCounts := moveCounts b; toSquareCounts := toSquareCounts b;
     fromSquareCounts := fromSquareCounts b; results := results b;
     userTotal := userTotal b; userMoveCounts := userMoveCounts b;
     userToSquareCounts := userToSquareCounts b;
     oppTotal := oppTotal b; oppMoveCounts := oppMoveCounts b;
     oppToSquareCounts := oppToSquareCounts b;
     userWhiteTotal := userWhiteTotal b + 1;
     userWhiteMoveCounts := incr key (userWhiteMoveCounts b);
     userWhiteToSquareCounts := incr (to p) (userWhiteToSquareCounts b);
     userBlackTotal := userBlackTotal b; userBlackMoveCounts := userBlackMoveCounts b;
     userBlackToSquareCounts := userBlackToSquareCounts b;
     oppWhiteTotal := oppWhiteTotal b; oppWhiteMoveCounts := oppWhiteMoveCounts b;
     oppWhiteToSquareCounts := oppWhiteToSquareCounts b;
     oppBlackTotal := oppBlackTotal b; oppBlackMoveCounts := oppBlackMoveCounts b;
     oppBlackToSquareCounts := oppBlackToSquareCounts b |}.

Definition bumpUserBlack (key : string) (p : MoveParams) (b : PositionBucket) : PositionBucket :=
  {| total := total b; moveCounts := moveCounts b; toSquareCounts := toSquareCounts b;
     fromSquareCounts := fromSquareCounts b; results := results b;
     userTotal := userTotal b; userMoveCounts := userMoveCounts b;
     userToSquareCounts := userToSquareCounts b;
     oppTotal := oppTotal b; oppMoveCounts := oppMoveCounts b;
     oppToSquareCounts := oppToSquareCounts b;
     userWhiteTotal := userWhiteTotal b; userWhiteMoveCounts := userWhiteMoveCounts b;
     userWhiteToSquareCounts := userWhiteToSquareCounts b;
     userBlackTotal := userBlackTotal b + 1;
     userBlackMoveCounts := incr key (userBlackMoveCounts b);
     userBlackToSquareCounts := incr (to p) (userBlackToSquareCounts b);
     oppWhiteTotal := oppWhiteTotal b; oppWhiteMoveCounts := oppWhiteMoveCounts b;
     oppWhiteToSquareCounts := oppWhiteToSquareCounts b;
     oppBlackTotal := oppBlackTotal b; oppBlackMoveCounts := oppBlackMoveCounts b;
     oppBlackToSquareCounts := oppBlackToSquareCounts b |}.

Definition bumpOpp (key : string) (p : MoveParams) (b : PositionBucket) : PositionBucket :=
  {| total := total b; moveCounts := moveCounts b; toSquareCounts := toSquareCounts b;
     fromSquareCounts := fromSquareCounts b; results := results b;
     userTotal := userTotal b; userMoveCounts := userMoveCounts b;
     userToSquareCounts := userToSquareCounts b;
     oppTotal := oppTotal b + 1;
     oppMoveCounts := incr key (oppMoveCounts b);
     oppToSquareCounts := incr (to p) (oppToSquareCounts b);
     userWhiteTotal := userWhiteTotal b; userWhiteMoveCounts := userWhiteMoveCounts b;
     userWhiteToSquareCounts := userWhiteToSquareCounts b;
     userBlackTotal := userBlackTotal b; userBlackMoveCounts := userBlackMoveCounts b;
     userBlackToSquareCounts := userBlackToSquareCounts b;
     oppWhiteTotal := oppWhiteTotal b; oppWhiteMoveCounts := oppWhiteMoveCounts b;
     oppWhiteToSquareCounts := oppWhiteToSquareCounts b;
     oppBlackTotal := oppBlackTotal b; oppBlackMoveCounts := oppBlackMoveCounts b;
     oppBlackToSquareCounts := oppBlackToSquareCounts b |}.

Definition bumpOppWhite (key : string) (p : MoveParams) (b : PositionBucket) : PositionBucket :=
  {| total := total b; moveCounts := moveCounts b; toSquareCounts := toSquareCounts b;
     fromSquareCounts := fromSquareCounts b; results := results b;
     userTotal := userTotal b; userMoveCounts := userMoveCounts b;
     userToSquareCounts := userToSquareCounts b;
     oppTotal := oppTotal b; oppMoveCounts := oppMoveCounts b;
     oppToSquareCounts := oppToSquareCounts b;
     userWhiteTotal := userWhiteTotal b; userWhiteMoveCounts := userWhiteMoveCounts b;
     userWhiteToSquareCounts := userWhiteToSquareCounts b;
     userBlackTotal := userBlackTotal b; userBlackMoveCounts := userBlackMoveCounts b;
     userBlackToSquareCounts := userBlackToSquareCounts b;
     oppWhiteTotal := oppWhiteTotal b + 1;
     oppWhiteMoveCounts := incr key (oppWhiteMoveCounts b);
     oppWhiteToSquareCounts := incr (to p) (oppWhiteToSquareCounts b);
     oppBlackTotal := oppBlackTotal b; oppBlackMoveCounts := oppBlackMoveCounts b;
     oppBlackToSquareCounts := oppBlackToSquareCounts b |}.

Definition bumpOppBlack (key : string) (p : MoveParams) (b : PositionBucket) : PositionBucket :=
  {| total := total b; moveCounts := moveCounts b; toSquareCounts := toSquareCounts b;
     fromSquareCounts := fromSquareCounts b; results := results b;
     userTotal := userTotal b; userMoveCounts := userMoveCounts b;
     userToSquareCounts := userToSquareCounts b;
     oppTotal := oppTotal b; oppMoveCounts := oppMoveCounts b;
     oppToSquareCounts := oppToSquareCounts b;
     userWhiteTotal := userWhiteTotal b; userWhiteMoveCounts := userWhiteMoveCounts b;
     userWhiteToSquareCounts := userWhiteToSquareCounts b;
     userBlackTotal := userBlackTotal b; userBlackMoveCounts := userBlackMoveCounts b;
     userBlackToSquareCounts := userBlackToSquareCounts b;
     oppWhiteTotal := oppWhiteTotal b; oppWhiteMoveCounts := oppWhiteMoveCounts b;
     oppWhiteToSquareCounts := oppWhiteToSquareCounts b;
     oppBlackTotal := oppBlackTotal b + 1;
     oppBlackMoveCounts := incr key (oppBlackMoveCounts b);
     oppBlackToSquareCounts := incr (to p) (oppBlackToSquareCounts b) |}.

(** The body of [addMove] after the bucket has been found or created:
    what the call does to the bucket object. *)
Definition recordMove (p : MoveParams) (byUser : option bool) (color : option Color)
    (b : PositionBucket) : PositionBucket :=
  let key := moveKey p in
  let b := bumpGlobal key p b in
  match byUser with
  | Some true =>
      let b := bumpUser key p b in
      match color with
      | Some White => bumpUserWhite key p b
      | Some Black => bumpUserBlack key p b
      | None => b
      end
  | Some false =>
      let b := bumpOpp key p b in
      match color with
      | Some White => bumpOppWhite key p b
      | Some Black => bumpOppBlack key p b
      | None => b
      end
  | None => b
  end.

(** [bucket.results[outcome] += 1] *)
Definition recordResult (o : Outcome) (b : PositionBucket) : PositionBucket :=
  let r := results b in
  let r' := match o with
            | Win => {| win := win r + 1; loss := loss r; draw := draw r |}
            | Loss => {| win := win r; loss := loss r + 1; draw := draw r |}
            | Draw => {| win := win r; loss := loss r; draw := draw r + 1 |}
            end in
  {| total := total b; moveCounts := moveCounts b; toSquareCounts := toSquareCounts b;
     fromSquareCounts := fromSquareCounts b; results := r';
     userTotal := userTotal b; userMoveCounts := userMoveCounts b;
     userToSquareCounts := userToSquareCounts b;
     oppTotal := oppTotal b; oppMoveCounts := oppMoveCounts b;
     oppToSquareCounts := oppToSquareCounts b;
     userWhiteTotal := userWhiteTotal b; userWhiteMoveCounts := userWhiteMoveCounts b;
     userWhiteToSquareCounts := userWhiteToSquareCounts b;
     userBlackTotal := userBlackTotal b; userBlackMoveCounts := userBlackMoveCounts b;
     userBlackToSquareCounts := userBlackToSquareCounts b;
     oppWhiteTotal := oppWhiteTotal b; oppWhiteMoveCounts := oppWhiteMoveCounts b;
     oppWhiteToSquareCounts := oppWhiteToSquareCounts b;
     oppBlackTotal := oppBlackTotal b; oppBlackMoveCounts := oppBlackMoveCounts b;
     oppBlackToSquareCounts := oppBlackToSquareCounts b |}.

(** ** The move index, as the value it denotes

    [MoveIndex] is the content of [this.index]: position identifier to
    bucket, in insertion order.  The store-level model further down keeps
    the bucket objects in a heap and is shown to denote this one. *)

Definition MoveIndex : Type := list (string * PositionBucket).

Definition emptyIndex : MoveIndex := [].

Definition size (idx : MoveIndex) : nat := List.length idx.

Definition clear (idx : MoveIndex) : MoveIndex := [].

Definition addMove (fen : string) (p : MoveParams) (byUser : option bool)
    (color : option Color) (idx : MoveIndex) : MoveIndex :=
  let bucket := match map_get fen idx with Some b => b | None => newBucket end in
  map_set fen (recordMove p byUser color bucket) idx.

Definition addResult (fen : string) (o : Outcome) (idx : MoveIndex) : MoveIndex :=
  let bucket := match map_get fen idx with Some b => b | None => newBucket end in
  map_set fen (recordResult o bucket) idx.

Definition getBucket (idx : MoveIndex) (fen : string) : option PositionBucket :=
  map_get fen idx.

(** [getResultStats] *)
Record ResultStats := { rs_win : Z; rs_loss : Z; rs_draw : Z; rs_total : Z }.

Definition getResultStats (idx : MoveIndex) (fen : string) : ResultStats :=
  match map_get fen idx with
  | None => {| rs_win := 0; rs_loss := 0; rs_draw := 0; rs_total := 0 |}
  | Some b =>
      let r := results b in
      {| rs_win := win r; rs_loss := loss r; rs_draw := draw r;
         rs_total := win r + loss r + draw r |}
  end.

(** *** [getTopMoves] *)

(** One insertion step of a stable sort along the comparator
    [(a, b) => b.c - a.c]: the new pair, which came earlier in the array,
    passes only the pairs with a strictly larger count. *)
Fixpoint insertByCount (p : string * Z) (l : list (string * Z)) : list (string * Z) :=
  match l with
  | [] => [p]
  | q :: l' => if p.2 <? q.2 then q :: insertByCount p l' else p :: q :: l'
  end.

(** [pairs.sort((a, b) => b.c - a.c)]; [Array.prototype.sort] is stable,
    and the comparator is a total preorder on integer counts, so the result
    is the one stable arrangement by non-increasing count. *)
Definition sortByCount (pairs : list (string * Z)) : list (string * Z) :=
  foldr insertByCount [] pairs.

(** [arr.slice(0, limit)] for an integer [limit]: a negative end counts
    from the back of the array. *)
Definition array_slice0 {A : Type} (limit : Z) (arr : list A) : list A :=
  let len := Z.of_nat (List.length arr) in
  let final := if limit <? 0 then Z.max (len + limit) 0 else Z.min limit len in
  take (Z.to_nat final) arr.

(** [{ from, to, promotion?, count }] *)
Record TopMove := {
  top_from : string;
  top_to : string;
  top_promotion : option string;
  top_count : Z
}.

Definition toTopMove (kc : string * Z) : TopMove :=
  let k := kc.1 in
  {| top_from := slice 0 2 k;
     top_to := slice 2 4 k;
     top_promotion := if (4 <? String.length k)%nat then Some (slice_from 4 k) else None;
     top_count := kc.2 |}.

(** What [getTopMoves] computes from the bucket it found. *)
Definition topMovesOf (bucket : PositionBucket) (limit : Z) : list TopMove :=
  let pairs := map_entries (moveCounts bucket) in
  toTopMove <$> array_slice0 limit (sortByCount pairs).

Definition getTopMoves (idx : MoveIndex) (fen : string) (limit : Z) : list TopMove :=
  match map_get fen idx with
  | None => []
  | Some bucket => topMovesOf bucket limit
  end.

(** The call without a limit: [limit = 8]. *)
Definition getTopMovesDefault (idx : MoveIndex) (fen : string) : list TopMove :=
  getTopMoves idx fen 8.

(** The move key an entry of the result stands for. *)
Definition top_key (e : TopMove) : string :=
  top_from e +:+ top_to e +:+ default EmptyString (top_promotion e).

(** ** Serialization *)

(** [SerializedBucket].  The fields that [fromSerialized] reads through
    [??] may be absent from a stored record. *)
Record SerializedBucket := {
  s_t : Z;
  s_m : list (string * Z);
  s_to : list (string * Z);
  s_fr : list (string * Z);
  s_r : option (list Z);
  s_ut : option Z;
  s_um : option (list (string * Z));
  s_uto : option (list (string * Z));
  s_ot : option Z;
  s_om : option (list (string * Z));
  s_oto : option (list (string * Z));
  s_uwt : option Z;
  s_uwm : option (list (string * Z));
  s_uwto : option (list (string * Z));
  s_ubt : option Z;
  s_ubm : option (list (string * Z));
  s_ubto : option (list (string * Z));
  s_owt : option Z;
  s_owm : option (list (string * Z));
  s_owto : option (list (string * Z));
  s_obt : option Z;
  s_obm : option (list (string * Z));
  s_obto : option (list (string * Z))
}.

(** [SerializedIndex = Record<string, SerializedBucket>]: a plain object
    whose own properties are kept in creation order.  Position identifiers
    are FEN strings; the accessor key [__proto__] is not one and is outside
    this model. *)
Definition SerializedIndex : Type := list (string * SerializedBucket).

(** An array index in the sense of ECMAScript: the canonical decimal
    numeral of an integer below 2^32 - 1. *)
Definition digitOf (c : ascii) : option N :=
  let n := N_of_ascii c in
  if ((48 <=? n) && (n <=? 57))%N then Some (n - 48)%N else None.

Fixpoint parseDigits (s : string) (acc : N) : option N :=
  match s with
  | EmptyString => Some acc
  | String c s' =>
      match digitOf c with
      | Some d => parseDigits s' (10 * acc + d)%N
      | None => None
      end
  end.

Definition arrayIndex (s : string) : option N :=
  match s with
  | EmptyString => None
  | String c s' =>
      if (N_of_ascii c =? 48)%N && negb (String.eqb s' EmptyString) then None
      else match parseDigits s 0%N with
           | Some n => if (n <? 4294967295)%N then Some n else None
           | None => None
           end
  end.

Definition isArrayIndex (s : string) : bool :=
  match arrayIndex s with Some _ => true | None => false end.

Fixpoint insertByIndex (k : string) (l : list string) : list string :=
  match l with
  | [] => [k]
  | k' :: l' =>
      if (default 0 (arrayIndex k') <? default 0 (arrayIndex k))%N
      then k' :: insertByIndex k l' else k :: k' :: l'
  end.

(** [Object.keys(o)]: array-index keys in ascending numeric order, then the
    other string keys in creation order. *)
Definition Object_keys {V : Type} (o : list (string * V)) : list string :=
  foldr insertByIndex [] (List.filter isArrayIndex o.*1)
  ++ List.filter (fun k => negb (isArrayIndex k)) o.*1.

Definition serializeBucket (b : PositionBucket) : SerializedBucket :=
  {| s_t := total b;
     s_m := map_entries (moveCounts b);
     s_to := map_entries (toSquareCounts b);
     s_fr := map_entries (fromSquareCounts b);
     s_r := Some [win (results b); loss (results b); draw (results b)];
     s_ut := Some (userTotal b);
     s_um := Some (map_entries (userMoveCounts b));
     s_uto := Some (map_entries (userToSquareCounts b));
     s_ot := Some (oppTotal b);
     s_om := Some (map_entries (oppMoveCounts b));
     s_oto := Some (map_entries (oppToSquareCounts b));
     s_uwt := Some (userWhiteTotal b);
     s_uwm := Some (map_entries (userWhiteMoveCounts b));
     s_uwto := Some (map_entries (userWhiteToSquareCounts b));
     s_ubt := Some (userBlackTotal b);
     s_ubm := Some (map_entries (userBlackMoveCounts b));
     s_ubto := Some (map_entries (userBlackToSquareCounts b));
     s_owt := Some (oppWhiteTotal b);
     s_owm := Some (map_entries (oppWhiteMoveCounts b));
     s_owto := Some (map_entries (oppWhiteToSquareCounts b));
     s_obt := Some (oppBlackTotal b);
     s_obm := Some (map_entries (oppBlackMoveCounts b));
     s_obto := Some (map_entries (oppBlackToSquareCounts b)) |}.

(** [for (const [fen, b] of this.index) out[fen] = {...}] *)
Definition serialize (idx : MoveIndex) : SerializedIndex :=
  foldl (fun out fb => map_set fb.1 (serializeBucket fb.2) out) [] idx.

(** [s.r?.[i] ?? 0] *)
Definition resultAt (r : option (list Z)) (i : nat) : Z :=
  default 0 (r ≫= fun a => a !! i).

Definition deserializeBucket (s : SerializedBucket) : PositionBucket :=
  {| total := s_t s;
     moveCounts := Map_of (s_m s);
     toSquareCounts := Map_of (s_to s);
     fromSquareCounts := Map_of (s_fr s);
     results := {| win := resultAt (s_r s) 0; loss := resultAt (s_r s) 1;
                   draw := resultAt (s_r s) 2 |};
     userTotal := default 0 (s_ut s);
     userMoveCounts := Map_of (default [] (s_um s));
     userToSquareCounts := Map_of (default [] (s_uto s));
     oppTotal := default 0 (s_ot s);
     oppMoveCounts := Map_of (default [] (s_om s));
     oppToSquareCounts := Map_of (default [] (s_oto s));
     userWhiteTotal := default 0 (s_uwt s);
     userWhiteMoveCounts := Map_of (default [] (s_uwm s));
     userWhiteToSquareCounts := Map_of (default [] (s_uwto s));
     userBlackTotal := default 0 (s_ubt s);
     userBlackMoveCounts := Map_of (default [] (s_ubm s));
     userBlackToSquareCounts := Map_of (default [] (s_ubto s));
     oppWhiteTotal := default 0 (s_owt s);
     oppWhiteMoveCounts := Map_of (default [] (s_owm s));
     oppWhiteToSquareCounts := Map_of (default [] (s_owto s));
     oppBlackTotal := default 0 (s_obt s);
     oppBlackMoveCounts := Map_of (default [] (s_obm s));
     oppBlackToSquareCounts := Map_of (default [] (s_obto s)) |}.

(** The loop of [fromSerialized].  [None] is the [TypeError] that reading
    [s.t] raises when [data[fen]] is undefined. *)
Fixpoint fromSerializedLoop (data : SerializedIndex) (keys : list string)
    (idx : MoveIndex) : option MoveIndex :=
  match keys with
  | [] => Some idx
  | fen :: rest =>
      match map_get fen data with
      | None => None
      | Some s => fromSerializedLoop data rest (map_set fen (deserializeBucket s) idx)
      end
  end.

Definition fromSerialized (data : SerializedIndex) : option MoveIndex :=
  fromSerializedLoop data (Object_keys data) emptyIndex.

(** ** The rules engine and the ingestion operations *)

(** The resolved move returned by [chess.move]. *)
Record Move := {
  move_from : string;
  move_to : string;
  move_promotion : option string;
  move_color : Color
}.

(** What the index uses of chess.js.  A [Chess] value is the state of one
    engine object; a call that throws yields [None]. *)
Class RulesEngine := {
  Chess : Type;
  newChess : Chess;
  chess_fen : Chess -> string;
  chess_move : Chess -> MoveParams -> option (Chess * Move);
  chess_moveSan : Chess -> string -> option (Chess * Move);
  chess_loadPgn : Chess -> string -> option Chess;
  chess_getHeaders : Chess -> list (string * string);
  chess_history : Chess -> list string
}.

Definition decisive (resultTag : string) : bool :=
  String.eqb resultTag "1-0" || String.eqb resultTag "0-1" || String.eqb resultTag "1/2-1/2".

(** [(headers[name] || '').toString()] *)
Definition header (headers : list (string * string)) (name : string) : string :=
  default EmptyString (map_get name headers).

Section Ingestion.
Context {E : RulesEngine}.

Definition uciParams (uci : string) : MoveParams :=
  {| from := slice 0 2 uci;
     to := slice 2 4 uci;
     promotion := if (4 <? String.length uci)%nat then Some (slice 4 5 uci) else None |}.

Fixpoint uciLoop (chess : Chess) (uciMoves : list string) (idx : MoveIndex) : MoveIndex :=
  match uciMoves with
  | [] => idx
  | uci :: rest =>
      let fenBefore := chess_fen chess in
      let p := uciParams uci in
      let idx := addMove fenBefore p None None idx in
      match chess_move chess p with
      | None => idx
      | Some (chess', _) => uciLoop chess' rest idx
      end
  end.

Definition ingestUciMoves (uciMoves : list string) (idx : MoveIndex) : MoveIndex :=
  uciLoop newChess uciMoves idx.

Definition moveParams (m : Move) : MoveParams :=
  {| from := move_from m; to := move_to m; promotion := move_promotion m |}.

Fixpoint sanLoop (chess : Chess) (sanMoves : list string) (idx : MoveIndex) : MoveIndex :=
  match sanMoves with
  | [] => idx
  | san :: rest =>
      let fenBefore := chess_fen chess in
      match chess_moveSan chess san with
      | None => idx
      | Some (chess', move) =>
          sanLoop chess' rest (addMove fenBefore (moveParams move) None None idx)
      end
  end.

Definition ingestSanMoves (sanMoves : list string) (idx : MoveIndex) : MoveIndex :=
  sanLoop newChess sanMoves idx.

(** [colorToMove === 'w' && userLower === whiteName ||
     colorToMove === 'b' && userLower === blackName] *)
Definition moverIsUser (colorToMove : Color) (userLower whiteName blackName : string) : bool :=
  match colorToMove with
  | White => String.eqb userLower whiteName
  | Black => String.eqb userLower blackName
  end.

(** The replay loop of [ingestGamePgn]. *)
Fixpoint pgnLoop (userLower whiteName blackName : string) (outcome : option Outcome)
    (walker : Chess) (moves : list string) (seenThisGame : gset string)
    (idx : MoveIndex) : MoveIndex :=
  match moves with
  | [] => idx
  | san :: rest =>
      let fenBefore := chess_fen walker in
      match chess_moveSan walker san with
      | None => idx
      | Some (walker', m) =>
          let colorToMove := move_color m in
          let byUser := moverIsUser colorToMove userLower whiteName blackName in
          let idx := addMove fenBefore (moveParams m) (Some byUser) (Some colorToMove) idx in
          match outcome with
          | Some o =>
              if bool_decide (fenBefore ∈ seenThisGame)
              then pgnLoop userLower whiteName blackName outcome walker' rest
                     seenThisGame idx
              else pgnLoop userLower whiteName blackName outcome walker' rest
                     ({[fenBefore]} ∪ seenThisGame) (addResult fenBefore o idx)
          | None =>
              pgnLoop userLower whiteName blackName outcome walker' rest seenThisGame idx
          end
      end
  end.

(** The assignment to [outcome] inside the branch for a decisive tag. *)
Definition outcomeOf (resultTag : string) (userIsWhite userIsBlack : bool) : option Outcome :=
  if String.eqb resultTag "1/2-1/2" then Some Draw
  else if String.eqb resultTag "1-0" then Some (if userIsWhite then Win else Loss)
  else if String.eqb resultTag "0-1" then Some (if userIsBlack then Win else Loss)
  else None.

Definition ingestGamePgn (username pgn : string) (idx : MoveIndex) : MoveIndex :=
  match chess_loadPgn newChess pgn with
  | None => idx
  | Some chess =>
      let headers := chess_getHeaders chess in
      let userLower := toLowerCase (trim username) in
      let whiteName := toLowerCase (trim (header headers "White")) in
      let blackName := toLowerCase (trim (header headers "Black")) in
      let resultTag := trim (header headers "Result") in
      let replay outcome :=
        pgnLoop userLower whiteName blackName outcome newChess (chess_history chess) ∅ idx in
      if decisive resultTag then
        let userIsWhite := String.eqb userLower whiteName in
        let userIsBlack := String.eqb userLower blackName in
        if negb userIsWhite && negb userIsBlack then idx
        else replay (outcomeOf resultTag userIsWhite userIsBlack)
      else replay None
  end.
End Ingestion.

(** ** The index as a store of bucket objects

    [this.index] maps a position identifier to a reference; the bucket
    objects live in a heap and are mutated in place.  [getBucket] hands out
    the reference itself. *)

Module Ref.
Record Store := {
  heap : list PositionBucket;
  index : list (string * nat)
}.

Definition empty : Store := {| heap := []; index := [] |}.

Definition deref (h : list PositionBucket) (l : nat) : PositionBucket :=
  default newBucket (h !! l).

(** [let bucket = this.index.get(fen); if (!bucket) { bucket = {...};
    this.index.set(fen, bucket) }] *)
Definition findOrCreate (fen : string) (s : Store) : nat * Store :=
  match map_get fen (index s) with
  | Some l => (l, s)
  | None =>
      let l := List.length (heap s) in
      (l, {| heap := heap s ++ [newBucket]; index := map_set fen l (index s) |})
  end.

(** A mutation [f] performed through the reference [l]. *)
Definition write (l : nat) (f : PositionBucket -> PositionBucket) (s : Store) : Store :=
  {| heap := alter f l (heap s); index := index s |}.

Definition addMove (fen : string) (p : MoveParams) (byUser : option bool)
    (color : option Color) (s : Store) : Store :=
  let '(l, s) := findOrCreate fen s in
  write l (recordMove p byUser color) s.

Definition addResult (fen : string) (o : Outcome) (s : Store) : Store :=
  let '(l, s) := findOrCreate fen s in
  write l (recordResult o) s.

(** [return this.index.get(fen) ?? null]: the stored reference. *)
Definition getBucket (s : Store) (fen : string) : option nat :=
  map_get fen (index s).

Definition getTopMoves (s : Store) (fen : string) (limit : Z) : list TopMove :=
  match map_get fen (index s) with
  | None => []
  | Some l => topMovesOf (deref (heap s) l) limit
  end.

Definition getResultStats (s : Store) (fen : string) : ResultStats :=
  match map_get fen (index s) with
  | None => {| rs_win := 0; rs_loss := 0; rs_draw := 0; rs_total := 0 |}
  | Some l =>
      let r := results (deref (heap s) l) in
      {| rs_win := win r; rs_loss := loss r; rs_draw := draw r;
         rs_total := win r + loss r + draw r |}
  end.

Definition serialize (s : Store) : SerializedIndex :=
  foldl (fun out fl => map_set fl.1 (serializeBucket (deref (heap s) fl.2)) out)
        [] (index s).

(** The index value a store denotes. *)
Definition denote (s : Store) : MoveIndex :=
  (fun fl => (fl.1, deref (heap s) fl.2)) <$> index s.

(** [this.index] is a [Map]; every reference in it points into the heap,
    and no bucket object is shared by two positions. *)
Definition wf (s : Store) : Prop :=
  isMap (index s) ∧ NoDup (index s).*2
  ∧ ∀ l, l ∈ (index s).*2 → (l < List.length (heap s))%nat.
End Ref.

(** Mutations a caller can perform on a bucket it holds:
    [b.total = v] and [b.moveCounts.set(k, c)]. *)
Definition assignTotal (v : Z) (b : PositionBucket) : PositionBucket :=
  {| total := v; moveCounts := moveCounts b; toSquareCounts := toSquareCounts b;
     fromSquareCounts := fromSquareCounts b; results := results b;
     userTotal := userTotal b; userMoveCounts := userMoveCounts b;
     userToSquareCounts := userToSquareCounts b;
     oppTotal := oppTotal b; oppMoveCounts := oppMoveCounts b;
     oppToSquareCounts := oppToSquareCounts b;
     userWhiteTotal := userWhiteTotal b; userWhiteMoveCounts := userWhiteMoveCounts b;
     userWhiteToSquareCounts := userWhiteToSquareCounts b;
     userBlackTotal := userBlackTotal b; userBlackMoveCounts := userBlackMoveCounts b;
     userBlackToSquareCounts := userBlackToSquareCounts b;
     oppWhiteTotal := oppWhiteTotal b; oppWhiteMoveCounts := oppWhiteMoveCounts b;
     oppWhiteToSquareCounts := oppWhiteToSquareCounts b;
     oppBlackTotal := oppBlackTotal b; oppBlackMoveCounts := oppBlackMoveCounts b;
     oppBlackToSquareCounts := oppBlackToSquareCounts b |}.

Definition moveCountsSet (k : string) (c : Z) (b : PositionBucket) : PositionBucket :=
  {| total := total b; moveCounts := map_set k c (moveCounts b);
     toSquareCounts := toSquareCounts b;
     fromSquareCounts := fromSquareCounts b; results := results b;
     userTotal := userTotal b; userMoveCounts := userMoveCounts b;
     userToSquareCounts := userToSquareCounts b;
     oppTotal := oppTotal b; oppMoveCounts := oppMoveCounts b;
     oppToSquareCounts := oppToSquareCounts b;
     userWhiteTotal := userWhiteTotal b; userWhiteMoveCounts := userWhiteMoveCounts b;
     userWhiteToSquareCounts := userWhiteToSquareCounts b;
     userBlackTotal := userBlackTotal b; userBlackMoveCounts := userBlackMoveCounts b;
     userBlackToSquareCounts := userBlackToSquareCounts b;
     oppWhiteTotal := oppWhiteTotal b; oppWhiteMoveCounts := oppWhiteMoveCounts b;
     oppWhiteToSquareCounts := oppWhiteToSquareCounts b;
     oppBlackTotal := oppBlackTotal b; oppBlackMoveCounts := oppBlackMoveCounts b;
     oppBlackToSquareCounts := oppBlackToSquareCounts b |}.

(** ** Sequences of operations, and what a replay visits *)

Inductive Op :=
| IngestUciMoves (uciMoves : list string)
| IngestSanMoves (sanMoves : list string)
| IngestGamePgn (username pgn : string)
| Clear.

Section Replay.
Context {E : RulesEngine}.

Definition applyOp (op : Op) (idx : MoveIndex) : MoveIndex :=
  match op with
  | IngestUciMoves uciMoves => ingestUciMoves uciMoves idx
  | IngestSanMoves sanMoves => ingestSanMoves sanMoves idx
  | IngestGamePgn username pgn => ingestGamePgn username pgn idx
  | Clear => clear idx
  end.

(** The index after the operations [ops], in order, on a new index. *)
Definition runOps (ops : list Op) : MoveIndex :=
  foldl (fun idx op => applyOp op idx) emptyIndex ops.

(** The positions-before-a-move of a SAN replay: one per move the engine
    accepted, up to the first one it refused. *)
Fixpoint sanPositions (chess : Chess) (sanMoves : list string) : list string :=
  match sanMoves with
  | [] => []
  | san :: rest =>
      match chess_moveSan chess san with
      | None => []
      | Some (chess', _) => chess_fen chess :: sanPositions chess' rest
      end
  end.

(** The plies of a SAN replay: position before, and the resolved move. *)
Fixpoint sanPlies (chess : Chess) (sanMoves : list string) : list (string * Move) :=
  match sanMoves with
  | [] => []
  | san :: rest =>
      match chess_moveSan chess san with
      | None => []
      | Some (chess', m) => (chess_fen chess, m) :: sanPlies chess' rest
      end
  end.

(** The plies of a coordinate-move list that the engine accepts, up to the
    first one it refuses; the second component is the engine state
    reached, the one in which the refused move, if any, was tried. *)
Fixpoint uciLegalPlies (chess : Chess) (uciMoves : list string)
    : list (string * MoveParams) * Chess :=
  match uciMoves with
  | [] => ([], chess)
  | uci :: rest =>
      match chess_move chess (uciParams uci) with
      | None => ([], chess)
      | Some (chess', _) =>
          let '(plies, final) := uciLegalPlies chess' rest in
          ((chess_fen chess, uciParams uci) :: plies, final)
      end
  end.

(** The positions at which [ingestUciMoves] calls [addMove]. *)
Fixpoint uciPositions (chess : Chess) (uciMoves : list string) : list string :=
  match uciMoves with
  | [] => []
  | uci :: rest =>
      chess_fen chess ::
      match chess_move chess (uciParams uci) with
      | None => []
      | Some (chess', _) => uciPositions chess' rest
      end
  end.

(** The positions at which an operation records a move without saying
    who played it. *)
Definition barePositions (op : Op) : list string :=
  match op with
  | IngestUciMoves uciMoves => uciPositions newChess uciMoves
  | IngestSanMoves sanMoves => sanPositions newChess sanMoves
  | IngestGamePgn _ _ => []
  | Clear => []
  end.

(** The value of [outcome] when the replay loop of [ingestGamePgn] starts;
    [None] also covers the calls that return before the loop. *)
Definition gameOutcome (username pgn : string) : option Outcome :=
  match chess_loadPgn newChess pgn with
  | None => None
  | Some chess =>
      let headers := chess_getHeaders chess in
      let userLower := toLowerCase (trim username) in
      let whiteName := toLowerCase (trim (header headers "White")) in
      let blackName := toLowerCase (trim (header headers "Black")) in
      let resultTag := trim (header headers "Result") in
      if decisive resultTag then
        let userIsWhite := String.eqb userLower whiteName in
        let userIsBlack := String.eqb userLower blackName in
        if negb userIsWhite && negb userIsBlack then None
        else outcomeOf resultTag userIsWhite userIsBlack
      else None
  end.

(** The positions a game's replay visits as position-before-a-move. *)
Definition visitedPositions (pgn : string) : list string :=
  match chess_loadPgn newChess pgn with
  | None => []
  | Some chess => sanPositions newChess (chess_history chess)
  end.

(** The tracked identity matches the White, resp. Black, header. *)
Definition matchesWhite (username pgn : string) : bool :=
  match chess_loadPgn newChess pgn with
  | None => false
  | Some chess =>
      String.eqb (toLowerCase (trim username))
                 (toLowerCase (trim (header (chess_getHeaders chess) "White")))
  end.

Definition matchesBlack (username pgn : string) : bool :=
  match chess_loadPgn newChess pgn with
  | None => false
  | Some chess =>
      String.eqb (toLowerCase (trim username))
                 (toLowerCase (trim (header (chess_getHeaders chess) "Black")))
  end.

Definition resultTagOf (pgn : string) : string :=
  match chess_loadPgn newChess pgn with
  | None => EmptyString
  | Some chess => trim (header (chess_getHeaders chess) "Result")
  end.
End Replay.

Definition resultCount (o : Outcome) (r : ResultStats) : Z :=
  match o with Win => rs_win r | Loss => rs_loss r | Draw => rs_draw r end.

(** ** Bucket and index predicates *)

(** [total] agrees with the three marginal sums. *)
Definition marginalsAgree (b : PositionBucket) : Prop :=
  total b = sum_values (moveCounts b)
  ∧ total b = sum_values (toSquareCounts b)
  ∧ total b = sum_values (fromSquareCounts b).

(** The colour counters partition the role counters. *)
Definition colorsPartition (b : PositionBucket) : Prop :=
  userWhiteTotal b + userBlackTotal b = userTotal b
  ∧ oppWhiteTotal b + oppBlackTotal b = oppTotal b.

Definition bucketMaps (b : PositionBucket) : Prop :=
  isMap (moveCounts b) ∧ isMap (toSquareCounts b) ∧ isMap (fromSquareCounts b)
  ∧ isMap (userMoveCounts b) ∧ isMap (userToSquareCounts b)
  ∧ isMap (oppMoveCounts b) ∧ isMap (oppToSquareCounts b)
  ∧ isMap (userWhiteMoveCounts b) ∧ isMap (userWhiteToSquareCounts b)
  ∧ isMap (userBlackMoveCounts b) ∧ isMap (userBlackToSquareCounts b)
  ∧ isMap (oppWhiteMoveCounts b) ∧ isMap (oppWhiteToSquareCounts b)
  ∧ isMap (oppBlackMoveCounts b) ∧ isMap (oppBlackToSquareCounts b).

(** An index value: a [Map] of buckets whose count maps are [Map]s. *)
Definition isIndex (idx : MoveIndex) : Prop :=
  isMap idx ∧ Forall (fun fb => bucketMaps fb.2) idx.

(** The role counters of a bucket, against its total. *)
Definition rolesBounded (b : PositionBucket) : Prop :=
  userTotal b + oppTotal b <= total b.

Definition rolesExhaust (b : PositionBucket) : Prop :=
  userTotal b + oppTotal b = total b.

(** Every bucket of the index satisfies [P] at its position. *)
Definition allBuckets (P : string → PositionBucket → Prop) (idx : MoveIndex) : Prop :=
  ∀ fen b, getBucket idx fen = Some b → P fen b.

(** Counts never increase along the list. *)
Definition descending (l : list (string * Z)) : Prop :=
  ∀ x y, [x; y] `sublist_of` l → y.2 <= x.2.

(** [total] of the bucket at a position, 0 when there is none. *)
Definition totalAt (idx : MoveIndex) (fen : string) : Z :=
  match getBucket idx fen with Some b => total b | None => 0 end.

(** How often [fen] occurs in a list of positions. *)
Fixpoint occurrences (fen : string) (l : list string) : Z :=
  match l with
  | [] => 0
  | f :: l' => (if String.eqb f fen then 1 else 0) + occurrences fen l'
  end.

(** ** Identities that differ in letter case and outer white space *)

(** The same code unit, or a capital letter and its small letter. *)
Definition isCapital (c : ascii) : bool :=
  let n := nat_of_ascii c in
  ((65 <=? n)%nat && (n <=? 90)%nat)
  || ((192 <=? n)%nat && (n <=? 222)%nat && negb (n =? 215)%nat).

Definition sameLetter (c d : ascii) : bool :=
  Ascii.eqb c d
  || (isCapital c && (nat_of_ascii d =? nat_of_ascii c + 32)%nat)
  || (isCapital d && (nat_of_ascii c =? nat_of_ascii d + 32)%nat).

Fixpoint sameLetters (s t : string) : bool :=
  match s, t with
  | EmptyString, EmptyString => true
  | String c s', String d t' => sameLetter c d && sameLetters s' t'
  | _, _ => false
  end.

Fixpoint allWhiteSpace (s : string) : bool :=
  match s with
  | EmptyString => true
  | String c s' => isWhiteSpace c && allWhiteSpace s'
  end.

(** [u] and [u'] are the same name up to the case of its letters, each
    wrapped in white space of its own. *)
Definition differOnlyInCaseAndSpace (u u' : string) : Prop :=
  ∃ pre core suf pre' core' suf',
    u = pre +:+ core +:+ suf ∧ u' = pre' +:+ core' +:+ suf'
    ∧ allWhiteSpace pre = true ∧ allWhiteSpace suf = true
    ∧ allWhiteSpace pre' = true ∧ allWhiteSpace suf' = true
    ∧ sameLetters core core' = true.

(** ** Rules engines given by a table

    A finite excerpt of an engine: the transitions it accepts, with the
    resolved move and the identifier of the position reached, and the game
    records it parses.  Every other move or record is refused. *)

Record TableState := {
  position : string;
  headers : list (string * string);
  history : list string
}.

Record TableEntry := {
  e_before : string;
  e_san : string;
  e_move : Move;
  e_after : string
}.

Definition sameParams (p : MoveParams) (m : Move) : bool :=
  String.eqb (from p) (move_from m) && String.eqb (to p) (move_to m)
  && match promotion p, move_promotion m with
     | None, None => true
     | Some a, Some b => String.eqb a b
     | _, _ => false
     end.

Definition tableStep (transitions : list TableEntry) (c : TableState)
    (pick : TableEntry -> bool) : option (TableState * Move) :=
  match List.find (fun e => String.eqb (e_before e) (position c) && pick e) transitions with
  | Some e =>
      Some ({| position := e_after e; headers := headers c;
               history := history c ++ [e_san e] |}, e_move e)
  | None => None
  end.

Definition tableEngine (start : string) (transitions : list TableEntry)
    (records : list (string * TableState)) : RulesEngine :=
  {| Chess := TableState;
     newChess := {| position := start; headers := []; history := [] |};
     chess_fen := position;
     chess_move := fun c p => tableStep transitions c (fun e => sameParams p (e_move e));
     chess_moveSan := fun c san => tableStep transitions c (fun e => String.eqb (e_san e) san);
     chess_loadPgn := fun _ pgn => map_get pgn records;
     chess_getHeaders := headers;
     chess_history := history |}.

Definition quote : string := String (ascii_of_nat 34) EmptyString.
Definition newline : string := String (ascii_of_nat 10) EmptyString.

(** One tag pair of a game record, [[name "value"]], and its line end. *)
Definition tag (name value : string) : string :=
  "[" +:+ name +:+ " " +:+ quote +:+ value +:+ quote +:+ "]" +:+ newline.

Definition plainMove (f t : string) (c : Color) : Move :=
  {| move_from := f; move_to := t; move_promotion := None; move_color := c |}.

(** *** An excerpt of chess.js

    The transitions and game records used by the scenarios, as chess.js
    gives them: four first moves, the reply 1... e5, and two game records. *)

Module Table.
Definition startFen : string :=
  "rnbqkbnr/pppppppp/8/8/8/8/PPPPPPPP/RNBQKBNR w KQkq - 0 1".
Definition fenE4 : string :=
  "rnbqkbnr/pppppppp/8/8/4P3/8/PPPP1PPP/RNBQKBNR b KQkq - 0 1".
Definition fenE4E5 : string :=
  "rnbqkbnr/pppp1ppp/8/4p3/4P3/8/PPPP1PPP/RNBQKBNR w KQkq - 0 2".
Definition fenD4 : string :=
  "rnbqkbnr/pppppppp/8/8/3P4/8/PPP1PPPP/RNBQKBNR b KQkq - 0 1".
Definition fenC4 : string :=
  "rnbqkbnr/pppppppp/8/8/2P5/8/PP1PPPPP/RNBQKBNR b KQkq - 0 1".
Definition fenNf3 : string :=
  "rnbqkbnr/pppppppp/8/8/8/5N2/PPPPPPPP/RNBQKB1R b KQkq - 1 1".

Definition transitions : list TableEntry :=
  [ {| e_before := startFen; e_san := "e4"; e_move := plainMove "e2" "e4" White;
       e_after := fenE4 |};
    {| e_before := fenE4; e_san := "e5"; e_move := plainMove "e7" "e5" Black;
       e_after := fenE4E5 |};
    {| e_before := startFen; e_san := "d4"; e_move := plainMove "d2" "d4" White;
       e_after := fenD4 |};
    {| e_before := startFen; e_san := "c4"; e_move := plainMove "c2" "c4" White;
       e_after := fenC4 |};
    {| e_before := startFen; e_san := "Nf3"; e_move := plainMove "g1" "f3" White;
       e_after := fenNf3 |} ].

(** alice (White) beats bob (Black): 1. e4 e5 1-0 *)
Definition pgnAliceBob : string :=
  tag "White" "alice" +:+ tag "Black" "bob" +:+ tag "Result" "1-0"
  +:+ newline +:+ "1. e4 e5 1-0".

(** bob against carol, unfinished: 1. e4 e5 * *)
Definition pgnBobCarol : string :=
  tag "White" "bob" +:+ tag "Black" "carol" +:+ tag "Result" "*"
  +:+ newline +:+ "1. e4 e5 *".

Definition records : list (string * TableState) :=
  [ (pgnAliceBob,
     {| position := fenE4E5;
        headers := [("White", "alice"); ("Black", "bob"); ("Result", "1-0")];
        history := ["e4"; "e5"] |});
    (pgnBobCarol,
     {| position := fenE4E5;
        headers := [("White", "bob"); ("Black", "carol"); ("Result", "*")];
        history := ["e4"; "e5"] |}) ].

Definition engine : RulesEngine := tableEngine startFen transitions records.
End Table.

(** *** An engine whose identifiers leave out the move clocks

    The granularity in which a game can come back to a position it has
    already visited: after 1. Nf3 Nf6 2. Ng1 Ng8 the board, the side to move
    and the castling rights are those of the start. *)

Module Clockless.
Definition start : string := "rnbqkbnr/pppppppp/8/8/8/8/PPPPPPPP/RNBQKBNR w KQkq -".
Definition afterNf3 : string := "rnbqkbnr/pppppppp/8/8/8/5N2/PPPPPPPP/RNBQKB1R b KQkq -".
Definition afterNf6 : string := "rnbqkb1r/pppppppp/5n2/8/8/5N2/PPPPPPPP/RNBQKB1R w KQkq -".
Definition afterNg1 : string := "rnbqkb1r/pppppppp/5n2/8/8/8/PPPPPPPP/RNBQKBNR b KQkq -".
Definition afterE4 : string := "rnbqkbnr/pppppppp/8/8/4P3/8/PPPP1PPP/RNBQKBNR b KQkq -".

Definition transitions : list TableEntry :=
  [ {| e_before := start; e_san := "Nf3"; e_move := plainMove "g1" "f3" White;
       e_after := afterNf3 |};
    {| e_before := afterNf3; e_san := "Nf6"; e_move := plainMove "g8" "f6" Black;
       e_after := afterNf6 |};
    {| e_before := afterNf6; e_san := "Ng1"; e_move := plainMove "f3" "g1" White;
       e_after := afterNg1 |};
    {| e_before := afterNg1; e_san := "Ng8"; e_move := plainMove "f6" "g8" Black;
       e_after := start |};
    {| e_before := start; e_san := "e4"; e_move := plainMove "e2" "e4" White;
       e_after := afterE4 |} ].

(** alice (White) beats bob: 1. Nf3 Nf6 2. Ng1 Ng8 3. e4 1-0 *)
Definition pgnShuffle : string :=
  tag "White" "alice" +:+ tag "Black" "bob" +:+ tag "Result" "1-0"
  +:+ newline +:+ "1. Nf3 Nf6 2. Ng1 Ng8 3. e4 1-0".

Definition records : list (string * TableState) :=
  [ (pgnShuffle,
     {| position := afterE4;
        headers := [("White", "alice"); ("Black", "bob"); ("Result", "1-0")];
        history := ["Nf3"; "Nf6"; "Ng1"; "Ng8"; "e4"] |}) ].

Definition engine : RulesEngine := tableEngine start transitions records.
End Clockless.

(** A record in the format of the first version of the index: [t], [m],
    [to] and [fr] only. *)
Definition firstFormatRecord : SerializedBucket :=
  {| s_t := 3; s_m := [("e2e4", 2); ("d2d4", 1)];
     s_to := [("e4", 2); ("d4", 1)]; s_fr := [("e2", 2); ("d2", 1)];
     s_r := None;
     s_ut := None; s_um := None; s_uto := None;
     s_ot := None; s_om := None; s_oto := None;
     s_uwt := None; s_uwm := None; s_uwto := None;
     s_ubt := None; s_ubm := None; s_ubto := None;
     s_owt := None; s_owm := None; s_owto := None;
     s_obt := None; s_obm := None; s_obto := None |}.

(** ** Further predicates on buckets and operation sequences *)

(** Each role and role-and-colour group agrees with its own two count maps. *)
Definition roleMarginalsAgree (b : PositionBucket) : Prop :=
  (userTotal b = sum_values (userMoveCounts b)
   ∧ userTotal b = sum_values (userToSquareCounts b))
  ∧ (oppTotal b = sum_values (oppMoveCounts b)
     ∧ oppTotal b = sum_values (oppToSquareCounts b))
  ∧ (userWhiteTotal b = sum_values (userWhiteMoveCounts b)
     ∧ userWhiteTotal b = sum_values (userWhiteToSquareCounts b))
  ∧ (userBlackTotal b = sum_values (userBlackMoveCounts b)
     ∧ userBlackTotal b = sum_values (userBlackToSquareCounts b))
  ∧ (oppWhiteTotal b = sum_values (oppWhiteMoveCounts b)
     ∧ oppWhiteTotal b = sum_values (oppWhiteToSquareCounts b))
  ∧ (oppBlackTotal b = sum_values (oppBlackMoveCounts b)
     ∧ oppBlackTotal b = sum_values (oppBlackToSquareCounts b)).

(** [m.get(k) ?? 0] *)
Definition countOf (k : string) (m : list (string * Z)) : Z :=
  default 0 (map_get k m).

(** The role counts of one key against its global count, and the colour
    counts against the role counts. *)
Definition keySplit (gm um om uwm ubm owm obm : list (string * Z)) (k : string) : Prop :=
  countOf k um + countOf k om <= countOf k gm
  ∧ countOf k uwm + countOf k ubm = countOf k um
  ∧ countOf k owm + countOf k obm = countOf k om.

Definition keysSplit (b : PositionBucket) : Prop :=
  ∀ k,
    keySplit (moveCounts b) (userMoveCounts b) (oppMoveCounts b)
             (userWhiteMoveCounts b) (userBlackMoveCounts b)
             (oppWhiteMoveCounts b) (oppBlackMoveCounts b) k
    ∧ keySplit (toSquareCounts b) (userToSquareCounts b) (oppToSquareCounts b)
               (userWhiteToSquareCounts b) (userBlackToSquareCounts b)
               (oppWhiteToSquareCounts b) (oppBlackToSquareCounts b) k.

Definition keysExhaust (b : PositionBucket) : Prop :=
  ∀ k,
    countOf k (userMoveCounts b) + countOf k (oppMoveCounts b) = countOf k (moveCounts b)
    ∧ countOf k (userToSquareCounts b) + countOf k (oppToSquareCounts b)
      = countOf k (toSquareCounts b).

(** Every count stored in the map is at least 1. *)
Definition countsPositive (m : list (string * Z)) : Prop :=
  Forall (fun kv => 1 <= kv.2) m.

Definition allCountsPositive (b : PositionBucket) : Prop :=
  countsPositive (moveCounts b) ∧ countsPositive (toSquareCounts b)
  ∧ countsPositive (fromSquareCounts b)
  ∧ countsPositive (userMoveCounts b) ∧ countsPositive (userToSquareCounts b)
  ∧ countsPositive (oppMoveCounts b) ∧ countsPositive (oppToSquareCounts b)
  ∧ countsPositive (userWhiteMoveCounts b) ∧ countsPositive (userWhiteToSquareCounts b)
  ∧ countsPositive (userBlackMoveCounts b) ∧ countsPositive (userBlackToSquareCounts b)
  ∧ countsPositive (oppWhiteMoveCounts b) ∧ countsPositive (oppWhiteToSquareCounts b)
  ∧ countsPositive (oppBlackMoveCounts b) ∧ countsPositive (oppBlackToSquareCounts b).

Definition countersNonNegative (b : PositionBucket) : Prop :=
  0 <= userTotal b ∧ 0 <= oppTotal b
  ∧ 0 <= userWhiteTotal b ∧ 0 <= userBlackTotal b
  ∧ 0 <= oppWhiteTotal b ∧ 0 <= oppBlackTotal b
  ∧ 0 <= win (results b) ∧ 0 <= loss (results b) ∧ 0 <= draw (results b).

(** The bucket at a position, the all-zero bucket when there is none. *)
Definition bucketAt (idx : MoveIndex) (fen : string) : PositionBucket :=
  default newBucket (getBucket idx fen).

(** The part of a bucket that only [ingestGamePgn] writes. *)
Record RolePart := {
  rp_results : Results;
  rp_user : Z * list (string * Z) * list (string * Z);
  rp_opp : Z * list (string * Z) * list (string * Z);
  rp_userWhite : Z * list (string * Z) * list (string * Z);
  rp_userBlack : Z * list (string * Z) * list (string * Z);
  rp_oppWhite : Z * list (string * Z) * list (string * Z);
  rp_oppBlack : Z * list (string * Z) * list (string * Z)
}.

Definition rolePart (b : PositionBucket) : RolePart :=
  {| rp_results := results b;
     rp_user := (userTotal b, userMoveCounts b, userToSquareCounts b);
     rp_opp := (oppTotal b, oppMoveCounts b, oppToSquareCounts b);
     rp_userWhite := (userWhiteTotal b, userWhiteMoveCounts b, userWhiteToSquareCounts b);
     rp_userBlack := (userBlackTotal b, userBlackMoveCounts b, userBlackToSquareCounts b);
     rp_oppWhite := (oppWhiteTotal b, oppWhiteMoveCounts b, oppWhiteToSquareCounts b);
     rp_oppBlack := (oppBlackTotal b, oppBlackMoveCounts b, oppBlackToSquareCounts b) |}.

Section Tallies.
Context {E : RulesEngine}.

(** [ingestGamePgn] reaches its replay loop: the record parses and the call
    does not return at the identity check. *)
Definition replayed (username pgn : string) : bool :=
  match chess_loadPgn newChess pgn with
  | None => false
  | Some _ =>
      negb (decisive (resultTagOf pgn)
            && negb (matchesWhite username pgn) && negb (matchesBlack username pgn))
  end.

(** The positions at which an operation records a move. *)
Definition recordedPositions (op : Op) : list string :=
  match op with
  | IngestUciMoves uciMoves => uciPositions newChess uciMoves
  | IngestSanMoves sanMoves => sanPositions newChess sanMoves
  | IngestGamePgn username pgn =>
      if replayed username pgn then visitedPositions pgn else []
  | Clear => []
  end.

(** How many moves the operations have recorded at [fen] since the last
    [clear]. *)
Definition moveTally (ops : list Op) (fen : string) : Z :=
  foldl (fun acc op =>
           match op with
           | Clear => 0
           | _ => acc + occurrences fen (recordedPositions op)
           end) 0 ops.

(** How many games with outcome [o] for the tracked identity have visited
    [fen] since the last [clear]. *)
Definition outcomeTally (o : Outcome) (ops : list Op) (fen : string) : Z :=
  foldl (fun acc op =>
           match op with
           | Clear => 0
           | IngestGamePgn username pgn =>
               acc + (if decide (gameOutcome username pgn = Some o
                                 ∧ fen ∈ visitedPositions pgn)
                      then 1 else 0)
           | _ => acc
           end) 0 ops.

(** [chess.history()] of a game record, empty when it does not parse. *)
Definition historyOf (pgn : string) : list string :=
  match chess_loadPgn newChess pgn with
  | None => []
  | Some chess => chess_history chess
  end.

(** The number of leading moves of a SAN list that the engine accepts. *)
Definition acceptedLength (chess : Chess) (sanMoves : list string) : nat :=
  List.length (sanPlies chess sanMoves).
End Tallies.

(** ** The first version of the index (src/lib/indexer.ts)

    Buckets with the four global fields only; no identity, no outcome. *)

Module V1.
Record PositionBucket := {
  total : Z;
  moveCounts : list (string * Z);
  toSquareCounts : list (string * Z);
  fromSquareCounts : list (string * Z)
}.

Definition MoveIndex : Type := list (string * PositionBucket).

Definition newBucket : PositionBucket :=
  {| total := 0; moveCounts := []; toSquareCounts := []; fromSquareCounts := [] |}.

Definition recordMove (p : MoveParams) (b : PositionBucket) : PositionBucket :=
  let key := moveKey p in
  {| total := total b + 1;
     moveCounts := incr key (moveCounts b);
     toSquareCounts := incr (to p) (toSquareCounts b);
     fromSquareCounts := incr (from p) (fromSquareCounts b) |}.

Definition addMove (fen : string) (p : MoveParams) (idx : MoveIndex) : MoveIndex :=
  let bucket := match map_get fen idx with Some b => b | None => newBucket end in
  map_set fen (recordMove p bucket) idx.

Definition getBucket (idx : MoveIndex) (fen : string) : option PositionBucket :=
  map_get fen idx.

Definition getTopMoves (idx : MoveIndex) (fen : string) (limit : Z) : list TopMove :=
  match map_get fen idx with
  | None => []
  | Some bucket =>
      toTopMove <$> array_slice0 limit (sortByCount (map_entries (moveCounts bucket)))
  end.

Record SerializedBucket := {
  t : Z;
  m : list (string * Z);
  to : list (string * Z);
  fr : list (string * Z)
}.

Definition SerializedIndex : Type := list (string * SerializedBucket).

Definition serializeBucket (b : PositionBucket) : SerializedBucket :=
  {| t := total b;
     m := map_entries (moveCounts b);
     to := map_entries (toSquareCounts b);
     fr := map_entries (fromSquareCounts b) |}.

Definition serialize (idx : MoveIndex) : SerializedIndex :=
  foldl (fun out fb => map_set fb.1 (serializeBucket fb.2) out) [] idx.

Definition deserializeBucket (s : SerializedBucket) : PositionBucket :=
  {| total := t s;
     moveCounts := Map_of (m s);
     toSquareCounts := Map_of (to s);
     fromSquareCounts := Map_of (fr s) |}.

Fixpoint fromSerializedLoop (data : SerializedIndex) (keys : list string)
    (idx : MoveIndex) : option MoveIndex :=
  match keys with
  | [] => Some idx
  | fen :: rest =>
      match map_get fen data with
      | None => None
      | Some s => fromSerializedLoop data rest (map_set fen (deserializeBucket s) idx)
      end
  end.

Definition fromSerialized (data : SerializedIndex) : option MoveIndex :=
  fromSerializedLoop data (Object_keys data) [].

Section Ingestion.
Context {E : RulesEngine}.

Fixpoint uciLoop (chess : Chess) (uciMoves : list string) (idx : MoveIndex) : MoveIndex :=
  match uciMoves with
  | [] => idx
  | uci :: rest =>
      let fenBefore := chess_fen chess in
      let p := uciParams uci in
      let idx := addMove fenBefore p idx in
      match chess_move chess p with
      | None => idx
      | Some (chess', _) => uciLoop chess' rest idx
      end
  end.

Definition ingestUciMoves (uciMoves : list string) (idx : MoveIndex) : MoveIndex :=
  uciLoop newChess uciMoves idx.

Fixpoint sanLoop (chess : Chess) (sanMoves : list string) (idx : MoveIndex) : MoveIndex :=
  match sanMoves with
  | [] => idx
  | san :: rest =>
      let fenBefore := chess_fen chess in
      match chess_moveSan chess san with
      | None => idx
      | Some (chess', move) => sanLoop chess' rest (addMove fenBefore (moveParams move) idx)
      end
  end.

Definition ingestSanMoves (sanMoves : list string) (idx : MoveIndex) : MoveIndex :=
  sanLoop newChess sanMoves idx.
End Ingestion.
End V1.

(** The four global fields of a bucket, as a bucket of the first version. *)
Definition globalPart (b : PositionBucket) : V1.PositionBucket :=
  {| V1.total := total b;
     V1.moveCounts := moveCounts b;
     V1.toSquareCounts := toSquareCounts b;
     V1.fromSquareCounts := fromSquareCounts b |}.

Definition globalIndex (idx : MoveIndex) : V1.MoveIndex :=
  (fun fb => (fb.1, globalPart fb.2)) <$> idx.

(** A record written by the first version, as [fromSerialized] of the
    current version finds it: the same object, without the later fields. *)
Definition asCurrentRecord (s : V1.SerializedBucket) : SerializedBucket :=
  {| s_t := V1.t s; s_m := V1.m s; s_to := V1.to s; s_fr := V1.fr s;
     s_r := None;
     s_ut := None; s_um := None; s_uto := None;
     s_ot := None; s_om := None; s_oto := None;
     s_uwt := None; s_uwm := None; s_uwto := None;
     s_ubt := None; s_ubm := None; s_ubto := None;
     s_owt := None; s_owm := None; s_owto := None;
     s_obt := None; s_obm := None; s_obto := None |}.

Definition asCurrentData (data : V1.SerializedIndex) : SerializedIndex :=
  (fun fs => (fs.1, asCurrentRecord fs.2)) <$> data.

(** A stored record with every field, three results and entry lists
    without repeated keys: what [serialize] writes. *)
Definition completeRecord (s : SerializedBucket) : Prop :=
  (∃ w l d, s_r s = Some [w; l; d])
  ∧ isMap (s_m s) ∧ isMap (s_to s) ∧ isMap (s_fr s)
  ∧ (∃ n, s_ut s = Some n) ∧ (∃ e, s_um s = Some e ∧ isMap e)
  ∧ (∃ e, s_uto s = Some e ∧ isMap e)
  ∧ (∃ n, s_ot s = Some n) ∧ (∃ e, s_om s = Some e ∧ isMap e)
  ∧ (∃ e, s_oto s = Some e ∧ isMap e)
  ∧ (∃ n, s_uwt s = Some n) ∧ (∃ e, s_uwm s = Some e ∧ isMap e)
  ∧ (∃ e, s_uwto s = Some e ∧ isMap e)
  ∧ (∃ n, s_ubt s = Some n) ∧ (∃ e, s_ubm s = Some e ∧ isMap e)
  ∧ (∃ e, s_ubto s = Some e ∧ isMap e)
  ∧ (∃ n, s_owt s = Some n) ∧ (∃ e, s_owm s = Some e ∧ isMap e)
  ∧ (∃ e, s_owto s = Some e ∧ isMap e)
  ∧ (∃ n, s_obt s = Some n) ∧ (∃ e, s_obm s = Some e ∧ isMap e)
  ∧ (∃ e, s_obto s = Some e ∧ isMap e).

(** An index value of the first version. *)
Definition isIndexV1 (idx : V1.MoveIndex) : Prop :=
  isMap idx
  ∧ Forall (fun fb => isMap (V1.moveCounts fb.2) ∧ isMap (V1.toSquareCounts fb.2)
                      ∧ isMap (V1.fromSquareCounts fb.2)) idx.

(** ** The lichess client (src/lib/lichess.ts) *)

(** [s.split(sep)] for a separator of one code unit. *)
Fixpoint splitOn (sep : ascii) (s : string) : list string :=
  match s with
  | EmptyString => [EmptyString]
  | String c s' =>
      if Ascii.eqb c sep then EmptyString :: splitOn sep s'
      else match splitOn sep s' with
           | [] => [String c EmptyString]
           | h :: t => String c h :: t
           end
  end.

(** [parts.join(sep)] *)
Fixpoint joinWith (sep : string) (parts : list string) : string :=
  match parts with
  | [] => EmptyString
  | [x] => x
  | x :: rest => x +:+ sep +:+ joinWith sep rest
  end.

(** [Boolean(s)] on a string. *)
Definition truthy (s : string) : bool := negb (String.eqb s EmptyString).

Definition lineFeed : ascii := ascii_of_nat 10.

Definition parseNdjson (text : string) : list string :=
  List.filter truthy (trim <$> splitOn lineFeed text).

(** Whether a code unit occurs in a string. *)
Fixpoint occursIn (c : ascii) (s : string) : bool :=
  match s with
  | EmptyString => false
  | String d s' => Ascii.eqb d c || occursIn c s'
  end.

(** A line as [parseNdjson] returns it: not empty, without white space at
    either end, without a line feed. *)
Definition cleanLine (l : string) : Prop :=
  l ≠ EmptyString ∧ trim l = l ∧ occursIn lineFeed l = false.

(** A history as [addUserToHistory] and [removeUserFromHistory] keep it: no
    two names equal up to letter case, at most 20 names, each of them not
    empty and without white space at either end. *)
Definition distinctNames (l : list string) : Prop := NoDup (toLowerCase <$> l).

Definition keptHistory (h : list string) : Prop :=
  distinctNames h ∧ (List.length h ≤ 20)%nat
  ∧ Forall (fun x => x ≠ EmptyString ∧ trim x = x) h.

(** *** The history of user names

    What the storage slot ['lichess:userHistory'] holds, as [getItem] and
    [JSON.parse] present it. *)

Inductive JsonItem :=
| JString (s : string)
| JNotString.

Inductive HistorySlot :=
| HistoryAbsent                       (* no item, or the empty text *)
| HistoryUnparsed                     (* a text that JSON.parse rejects *)
| HistoryArray (items : list JsonItem) (* a JSON array *)
| HistoryNotArray.                    (* any other JSON value *)

Definition getUserHistory (slot : HistorySlot) : list string :=
  match slot with
  | HistoryArray items =>
      omap (fun i => match i with JString s => Some s | JNotString => None end) items
  | _ => []
  end.

(** [arr.findIndex(f)], [None] for -1. *)
Fixpoint findIndex (f : string → bool) (arr : list string) : option nat :=
  match arr with
  | [] => None
  | x :: rest => if f x then Some 0%nat else S <$> findIndex f rest
  end.

(** [x.toLowerCase() === u.toLowerCase()] *)
Definition sameName (u x : string) : bool :=
  String.eqb (toLowerCase x) (toLowerCase u).

(** [stored] tells whether [localStorage.setItem] accepts the write; when it
    throws, the [catch] leaves the slot as it was. *)
Definition addUserToHistory (stored : bool) (username : string)
    (slot : HistorySlot) : HistorySlot :=
  let u := trim username in
  if negb (truthy u) then slot
  else
    let current := getUserHistory slot in
    let current :=
      match findIndex (sameName u) current with
      | Some existingIndex => delete existingIndex current
      | None => current
      end in
    let current := u :: current in
    if stored then HistoryArray (JString <$> take 20 current) else slot.

Definition removeUserFromHistory (stored : bool) (username : string)
    (slot : HistorySlot) : HistorySlot :=
  let u := trim username in
  let current := getUserHistory slot in
  let next := List.filter (fun x => negb (sameName u x)) current in
  if stored then HistoryArray (JString <$> next) else slot.

(** At most one entry of the list has the name [u], up to letter case. *)
Definition atMostOneNamed (u : string) (h : list string) : Prop :=
  ∀ (i j : nat) x y,
    h !! i = Some x → h !! j = Some y →
    sameName u x = true → sameName u y = true → i = j.

Inductive HistoryOp :=
| AddUser (stored : bool) (username : string)
| RemoveUser (stored : bool) (username : string).

Definition applyHistoryOp (op : HistoryOp) (slot : HistorySlot) : HistorySlot :=
  match op with
  | AddUser stored username => addUserToHistory stored username slot
  | RemoveUser stored username => removeUserFromHistory stored username slot
  end.

Definition runHistory (ops : list HistoryOp) (slot : HistorySlot) : HistorySlot :=
  foldl (fun s op => applyHistoryOp op s) slot ops.

(** *** The cached index

    What the storage slot ['lichess:<user>:index'] holds. *)

Inductive IndexSlot :=
| IndexAbsent
| IndexUnparsed
| IndexObject (parsed : SerializedIndex).

(** Keys by non-decreasing array index, as [Object.keys] lists the
    array-index keys. *)
Fixpoint indexOrdered (l : list string) : Prop :=
  match l with
  | [] => True
  | k :: l' =>
      match l' with
      | [] => True
      | k' :: _ => (default 0 (arrayIndex k) <= default 0 (arrayIndex k'))%N
      end ∧ indexOrdered l'
  end.

(** [Object.values(o)] *)
Definition Object_values {V : Type} (o : list (string * V)) : list V :=
  omap (fun k => map_get k o) (Object_keys o).

(** [JSON.parse(JSON.stringify(data))]: the same records, the own keys
    created in the order in which [JSON.stringify] enumerates them. *)
Definition jsonCopy (data : SerializedIndex) : SerializedIndex :=
  omap (fun k => pair k <$> map_get k data) (Object_keys data).

Definition saveIndexToLocalStorage (stored : bool) (idx : MoveIndex)
    (slot : IndexSlot) : IndexSlot :=
  let data := serialize idx in
  if stored then IndexObject (jsonCopy data) else slot.

(** ['k' in firstBucket] for the field [k] of a record. *)
Definition present {A : Type} (field : option A) : bool :=
  match field with Some _ => true | None => false end.

Definition loadIndexFromLocalStorage (slot : IndexSlot) : option MoveIndex :=
  match slot with
  | IndexObject parsed =>
      let firstBucket := head (Object_values parsed) in
      let hasSideSplit :=
        match firstBucket with
        | Some b => present (s_ut b) && present (s_om b)
        | None => false
        end in
      let hasColorSplit :=
        match firstBucket with
        | Some b => present (s_uwt b) && present (s_obm b)
        | None => false
        end in
      if negb hasSideSplit || negb hasColorSplit then None
      else fromSerialized parsed
  | _ => None
  end.

(** *** Indexing the fetched games

    The loop of [fetchAndIndexUserGames] over the lines of the response.  A
    line is given by the [pgn] text of its JSON object, [None] when the line
    does not parse or its object has no [pgn]. *)

Section Fetch.
Context {E : RulesEngine}.

Fixpoint indexLines (username : string) (lines : list (option string))
    (index : MoveIndex) (totalGames : Z) : MoveIndex * Z :=
  match lines with
  | [] => (index, totalGames)
  | line :: rest =>
      match line with
      | Some pgn =>
          if truthy pgn
          then indexLines username rest (ingestGamePgn username pgn index) (totalGames + 1)
          else indexLines username rest index totalGames
      | None => indexLines username rest index totalGames
      end
  end.

Definition indexFetchedGames (username : string) (lines : list (option string))
    : MoveIndex * Z :=
  indexLines username lines emptyIndex 0.
End Fetch.

(** The game records that the loop of [fetchAndIndexUserGames] passes to
    [ingestGamePgn]: those of the lines that parse and have a [pgn]. *)
Definition fetchedGames (lines : list (option string)) : list string :=
  omap (fun line => line ≫= fun pgn => if truthy pgn then Some pgn else None) lines.

(** [noMatchesForPosition] of the board component. *)
Definition noMatchesForPosition (userMovesIndex : option MoveIndex) (fen : string) : bool :=
  match userMovesIndex with
  | None => false
  | Some idx =>
      match getBucket idx fen with
      | None => true
      | Some bucket => userTotal bucket + oppTotal bucket =? 0
      end
  end.

(** ** The older lichess client

    The client as it was before [ingestGamePgn]: every fetched game is
    reduced to its move list, which [ingestSanMoves] indexes. *)

Module OlderClient.
Section Fetch.
Context {E : RulesEngine}.

Definition pgnToSanMoves (pgn : string) : list string :=
  match chess_loadPgn newChess pgn with
  | None => []
  | Some chess => chess_history chess
  end.

Fixpoint indexLines (lines : list (option string)) (index : V1.MoveIndex)
    (totalGames : Z) : V1.MoveIndex * Z :=
  match lines with
  | [] => (index, totalGames)
  | line :: rest =>
      match line with
      | Some pgn =>
          if truthy pgn
          then indexLines rest (V1.ingestSanMoves (pgnToSanMoves pgn) index) (totalGames + 1)
          else indexLines rest index totalGames
      | None => indexLines rest index totalGames
      end
  end.

Definition indexFetchedGames (lines : list (option string)) : V1.MoveIndex * Z :=
  indexLines lines [] 0.
End Fetch.
End OlderClient.

(** ** The engine wrapper: [StockfishEngine.handleMessage]

    The numbers of an [info] line are read with [Number] and tested with
    [isFinite]; both are left abstract. *)

Module Stockfish.
Section Messages.
Variable num : Type.
Variable Number : option string → num.
Variable isFinite : num → bool.

(** [EvalUpdate]: [None] is an absent field for [depth], [seldepth],
    [nodes] and [nps], and [null] for [scoreCp], [mate] and [pv]. *)
Record EvalUpdate := {
  depth : option num;
  seldepth : option num;
  nodes : option num;
  nps : option num;
  scoreCp : option num;
  mate : option num;
  pv : option string
}.

Definition newUpdate : EvalUpdate :=
  {| depth := None; seldepth := None; nodes := None; nps := None;
     scoreCp := None; mate := None; pv := None |}.

(** [v === s] for a [v] that may be [undefined]. *)
Definition isToken (s : string) (v : option string) : bool :=
  match v with Some x => String.eqb x s | None => false end.

(** The loop over the parts of an [info] line, from the part at index [i]
    on: [parts] is [parts.slice(i)]. *)
Fixpoint infoLoop (parts : list string) (upd : EvalUpdate) : EvalUpdate :=
  match parts with
  | [] => upd
  | k :: rest =>
      let v := head rest in
      if String.eqb k "depth" then
        infoLoop rest
          {| depth := Some (Number v); seldepth := seldepth upd; nodes := nodes upd;
             nps := nps upd; scoreCp := scoreCp upd; mate := mate upd; pv := pv upd |}
      else if String.eqb k "seldepth" then
        infoLoop rest
          {| depth := depth upd; seldepth := Some (Number v); nodes := nodes upd;
             nps := nps upd; scoreCp := scoreCp upd; mate := mate upd; pv := pv upd |}
      else if String.eqb k "nodes" then
        infoLoop rest
          {| depth := depth upd; seldepth := seldepth upd; nodes := Some (Number v);
             nps := nps upd; scoreCp := scoreCp upd; mate := mate upd; pv := pv upd |}
      else if String.eqb k "nps" then
        infoLoop rest
          {| depth := depth upd; seldepth := seldepth upd; nodes := nodes upd;
             nps := Some (Number v); scoreCp := scoreCp upd; mate := mate upd;
             pv := pv upd |}
      else if String.eqb k "score" then
        let type := head rest in
        let val := Number (head (tail rest)) in
        if isToken "cp" type then
          infoLoop rest
            {| depth := depth upd; seldepth := seldepth upd; nodes := nodes upd;
               nps := nps upd;
               scoreCp := if isFinite val then Some val else None;
               mate := mate upd; pv := pv upd |}
        else if isToken "mate" type then
          infoLoop rest
            {| depth := depth upd; seldepth := seldepth upd; nodes := nodes upd;
               nps := nps upd; scoreCp := scoreCp upd;
               mate := if isFinite val then Some val else None;
               pv := pv upd |}
        else infoLoop rest upd
      else if String.eqb k "pv" then
        {| depth := depth upd; seldepth := seldepth upd; nodes := nodes upd;
           nps := nps upd; scoreCp := scoreCp upd; mate := mate upd;
           pv := Some (joinWith " " rest) |}
      else infoLoop rest upd
  end.

(** What [handleMessage] does with a line. *)
Inductive Reaction :=
| Configure (commands : list string)   (* [uciok]: the commands sent *)
| BecomeReady                          (* [readyok] *)
| Emit (upd : EvalUpdate)              (* [info]: the update emitted *)
| NoReaction.

Definition handleMessage (line : string) : Reaction :=
  if String.prefix "uciok" line then
    Configure ["setoption name Threads value 2"; "setoption name Hash value 64";
               "isready"]
  else if String.prefix "readyok" line then BecomeReady
  else if String.prefix "info " line then
    Emit (infoLoop (tail (splitOn " " line)) newUpdate)
  else NoReaction.
End Messages.

Arguments depth {num} _.
Arguments seldepth {num} _.
Arguments nodes {num} _.
Arguments nps {num} _.
Arguments scoreCp {num} _.
Arguments mate {num} _.
Arguments pv {num} _.
Arguments Configure {num} _.
Arguments BecomeReady {num}.
Arguments Emit {num} _.
Arguments NoReaction {num}.
End Stockfish.

(** A reading of decimal numerals, for running [handleMessage]. *)
Definition decimalNumber (v : option string) : option N :=
  v ≫= fun s => if String.eqb s EmptyString then None else parseDigits s 0%N.

Definition decimalFinite (n : option N) : bool :=
  match n with Some _ => true | None => false end.

(** ** Game records with capitalised and padded player names *)

Module Styled.
Definition pgnStyled : string :=
  tag "White" " Alice " +:+ tag "Black" "BOB" +:+ tag "Result" "1-0"
  +:+ newline +:+ "1. e4 e5 1-0".

Definition records : list (string * TableState) :=
  (pgnStyled,
   {| position := Table.fenE4E5;
      headers := [("White", " Alice "); ("Black", "BOB"); ("Result", "1-0")];
      history := ["e4"; "e5"] |}) :: Table.records.

Definition engine : RulesEngine :=
  tableEngine Table.startFen Table.transitions records.
End Styled.

(** * Properties *)

(** ** Ordered maps *)

Section OrderedMapFacts.
Context {V : Type}.
Implicit Types (k : string) (v : V) (m : list (string * V)).

Lemma map_get_set_eq k v m : map_get k (map_set k v m) = Some v.
Proof.
  induction m as [|[k' v'] m IH]; simpl.
  - by rewrite String.eqb_refl.
  - destruct (String.eqb_spec k k') as [->|Hne]; simpl.
    + by rewrite String.eqb_refl.
    + by apply String.eqb_neq in Hne as ->.
Qed.

Lemma map_get_set_ne k k' v m : k ≠ k' → map_get k' (map_set k v m) = map_get k' m.
Proof.
  intros Hne. induction m as [|[k0 v0] m IH]; simpl.
  - destruct (String.eqb_spec k' k); congruence.
  - destruct (String.eqb_spec k k0) as [->|Hk]; simpl.
    + destruct (String.eqb_spec k' k0); congruence.
    + by rewrite IH.
Qed.

Lemma map_get_None k m : map_get k m = None ↔ k ∉ m.*1.
Proof.
  induction m as [|[k' v'] m IH]; simpl.
  - split; [intros _; apply not_elem_of_nil | done].
  - rewrite not_elem_of_cons. destruct (String.eqb_spec k k') as [->|Hne]; [|tauto].
    split; [done|]. intros [Hk _]. by destruct Hk.
Qed.

Lemma map_get_Some_elem k v m : map_get k m = Some v → (k, v) ∈ m.
Proof.
  induction m as [|[k' v'] m IH]; simpl; [done|].
  destruct (String.eqb_spec k k') as [->|Hne].
  - intros [= ->]. apply list_elem_of_here.
  - intros H. apply list_elem_of_further. auto.
Qed.

Lemma map_get_is_Some k m : is_Some (map_get k m) ↔ k ∈ m.*1.
Proof.
  destruct (map_get k m) eqn:Hg.
  - split; [intros _|eauto]. apply map_get_Some_elem in Hg.
    apply list_elem_of_fmap. by exists (k, v).
  - split; [by intros [? ?]|]. intros Hin. by apply map_get_None in Hg.
Qed.

(** A fresh key goes last. *)
Lemma map_set_fresh k v m : map_get k m = None → map_set k v m = m ++ [(k, v)].
Proof.
  induction m as [|[k' v'] m IH]; simpl; [done|].
  destruct (String.eqb_spec k k'); [done|]. intros H. by rewrite IH.
Qed.

Lemma map_set_last k v v' m :
  map_get k m = None → map_set k v' (m ++ [(k, v)]) = m ++ [(k, v')].
Proof.
  induction m as [|[k0 v0] m IH]; simpl.
  - by rewrite String.eqb_refl.
  - destruct (String.eqb k k0); [done|]. intros H. by rewrite IH.
Qed.

(** An existing key keeps its place. *)
Lemma map_set_keys_present k v m : is_Some (map_get k m) → (map_set k v m).*1 = m.*1.
Proof.
  induction m as [|[k' v'] m IH]; simpl; [by intros [? ?]|].
  destruct (String.eqb_spec k k') as [->|Hne]; simpl; [done|].
  intros H. f_equal. by apply IH.
Qed.

Lemma map_set_keys k v m :
  (map_set k v m).*1 = if map_get k m is Some _ then m.*1 else m.*1 ++ [k].
Proof.
  destruct (map_get k m) eqn:Hg.
  - apply map_set_keys_present; eauto.
  - rewrite map_set_fresh by done. by rewrite fmap_app.
Qed.

Lemma isMap_set k v m : isMap m → isMap (map_set k v m).
Proof.
  unfold isMap. rewrite map_set_keys. destruct (map_get k m) eqn:Hg; [done|].
  intros Hnd. apply NoDup_app. split_and!; [done| |apply NoDup_singleton].
  intros x Hx ->%list_elem_of_singleton. by apply map_get_None in Hg.
Qed.

Lemma map_set_length k v m :
  List.length (map_set k v m) =
  if map_get k m is Some _ then List.length m else S (List.length m).
Proof.
  rewrite <- !(length_fmap fst), map_set_keys.
  destruct (map_get k m); [done|]. rewrite length_app. simpl. lia.
Qed.

(** [new Map(entries)] appends entries with fresh keys in order. *)
Lemma Map_of_app_fresh (acc l : list (string * V)) :
  NoDup (acc ++ l).*1 →
  foldl (fun a kv => map_set kv.1 kv.2 a) acc l = acc ++ l.
Proof.
  revert acc. induction l as [|[k v] l IH]; intros acc Hnd; simpl.
  - by rewrite app_nil_r.
  - rewrite map_set_fresh.
    + rewrite IH; rewrite <- app_assoc; done.
    + apply map_get_None. rewrite fmap_app in Hnd.
      apply NoDup_app in Hnd as (_ & Hdisj & _).
      intros Hin. apply (Hdisj k Hin). simpl. apply list_elem_of_here.
Qed.

(** [new Map(Array.from(m.entries()))] is [m]. *)
Lemma Map_of_entries m : isMap m → Map_of (map_entries m) = m.
Proof. intros Hm. unfold Map_of, map_entries. by rewrite Map_of_app_fresh. Qed.

Lemma isMap_Map_of (l : list (string * V)) : isMap (Map_of l).
Proof.
  unfold Map_of. assert (isMap (V:=V) []) as H by apply NoDup_nil_2.
  revert H. generalize (@nil (string * V)).
  induction l as [|[k v] l IH]; intros acc Hacc; simpl; [done|].
  apply IH. by apply isMap_set.
Qed.
End OrderedMapFacts.

Lemma sum_values_set k v (m : list (string * Z)) :
  sum_values (map_set k v m) = sum_values m - default 0 (map_get k m) + v.
Proof.
  induction m as [|[k' v'] m IH]; simpl; [lia|].
  destruct (String.eqb_spec k k'); simpl; lia.
Qed.

Lemma sum_values_incr k (m : list (string * Z)) :
  sum_values (incr k m) = sum_values m + 1.
Proof. unfold incr. rewrite sum_values_set. lia. Qed.

Lemma isMap_incr k (m : list (string * Z)) : isMap m → isMap (incr k m).
Proof. apply isMap_set. Qed.

(** ** What one call does to a bucket *)

Lemma newBucket_marginals : marginalsAgree newBucket.
Proof. by repeat split. Qed.

Lemma recordMove_marginals p byUser color b :
  marginalsAgree b → marginalsAgree (recordMove p byUser color b).
Proof.
  unfold marginalsAgree. intros (Hm & Ht & Hf).
  destruct byUser as [[]|], color as [[]|]; simpl;
    rewrite !sum_values_incr; lia.
Qed.

Lemma recordResult_marginals o b : marginalsAgree b → marginalsAgree (recordResult o b).
Proof. by destruct o. Qed.

Lemma recordMove_bare_roles p b :
  rolesBounded b ∧ colorsPartition b →
  rolesBounded (recordMove p None None b) ∧ colorsPartition (recordMove p None None b).
Proof. unfold rolesBounded, colorsPartition. simpl. lia. Qed.

Lemma recordMove_role_roles p byUser color b :
  rolesBounded b ∧ colorsPartition b →
  rolesBounded (recordMove p (Some byUser) (Some color) b)
  ∧ colorsPartition (recordMove p (Some byUser) (Some color) b).
Proof. unfold rolesBounded, colorsPartition. destruct byUser, color; simpl; lia. Qed.

Lemma recordMove_role_exhaust p byUser color b :
  rolesExhaust b → rolesExhaust (recordMove p (Some byUser) (Some color) b).
Proof. unfold rolesExhaust. destruct byUser, color; simpl; lia. Qed.

Lemma recordResult_counters o b :
  total (recordResult o b) = total b
  ∧ userTotal (recordResult o b) = userTotal b
  ∧ oppTotal (recordResult o b) = oppTotal b
  ∧ userWhiteTotal (recordResult o b) = userWhiteTotal b
  ∧ userBlackTotal (recordResult o b) = userBlackTotal b
  ∧ oppWhiteTotal (recordResult o b) = oppWhiteTotal b
  ∧ oppBlackTotal (recordResult o b) = oppBlackTotal b.
Proof. by destruct o. Qed.

Lemma recordMove_results p byUser color b :
  results (recordMove p byUser color b) = results b.
Proof. by destruct byUser as [[]|], color as [[]|]. Qed.

Lemma recordMove_maps p byUser color b :
  bucketMaps b → bucketMaps (recordMove p byUser color b).
Proof.
  unfold bucketMaps. intros H. destruct_and! H.
  destruct byUser as [[]|], color as [[]|]; simpl;
    split_and!; try done; by apply isMap_incr.
Qed.

Lemma recordResult_maps o b : bucketMaps b → bucketMaps (recordResult o b).
Proof. by destruct o. Qed.

Lemma newBucket_maps : bucketMaps newBucket.
Proof. unfold bucketMaps; simpl. split_and!; apply NoDup_nil_2. Qed.

(** ** Buckets of the index under [addMove] and [addResult] *)

Lemma getBucket_addMove_eq fen p byUser color idx :
  getBucket (addMove fen p byUser color idx) fen
  = Some (recordMove p byUser color (default newBucket (getBucket idx fen))).
Proof.
  unfold getBucket, addMove. rewrite map_get_set_eq.
  by destruct (map_get fen idx).
Qed.

Lemma getBucket_addMove_ne fen fen' p byUser color idx :
  fen ≠ fen' →
  getBucket (addMove fen p byUser color idx) fen' = getBucket idx fen'.
Proof. intros. unfold getBucket, addMove. by rewrite map_get_set_ne. Qed.

Lemma getBucket_addResult_eq fen o idx :
  getBucket (addResult fen o idx) fen
  = Some (recordResult o (default newBucket (getBucket idx fen))).
Proof.
  unfold getBucket, addResult. rewrite map_get_set_eq.
  by destruct (map_get fen idx).
Qed.

Lemma getBucket_addResult_ne fen fen' o idx :
  fen ≠ fen' → getBucket (addResult fen o idx) fen' = getBucket idx fen'.
Proof. intros. unfold getBucket, addResult. by rewrite map_get_set_ne. Qed.

(** ** Lifting a bucket invariant through the ingestion loops *)

Section IndexInvariant.
Context {E : RulesEngine}.
Variable Q : MoveIndex → Prop.
(** The positions at which a move without a role may be recorded. *)
Variable bare : string → Prop.
Hypothesis Q_empty : Q emptyIndex.
Hypothesis Q_bare :
  ∀ fen p idx, bare fen → Q idx → Q (addMove fen p None None idx).
Hypothesis Q_role :
  ∀ fen p byUser color idx,
    Q idx → Q (addMove fen p (Some byUser) (Some color) idx).
Hypothesis Q_result : ∀ fen o idx, Q idx → Q (addResult fen o idx).

Lemma uciLoop_inv chess uciMoves idx :
  Forall bare (uciPositions chess uciMoves) →
  Q idx → Q (uciLoop chess uciMoves idx).
Proof.
  revert chess idx. induction uciMoves as [|uci rest IH]; intros chess idx; simpl; [done|].
  intros Hbare Hidx. apply Forall_cons in Hbare as [Hhere Hrest].
  destruct (chess_move chess (uciParams uci)) as [[chess' m]|].
  - apply IH; [done|]. by apply Q_bare.
  - by apply Q_bare.
Qed.

Lemma sanLoop_inv chess sanMoves idx :
  Forall bare (sanPositions chess sanMoves) →
  Q idx → Q (sanLoop chess sanMoves idx).
Proof.
  revert chess idx. induction sanMoves as [|san rest IH]; intros chess idx; simpl; [done|].
  destruct (chess_moveSan chess san) as [[chess' m]|]; [|done].
  intros [Hhere Hrest]%Forall_cons Hidx.
  apply IH; [done|]. by apply Q_bare.
Qed.

Lemma pgnLoop_inv userLower whiteName blackName outcome walker moves seen idx :
  Q idx →
  Q (pgnLoop userLower whiteName blackName outcome walker moves seen idx).
Proof.
  revert walker seen idx.
  induction moves as [|san rest IH]; intros walker seen idx Hidx; simpl; [done|].
  destruct (chess_moveSan walker san) as [[walker' m]|]; [|done].
  destruct outcome as [o|]; [case_bool_decide|]; apply IH;
    try apply Q_result; by apply Q_role.
Qed.

Lemma ingestGamePgn_inv username pgn idx :
  Q idx → Q (ingestGamePgn username pgn idx).
Proof.
  intros Hidx. unfold ingestGamePgn.
  destruct (chess_loadPgn newChess pgn) as [chess|]; [|done].
  repeat case_match; try done; by apply pgnLoop_inv.
Qed.

Lemma applyOp_inv op idx :
  Forall bare (barePositions op) → Q idx → Q (applyOp op idx).
Proof.
  destruct op as [uciMoves|sanMoves|username pgn|]; simpl; intros Hbare Hidx.
  - by apply uciLoop_inv.
  - by apply sanLoop_inv.
  - by apply ingestGamePgn_inv.
  - done.
Qed.

Lemma runOps_inv ops :
  (∀ op, op ∈ ops → Forall bare (barePositions op)) → Q (runOps ops).
Proof.
  unfold runOps. induction ops as [|op ops IH] using rev_ind; intros Hbare; [done|].
  rewrite foldl_app. simpl. apply applyOp_inv.
  - apply Hbare, elem_of_app. right. apply list_elem_of_here.
  - apply IH. intros op' Hin. apply Hbare, elem_of_app. by left.
Qed.
End IndexInvariant.

Section BucketInvariant.
Context {E : RulesEngine}.
Variable P : string → PositionBucket → Prop.
Variable bare : string → Prop.
Hypothesis P_new : ∀ fen, P fen newBucket.
Hypothesis P_bare :
  ∀ fen p b, bare fen → P fen b → P fen (recordMove p None None b).
Hypothesis P_role :
  ∀ fen p byUser color b,
    P fen b → P fen (recordMove p (Some byUser) (Some color) b).
Hypothesis P_result : ∀ fen o b, P fen b → P fen (recordResult o b).

Lemma allBuckets_set fen b idx :
  P fen b → allBuckets P idx → allBuckets P (map_set fen b idx).
Proof.
  intros Hb Hidx fen' b'. unfold getBucket.
  destruct (decide (fen = fen')) as [<-|Hne].
  - rewrite map_get_set_eq. by intros [= <-].
  - rewrite map_get_set_ne by done. apply Hidx.
Qed.

Lemma allBuckets_default fen idx :
  allBuckets P idx → P fen (default newBucket (getBucket idx fen)).
Proof.
  intros Hidx. destruct (getBucket idx fen) eqn:Hg; simpl; [by apply Hidx|done].
Qed.

Lemma runOps_buckets ops :
  (∀ op, op ∈ ops → Forall bare (barePositions op)) →
  allBuckets P (runOps ops).
Proof.
  apply (runOps_inv (allBuckets P) bare).
  - by intros fen b.
  - intros fen p idx Hb Hidx. apply allBuckets_set; [|done].
    apply P_bare; [done|]. by apply (allBuckets_default fen) in Hidx.
  - intros fen p byUser color idx Hidx. apply allBuckets_set; [|done].
    apply P_role. by apply (allBuckets_default fen) in Hidx.
  - intros fen o idx Hidx. apply allBuckets_set; [|done].
    apply P_result. by apply (allBuckets_default fen) in Hidx.
Qed.
End BucketInvariant.

(** ** Marginal consistency and the role partition *)

(** C4.  After any sequence of [ingestUciMoves], [ingestSanMoves],
    [ingestGamePgn] and [clear] on a new index, every bucket has its [total]
    equal to the sum of its [moveCounts], to the sum of its [toSquareCounts]
    and to the sum of its [fromSquareCounts]. *)
Theorem marginal_consistency `{E : RulesEngine} (ops : list Op) fen b :
  getBucket (runOps ops) fen = Some b →
  total b = sum_values (moveCounts b)
  ∧ total b = sum_values (toSquareCounts b)
  ∧ total b = sum_values (fromSquareCounts b).
Proof.
  intros Hb.
  apply (runOps_buckets (fun _ => marginalsAgree) (fun _ => True)) with (ops := ops) (fen := fen);
    [ intros; apply newBucket_marginals
    | intros; by apply recordMove_marginals
    | intros; by apply recordMove_marginals
    | intros; by apply recordResult_marginals
    | intros; by apply Forall_true
    | done ].
Qed.

Lemma marginal_consistency_witness :
  let ops := [IngestUciMoves ["e2e4"; "e7e5"; "e2e4"];
              IngestGamePgn "alice" Table.pgnAliceBob;
              IngestSanMoves ["e4"]] in
  let b := default newBucket
             (getBucket (runOps (E:=Table.engine) ops) Table.startFen) in
  total b = 3
  ∧ (total b = sum_values (moveCounts b)
     ∧ total b = sum_values (toSquareCounts b)
     ∧ total b = sum_values (fromSquareCounts b)).
Proof.
  intros ops b. split; [reflexivity|].
  apply (marginal_consistency (E:=Table.engine) ops Table.startFen b). reflexivity.
Defined.

(** C5.  After any sequence of ingestion operations on a new index, every
    bucket has [userTotal + oppTotal <= total], with equality when no
    operation recorded a move without a role at that position (every move
    there came through [ingestGamePgn]); the white and black counters of the
    user add up to [userTotal], and those of the opponent to [oppTotal]. *)
Theorem role_partition `{E : RulesEngine} (ops : list Op) fen b :
  getBucket (runOps ops) fen = Some b →
  userTotal b + oppTotal b <= total b
  ∧ ((∀ op, op ∈ ops → fen ∉ barePositions op) →
     userTotal b + oppTotal b = total b)
  ∧ userWhiteTotal b + userBlackTotal b = userTotal b
  ∧ oppWhiteTotal b + oppBlackTotal b = oppTotal b.
Proof.
  intros Hb.
  set (bare := fun f => ∃ op, op ∈ ops ∧ f ∈ barePositions op).
  set (P := fun f b => (rolesBounded b ∧ colorsPartition b) ∧ (¬ bare f → rolesExhaust b)).
  assert (allBuckets P (runOps ops)) as Hall.
  { apply (runOps_buckets P bare).
    - intros f. by repeat split.
    - intros f p b0 Hbare [Hrc _]. split; [by apply recordMove_bare_roles|done].
    - intros f p byUser color b0 [Hrc Hex]. split; [by apply recordMove_role_roles|].
      intros Hn. by apply recordMove_role_exhaust, Hex.
    - intros f o b0 [[Hr Hc] Hex].
      destruct (recordResult_counters o b0) as (Ht & Hu & Ho & Huw & Hub & How & Hob).
      unfold P, rolesBounded, colorsPartition, rolesExhaust in *.
      rewrite Ht, Hu, Ho, Huw, Hub, How, Hob. done.
    - intros op Hop. apply Forall_forall. intros f Hf. exists op.
      by split. }
  destruct (Hall fen b Hb) as [[Hr [Hcu Hco]] Hex].
  split_and!; [done| |done|done].
  intros Hnone. apply Hex. intros (op & Hop & Hin). by apply (Hnone op).
Qed.

Lemma role_partition_witness :
  let ops := [IngestGamePgn "alice" Table.pgnAliceBob;
              IngestUciMoves ["e2e4"]] in
  let b := default newBucket
             (getBucket (runOps (E:=Table.engine) ops) Table.fenE4) in
  (userTotal b = 0 ∧ oppTotal b = 1 ∧ total b = 1)
  ∧ (userTotal b + oppTotal b <= total b
     ∧ ((∀ op, op ∈ ops → Table.fenE4 ∉ barePositions (E:=Table.engine) op) →
        userTotal b + oppTotal b = total b)
     ∧ userWhiteTotal b + userBlackTotal b = userTotal b
     ∧ oppWhiteTotal b + oppBlackTotal b = oppTotal b).
Proof.
  intros ops b. split; [by repeat split|].
  apply (role_partition (E:=Table.engine) ops Table.fenE4 b). reflexivity.
Defined.

(** ** Outcome attribution *)

Lemma getResultStats_addMove fen' p byUser color idx fen :
  getResultStats (addMove fen' p byUser color idx) fen = getResultStats idx fen.
Proof.
  unfold getResultStats. destruct (decide (fen' = fen)) as [->|Hne].
  - pose proof (getBucket_addMove_eq fen p byUser color idx) as Heq.
    unfold getBucket in Heq. rewrite Heq, recordMove_results.
    by destruct (map_get fen idx).
  - pose proof (getBucket_addMove_ne fen' fen p byUser color idx Hne) as Heq.
    unfold getBucket in Heq. by rewrite Heq.
Qed.

Lemma getResultStats_addResult_ne fen' o idx fen :
  fen' ≠ fen → getResultStats (addResult fen' o idx) fen = getResultStats idx fen.
Proof.
  intros Hne. unfold getResultStats.
  pose proof (getBucket_addResult_ne fen' fen o idx Hne) as Heq.
  unfold getBucket in Heq. by rewrite Heq.
Qed.

Lemma getResultStats_addResult_eq fen o idx o' :
  resultCount o' (getResultStats (addResult fen o idx) fen)
  = resultCount o' (getResultStats idx fen)
    + (if decide (o' = o) then 1 else 0).
Proof.
  unfold getResultStats.
  pose proof (getBucket_addResult_eq fen o idx) as Heq.
  unfold getBucket in Heq. rewrite Heq.
  destruct (map_get fen idx) as [b|]; destruct o, o'; simpl; lia.
Qed.

Section OutcomeAttribution.
Context {E : RulesEngine}.

(** The loop adds one to the outcome's counter of exactly the positions
    it visits that had not been seen before. *)
Lemma pgnLoop_results userLower whiteName blackName o walker moves seen idx fen o' :
  resultCount o'
    (getResultStats
       (pgnLoop userLower whiteName blackName (Some o) walker moves seen idx) fen)
  = resultCount o' (getResultStats idx fen)
    + (if decide (o' = o ∧ fen ∈ sanPositions walker moves ∧ fen ∉ seen)
       then 1 else 0).
Proof.
  revert walker seen idx.
  induction moves as [|san rest IH]; intros walker seen idx; simpl.
  { rewrite decide_False; [lia|]. intros (_ & Hin & _). by apply not_elem_of_nil in Hin. }
  destruct (chess_moveSan walker san) as [[walker' m]|]; simpl.
  2:{ rewrite decide_False; [lia|]. intros (_ & Hin & _). by apply not_elem_of_nil in Hin. }
  case_bool_decide as Hseen; rewrite IH.
  - rewrite getResultStats_addMove. f_equal.
    apply decide_ext. rewrite elem_of_cons.
    split; [tauto|]. intros (? & [->|?] & ?); tauto.
  - destruct (decide (chess_fen walker = fen)) as [Heq|Hne].
    + subst fen. rewrite getResultStats_addResult_eq, getResultStats_addMove.
      rewrite (decide_False (P := _ ∧ _ ∧ _)).
      2:{ intros (_ & _ & Hnot). apply Hnot, elem_of_union. left.
          by apply elem_of_singleton. }
      destruct (decide (o' = o)) as [->|Ho].
      * rewrite decide_True; [lia|]. split_and!; [done|apply list_elem_of_here|done].
      * rewrite decide_False; [lia|]. tauto.
    + rewrite getResultStats_addResult_ne, getResultStats_addMove by done.
      f_equal. apply decide_ext.
      rewrite elem_of_cons, not_elem_of_union, elem_of_singleton.
      split; [intros (? & ? & ? & ?); tauto|].
      intros (? & [?|?] & ?); [congruence|]. split_and!; [done|done|congruence|done].
Qed.

Lemma gameOutcome_replay username pgn o idx :
  gameOutcome username pgn = Some o →
  ∃ chess userLower whiteName blackName,
    chess_loadPgn newChess pgn = Some chess
    ∧ ingestGamePgn username pgn idx
      = pgnLoop userLower whiteName blackName (Some o) newChess
                (chess_history chess) ∅ idx.
Proof.
  unfold gameOutcome, ingestGamePgn.
  destruct (chess_loadPgn newChess pgn) as [chess|]; [|done].
  simpl. destruct (decisive _); [|done].
  destruct (negb _ && negb _); [done|].
  intros ->. eauto 10.
Qed.
End OutcomeAttribution.

(** C7.  One [ingestGamePgn] call whose outcome is resolved adds exactly 1
    to that outcome's counter of every position the replay visited as a
    position before a move, however often it visited it, and adds nothing
    to the counter of any other position; the counters of the two other
    outcomes do not change. *)
Theorem outcome_once_per_position `{E : RulesEngine} username pgn o idx fen :
  gameOutcome username pgn = Some o →
  let before := getResultStats idx fen in
  let after := getResultStats (ingestGamePgn username pgn idx) fen in
  (fen ∈ visitedPositions pgn → resultCount o after = resultCount o before + 1)
  ∧ (fen ∉ visitedPositions pgn → resultCount o after = resultCount o before)
  ∧ (∀ o', o' ≠ o → resultCount o' after = resultCount o' before).
Proof.
  intros Ho before after. subst before after.
  destruct (gameOutcome_replay username pgn o idx Ho)
    as (chess & userLower & whiteName & blackName & Hload & ->).
  unfold visitedPositions. rewrite Hload.
  split_and!.
  - intros Hin. rewrite pgnLoop_results, decide_True; [done|].
    split_and!; [done|done|apply not_elem_of_empty].
  - intros Hnin. rewrite pgnLoop_results, decide_False; [lia|]. tauto.
  - intros o' Hne. rewrite pgnLoop_results, decide_False; [lia|]. tauto.
Qed.

Lemma outcome_once_per_position_witness :
  let before := getResultStats emptyIndex Clockless.start in
  let after :=
    getResultStats
      (ingestGamePgn (E:=Clockless.engine) " Alice " Clockless.pgnShuffle emptyIndex)
      Clockless.start in
  occurrences Clockless.start
    (visitedPositions (E:=Clockless.engine) Clockless.pgnShuffle) = 2
  ∧ ((Clockless.start ∈ visitedPositions (E:=Clockless.engine) Clockless.pgnShuffle →
      resultCount Win after = resultCount Win before + 1)
     ∧ (Clockless.start ∉ visitedPositions (E:=Clockless.engine) Clockless.pgnShuffle →
        resultCount Win after = resultCount Win before)
     ∧ (∀ o', o' ≠ Win → resultCount o' after = resultCount o' before)).
Proof.
  intros before after. split; [reflexivity|].
  apply (outcome_once_per_position (E:=Clockless.engine) " Alice " Clockless.pgnShuffle
           Win emptyIndex Clockless.start).
  reflexivity.
Defined.

(** ** Top moves *)

Lemma top_key_toTopMove (kc : string * Z) : top_key (toTopMove kc) = kc.1.
Proof.
  destruct kc as [k c]. unfold top_key, toTopMove, slice, slice_from. simpl.
  destruct k as [|a1 [|a2 [|a3 [|a4 [|a5 k]]]]]; reflexivity.
Qed.

Lemma sublist_pair_cons {A} (x y p : A) (l : list A) :
  [x; y] `sublist_of` p :: l ↔ [x; y] `sublist_of` l ∨ (x = p ∧ y ∈ l).
Proof.
  rewrite sublist_cons_r. split.
  - intros [H|(l' & [= -> <-] & H)]; [by left|right].
    split; [done|]. by apply singleton_sublist_l.
  - intros [H|[-> H]]; [by left|right]. exists [y]. split; [done|].
    by apply singleton_sublist_l.
Qed.

Lemma elem_of_insertByCount x p l : x ∈ insertByCount p l ↔ x = p ∨ x ∈ l.
Proof.
  induction l as [|q l IH]; simpl.
  - rewrite list_elem_of_singleton, elem_of_nil. tauto.
  - destruct (p.2 <? q.2); rewrite !elem_of_cons; [rewrite IH|]; tauto.
Qed.

Lemma elem_of_sortByCount x l : x ∈ sortByCount l ↔ x ∈ l.
Proof.
  induction l as [|p l IH]; simpl; [done|].
  rewrite elem_of_insertByCount, elem_of_cons, IH. tauto.
Qed.

Lemma insertByCount_Permutation p l : insertByCount p l ≡ₚ p :: l.
Proof.
  induction l as [|q l IH]; simpl; [done|].
  destruct (p.2 <? q.2); [|done]. rewrite IH. apply Permutation_swap.
Qed.

Lemma sortByCount_Permutation l : sortByCount l ≡ₚ l.
Proof.
  induction l as [|p l IH]; simpl; [done|].
  by rewrite insertByCount_Permutation, IH.
Qed.

Lemma length_insertByCount p l :
  List.length (insertByCount p l) = S (List.length l).
Proof.
  induction l as [|q l IH]; simpl; [done|].
  destruct (p.2 <? q.2); simpl; by rewrite ?IH.
Qed.

Lemma length_sortByCount l : List.length (sortByCount l) = List.length l.
Proof.
  induction l as [|p l IH]; simpl; [done|]. by rewrite length_insertByCount, IH.
Qed.

Lemma insertByCount_descending p l : descending l → descending (insertByCount p l).
Proof.
  induction l as [|q l IH]; intros Hl x y; simpl.
  - intros H%sublist_length. simpl in H. lia.
  - assert (descending l) as Hl'.
    { intros a b Hab. apply Hl, sublist_pair_cons. by left. }
    destruct (Z.ltb_spec (p.2) (q.2)) as [Hlt|Hge]; rewrite sublist_pair_cons.
    + intros [H|[-> [->|H]%elem_of_insertByCount]].
      * by apply IH.
      * lia.
      * apply Hl, sublist_pair_cons. by right.
    + intros [H|[-> [->|H]%elem_of_cons]]; [by apply Hl|lia|].
      assert (y.2 <= q.2); [|lia]. apply Hl, sublist_pair_cons. by right.
Qed.

Lemma sortByCount_descending l : descending (sortByCount l).
Proof.
  induction l as [|p l IH]; simpl.
  - intros x y H%sublist_length. simpl in H. lia.
  - by apply insertByCount_descending.
Qed.

(** Stability of one insertion, then of the sort: two pairs with the same
    count leave in the order in which they came. *)
Lemma insertByCount_stable p l x y :
  [x; y] `sublist_of` insertByCount p l → x.2 = y.2 → [x; y] `sublist_of` p :: l.
Proof.
  induction l as [|q l IH]; simpl; [done|].
  destruct (Z.ltb_spec (p.2) (q.2)) as [Hlt|Hge]; [|done].
  rewrite sublist_pair_cons. intros [H|[-> [->|H]%elem_of_insertByCount]] Heq.
  - specialize (IH H Heq). apply sublist_pair_cons in IH as [IH|[-> Hy]].
    + by do 2 apply sublist_cons.
    + apply sublist_pair_cons. right. split; [done|]. by apply list_elem_of_further.
  - lia.
  - apply sublist_cons, sublist_pair_cons. by right.
Qed.

Lemma sortByCount_stable l x y :
  [x; y] `sublist_of` sortByCount l → x.2 = y.2 → [x; y] `sublist_of` l.
Proof.
  revert x y. induction l as [|p l IH]; intros x y; simpl; [done|].
  intros H Heq. apply insertByCount_stable in H; [|done].
  apply sublist_pair_cons in H as [H|[-> Hy]]; apply sublist_pair_cons.
  - left. by apply IH.
  - right. split; [done|]. by apply elem_of_sortByCount.
Qed.

Lemma array_slice0_nonneg {A} (limit : Z) (arr : list A) :
  0 <= limit → array_slice0 limit arr = take (Z.to_nat limit) arr.
Proof.
  intros Hk. unfold array_slice0.
  destruct (Z.ltb_spec limit 0) as [?|_]; [lia|].
  destruct (Z.min_spec limit (Z.of_nat (List.length arr))) as [[Hlt ->]|[Hge ->]]; [done|].
  rewrite Nat2Z.id, firstn_all. symmetry. apply take_ge. lia.
Qed.

Lemma topMovesOf_pairs bucket limit :
  0 <= limit →
  (fun e => (top_key e, top_count e)) <$> topMovesOf bucket limit
  = take (Z.to_nat limit) (sortByCount (moveCounts bucket)).
Proof.
  intros Hk. unfold topMovesOf, map_entries. rewrite array_slice0_nonneg by done.
  rewrite <- list_fmap_compose.
  rewrite <- (list_fmap_id (take _ _)) at 2. apply list_fmap_ext.
  intros i [k c] _. simpl. by rewrite top_key_toTopMove.
Qed.

(** C6.  For a limit [k >= 0], [getTopMoves] returns at most [k] entries;
    they are drawn from the bucket's [moveCounts], each entry standing for
    one move key with its count and no key being used twice;
    an earlier entry never has a smaller count than a later one; two entries
    with equal counts appear in the order of their keys in [moveCounts],
    which is the order of first insertion; an absent bucket gives the empty
    list; and the result is determined by the bucket stored at the position,
    so a second call on an unmodified index returns the same list. *)
Theorem getTopMoves_spec (idx : MoveIndex) (fen : string) (k : Z) :
  0 <= k →
  let r := getTopMoves idx fen k in
  Z.of_nat (List.length r) <= k
  ∧ (∀ b, getBucket idx fen = Some b →
       (fun e => (top_key e, top_count e)) <$> r ⊆+ moveCounts b)
  ∧ (∀ e, e ∈ r →
       ∃ b, getBucket idx fen = Some b ∧ (top_key e, top_count e) ∈ moveCounts b)
  ∧ (∀ e1 e2, [e1; e2] `sublist_of` r → top_count e2 <= top_count e1)
  ∧ (∀ e1 e2, [e1; e2] `sublist_of` r → top_count e1 = top_count e2 →
       ∃ b, getBucket idx fen = Some b
            ∧ [(top_key e1, top_count e1); (top_key e2, top_count e2)]
                `sublist_of` moveCounts b)
  ∧ (getBucket idx fen = None → r = [])
  ∧ (∀ idx' : MoveIndex,
       getBucket idx' fen = getBucket idx fen → getTopMoves idx' fen k = r).
Proof.
  intros Hk r. subst r. unfold getTopMoves, getBucket.
  destruct (map_get fen idx) as [b|] eqn:Hb.
  2:{ split_and!; [simpl; lia|done|by intros e ?%elem_of_nil| | |done|by intros idx' ->].
      - intros e1 e2 H%sublist_length. simpl in H. lia.
      - intros e1 e2 H%sublist_length. simpl in H. lia. }
  pose proof (topMovesOf_pairs b k Hk) as Hpairs.
  set (pair := fun e => (top_key e, top_count e)) in *.
  assert (∀ l, l `sublist_of` topMovesOf b k →
               pair <$> l `sublist_of` sortByCount (moveCounts b)) as Hsub.
  { intros l Hl. etrans; [by apply fmap_sublist|].
    rewrite Hpairs. apply sublist_take. }
  split_and!.
  - rewrite <- (length_fmap pair), Hpairs, length_take. lia.
  - intros b' [= <-]. rewrite Hpairs.
    etrans; [apply sublist_submseteq, sublist_take|].
    apply Permutation_submseteq, sortByCount_Permutation.
  - intros e He. exists b. split; [done|].
    apply elem_of_sortByCount, singleton_sublist_l, (Hsub [e]).
    by apply singleton_sublist_l.
  - intros e1 e2 H. apply (sortByCount_descending (moveCounts b) (pair e1) (pair e2)).
    by apply (Hsub [e1; e2]).
  - intros e1 e2 H Heq. exists b. split; [done|].
    apply (sortByCount_stable (moveCounts b) (pair e1) (pair e2)); [|done].
    by apply (Hsub [e1; e2]).
  - done.
  - by intros idx' ->.
Qed.

Lemma getTopMoves_spec_witness :
  let idx := runOps (E:=Table.engine)
               [IngestUciMoves ["d2d4"]; IngestUciMoves ["e2e4"];
                IngestUciMoves ["c2c4"]; IngestUciMoves ["e2e4"];
                IngestUciMoves ["c2c4"]; IngestUciMoves ["g1f3"]] in
  let r := getTopMoves idx Table.startFen 3 in
  (top_key <$> r = ["e2e4"; "c2c4"; "d2d4"] ∧ top_count <$> r = [2; 2; 1])
  ∧ (Z.of_nat (List.length r) <= 3
     ∧ (∀ b, getBucket idx Table.startFen = Some b →
          (fun e => (top_key e, top_count e)) <$> r ⊆+ moveCounts b)
     ∧ (∀ e, e ∈ r →
          ∃ b, getBucket idx Table.startFen = Some b
               ∧ (top_key e, top_count e) ∈ moveCounts b)
     ∧ (∀ e1 e2, [e1; e2] `sublist_of` r → top_count e2 <= top_count e1)
     ∧ (∀ e1 e2, [e1; e2] `sublist_of` r → top_count e1 = top_count e2 →
          ∃ b, getBucket idx Table.startFen = Some b
               ∧ [(top_key e1, top_count e1); (top_key e2, top_count e2)]
                   `sublist_of` moveCounts b)
     ∧ (getBucket idx Table.startFen = None → r = [])
     ∧ (∀ idx' : MoveIndex,
          getBucket idx' Table.startFen = getBucket idx Table.startFen →
          getTopMoves idx' Table.startFen 3 = r)).
Proof.
  intros idx r. split; [by split|].
  apply (getTopMoves_spec idx Table.startFen 3). lia.
Defined.

(** ** Serialization *)

Lemma filter_split_Permutation {A} (f : A → bool) (l : list A) :
  List.filter f l ++ List.filter (fun x => negb (f x)) l ≡ₚ l.
Proof.
  induction l as [|a l IH]; simpl; [done|].
  destruct (f a); simpl.
  - by rewrite IH.
  - by rewrite <- Permutation_middle, IH.
Qed.

Lemma insertByIndex_Permutation k l : insertByIndex k l ≡ₚ k :: l.
Proof.
  induction l as [|k' l IH]; simpl; [done|].
  destruct (_ <? _)%N; [|done]. rewrite IH. apply Permutation_swap.
Qed.

(** [Object.keys] lists every own key once. *)
Lemma Object_keys_Permutation {V} (o : list (string * V)) : Object_keys o ≡ₚ o.*1.
Proof.
  unfold Object_keys. rewrite <- (filter_split_Permutation isArrayIndex o.*1) at 3.
  apply Permutation_app; [|done].
  induction (List.filter isArrayIndex o.*1) as [|k l IH]; simpl; [done|].
  by rewrite insertByIndex_Permutation, IH.
Qed.

Lemma fromSerializedLoop_spec data keys idx :
  (∀ k, k ∈ keys → is_Some (map_get k data)) →
  ∃ idx', fromSerializedLoop data keys idx = Some idx'
    ∧ (∀ fen, getBucket idx' fen
              = if decide (fen ∈ keys)
                then deserializeBucket <$> map_get fen data
                else getBucket idx fen)
    ∧ (NoDup (idx.*1 ++ keys) → idx'.*1 = idx.*1 ++ keys).
Proof.
  revert idx. induction keys as [|k rest IH]; intros idx Hkeys; simpl.
  { exists idx. split_and!; [done|done|]. by rewrite app_nil_r. }
  destruct (Hkeys k) as [s Hs]; [apply list_elem_of_here|]. rewrite Hs.
  destruct (IH (map_set k (deserializeBucket s) idx)) as (idx' & Hrun & Hget & Hdom).
  { intros k' Hk'. by apply Hkeys, list_elem_of_further. }
  exists idx'. split_and!; [done| |].
  - intros fen. rewrite Hget. unfold getBucket.
    destruct (decide (fen ∈ rest)) as [Hin|Hnin].
    + rewrite decide_True; [done|]. by apply list_elem_of_further.
    + destruct (decide (k = fen)) as [->|Hne].
      * rewrite decide_True by apply list_elem_of_here.
        by rewrite map_get_set_eq, Hs.
      * rewrite decide_False; [by rewrite map_get_set_ne|].
        intros [?|?]%elem_of_cons; congruence.
  - intros Hnd. assert (map_get k idx = None) as Hfresh.
    { apply map_get_None. apply NoDup_app in Hnd as (_ & Hdisj & _).
      intros Hin. apply (Hdisj k Hin), list_elem_of_here. }
    rewrite Hdom; rewrite map_set_fresh, fmap_app by done; simpl;
      by rewrite <- app_assoc.
Qed.

(** In this model [fromSerialized] has no failing run. *)
Lemma fromSerialized_spec data :
  ∃ idx', fromSerialized data = Some idx'
    ∧ (∀ fen, getBucket idx' fen = deserializeBucket <$> map_get fen data)
    ∧ (isMap data → idx'.*1 = Object_keys data).
Proof.
  destruct (fromSerializedLoop_spec data (Object_keys data) emptyIndex)
    as (idx' & Hrun & Hget & Hdom).
  { intros k Hk. apply map_get_is_Some. by rewrite <- Object_keys_Permutation. }
  exists idx'. split_and!; [done| |].
  - intros fen. rewrite Hget. case_decide as Hin; [done|].
    rewrite Object_keys_Permutation in Hin.
    apply map_get_None in Hin. by rewrite Hin.
  - intros Hmap. apply Hdom. simpl. by rewrite Object_keys_Permutation.
Qed.

Lemma serialize_fmap idx :
  isMap idx → serialize idx = (fun fb => (fb.1, serializeBucket fb.2)) <$> idx.
Proof.
  unfold serialize. intros Hmap.
  assert (∀ (l : MoveIndex) (acc : SerializedIndex),
            NoDup (acc.*1 ++ l.*1) →
            foldl (fun out fb => map_set fb.1 (serializeBucket fb.2) out) acc l
            = acc ++ ((fun fb => (fb.1, serializeBucket fb.2)) <$> l)) as Hgen.
  { induction l as [|[fen b] l IH]; intros acc Hnd; simpl.
    - by rewrite app_nil_r.
    - rewrite map_set_fresh.
      + rewrite IH; rewrite <- ?app_assoc; [done|].
        by rewrite fmap_app, <- app_assoc.
      + apply map_get_None. apply NoDup_app in Hnd as (_ & Hdisj & _).
        intros Hin. apply (Hdisj fen Hin), list_elem_of_here. }
  by rewrite Hgen.
Qed.

Lemma map_get_fmap {A B} (f : A → B) k (m : list (string * A)) :
  map_get k ((fun kv => (kv.1, f kv.2)) <$> m) = f <$> map_get k m.
Proof.
  induction m as [|[k' v] m IH]; simpl; [done|].
  by destruct (String.eqb k k').
Qed.

(** A bucket survives [serializeBucket] and [deserializeBucket]. *)
Lemma deserialize_serialize_bucket b :
  bucketMaps b → deserializeBucket (serializeBucket b) = b.
Proof.
  unfold bucketMaps. intros H. destruct_and! H.
  unfold deserializeBucket, serializeBucket, resultAt. simpl.
  rewrite !Map_of_entries by done.
  by destruct b as [? ? ? ? [? ? ?] ? ? ? ? ? ? ? ? ? ? ? ? ? ? ? ? ? ?].
Qed.

(** C3.  Deserializing the serialized form of an index succeeds and gives an
    index with the same position identifiers and, at each of them, a bucket
    equal to the original one: the same counters and the same count maps,
    entry for entry and in the same insertion order. *)
Theorem serialize_round_trip (idx : MoveIndex) :
  isIndex idx →
  ∃ idx', fromSerialized (serialize idx) = Some idx'
    ∧ map_keys idx' ≡ₚ map_keys idx
    ∧ size idx' = size idx
    ∧ ∀ fen, getBucket idx' fen = getBucket idx fen.
Proof.
  intros [Hmap Hbuckets].
  destruct (fromSerialized_spec (serialize idx)) as (idx' & Hrun & Hget & Hdom).
  assert ((serialize idx).*1 = idx.*1) as Hkeys.
  { rewrite serialize_fmap by done. rewrite <- list_fmap_compose.
    by apply list_fmap_ext. }
  assert (map_keys idx' ≡ₚ map_keys idx) as Hperm.
  { unfold map_keys. rewrite Hdom by (unfold isMap; by rewrite Hkeys).
    by rewrite Object_keys_Permutation, Hkeys. }
  exists idx'. split_and!; [done|done| |].
  - unfold size. rewrite <- !(length_fmap fst). by apply Permutation_length.
  - intros fen. rewrite Hget, serialize_fmap, map_get_fmap by done.
    unfold getBucket. destruct (map_get fen idx) as [b|] eqn:Hb; [|done].
    simpl. f_equal. apply deserialize_serialize_bucket.
    apply map_get_Some_elem in Hb.
    by apply (proj1 (Forall_forall _ _) Hbuckets (fen, b)).
Qed.

(** Every index the ingestion operations build is an index value. *)
Lemma map_get_elem_isMap {V} k (v : V) m : isMap m → (k, v) ∈ m → map_get k m = Some v.
Proof.
  unfold isMap. induction m as [|[k' v'] m IH]; simpl; [by intros _ ?%elem_of_nil|].
  intros [Hk Hnd]%NoDup_cons [[= -> ->]|Hin]%elem_of_cons.
  - by rewrite String.eqb_refl.
  - destruct (String.eqb_spec k k') as [->|_]; [|by apply IH].
    destruct Hk. apply list_elem_of_fmap. by exists (k', v).
Qed.

Lemma runOps_isIndex `{E : RulesEngine} (ops : list Op) : isIndex (runOps ops).
Proof.
  assert (isMap (runOps ops)) as Hmap.
  { apply (runOps_inv isMap (fun _ => True)); intros;
      try (by apply isMap_set); try apply NoDup_nil_2; by apply Forall_true. }
  split; [done|]. apply Forall_forall. intros [fen b] Hin. simpl.
  apply (runOps_buckets (fun _ => bucketMaps) (fun _ => True)) with (ops := ops) (fen := fen);
    [ intros; apply newBucket_maps
    | intros; by apply recordMove_maps
    | intros; by apply recordMove_maps
    | intros; by apply recordResult_maps
    | intros; by apply Forall_true
    | by apply map_get_elem_isMap ].
Qed.

Lemma serialize_round_trip_witness :
  let idx := runOps (E:=Table.engine)
               [IngestGamePgn "alice" Table.pgnAliceBob; IngestUciMoves ["d2d4"]] in
  isIndex idx
  ∧ ∃ idx', fromSerialized (serialize idx) = Some idx'
      ∧ map_keys idx' ≡ₚ map_keys idx
      ∧ size idx' = size idx
      ∧ ∀ fen, getBucket idx' fen = getBucket idx fen.
Proof.
  intros idx.
  split; [apply runOps_isIndex|apply (serialize_round_trip idx), runOps_isIndex].
Defined.

(** C8.  A stored record may omit [r] and any of the role and role-and-colour
    fields: [fromSerialized] still returns an index, and in the bucket it
    rebuilds from that record every omitted total is zero, every omitted
    count map is empty, and omitted results are all zero. *)
Theorem fromSerialized_missing_fields (data : SerializedIndex) fen (s : SerializedBucket) :
  map_get fen data = Some s →
  ∃ idx' b,
    fromSerialized data = Some idx' ∧ getBucket idx' fen = Some b
    ∧ (s_r s = None → results b = {| win := 0; loss := 0; draw := 0 |})
    ∧ (s_ut s = None → userTotal b = 0)
    ∧ (s_um s = None → userMoveCounts b = [])
    ∧ (s_uto s = None → userToSquareCounts b = [])
    ∧ (s_ot s = None → oppTotal b = 0)
    ∧ (s_om s = None → oppMoveCounts b = [])
    ∧ (s_oto s = None → oppToSquareCounts b = [])
    ∧ (s_uwt s = None → userWhiteTotal b = 0)
    ∧ (s_uwm s = None → userWhiteMoveCounts b = [])
    ∧ (s_uwto s = None → userWhiteToSquareCounts b = [])
    ∧ (s_ubt s = None → userBlackTotal b = 0)
    ∧ (s_ubm s = None → userBlackMoveCounts b = [])
    ∧ (s_ubto s = None → userBlackToSquareCounts b = [])
    ∧ (s_owt s = None → oppWhiteTotal b = 0)
    ∧ (s_owm s = None → oppWhiteMoveCounts b = [])
    ∧ (s_owto s = None → oppWhiteToSquareCounts b = [])
    ∧ (s_obt s = None → oppBlackTotal b = 0)
    ∧ (s_obm s = None → oppBlackMoveCounts b = [])
    ∧ (s_obto s = None → oppBlackToSquareCounts b = []).
Proof.
  intros Hs. destruct (fromSerialized_spec data) as (idx' & Hrun & Hget & _).
  exists idx', (deserializeBucket s). split; [done|].
  split; [by rewrite Hget, Hs|].
  unfold deserializeBucket, resultAt; simpl.
  split_and!; by intros ->.
Qed.

Lemma fromSerialized_missing_fields_witness :
  let data := [(Table.startFen, firstFormatRecord)] in
  let s := firstFormatRecord in
  ∃ idx' b,
    fromSerialized data = Some idx' ∧ getBucket idx' Table.startFen = Some b
    ∧ (s_r s = None → results b = {| win := 0; loss := 0; draw := 0 |})
    ∧ (s_ut s = None → userTotal b = 0)
    ∧ (s_um s = None → userMoveCounts b = [])
    ∧ (s_uto s = None → userToSquareCounts b = [])
    ∧ (s_ot s = None → oppTotal b = 0)
    ∧ (s_om s = None → oppMoveCounts b = [])
    ∧ (s_oto s = None → oppToSquareCounts b = [])
    ∧ (s_uwt s = None → userWhiteTotal b = 0)
    ∧ (s_uwm s = None → userWhiteMoveCounts b = [])
    ∧ (s_uwto s = None → userWhiteToSquareCounts b = [])
    ∧ (s_ubt s = None → userBlackTotal b = 0)
    ∧ (s_ubm s = None → userBlackMoveCounts b = [])
    ∧ (s_ubto s = None → userBlackToSquareCounts b = [])
    ∧ (s_owt s = None → oppWhiteTotal b = 0)
    ∧ (s_owm s = None → oppWhiteMoveCounts b = [])
    ∧ (s_owto s = None → oppWhiteToSquareCounts b = [])
    ∧ (s_obt s = None → oppBlackTotal b = 0)
    ∧ (s_obm s = None → oppBlackMoveCounts b = [])
    ∧ (s_obto s = None → oppBlackToSquareCounts b = []).
Proof.
  intros data s.
  apply (fromSerialized_missing_fields data Table.startFen s). reflexivity.
Defined.

(** ** Normalization of the tracked identity *)

Lemma append_cons c s t : String c s +:+ t = String c (s +:+ t).
Proof. reflexivity. Qed.

Lemma append_empty t : EmptyString +:+ t = t.
Proof. reflexivity. Qed.

Lemma capital_facts c :
  isCapital c = true →
  let d := ascii_of_nat (nat_of_ascii c + 32) in
  lowerChar c = d ∧ lowerChar d = d
  ∧ isWhiteSpace c = false ∧ isWhiteSpace d = false.
Proof.
  destruct c as [[] [] [] [] [] [] [] []]; vm_compute; intros H;
    try discriminate H; by repeat split.
Qed.

Lemma sameLetter_spec c d :
  sameLetter c d = true →
  lowerChar c = lowerChar d ∧ isWhiteSpace c = isWhiteSpace d.
Proof.
  unfold sameLetter. rewrite !orb_true_iff, !andb_true_iff, !Nat.eqb_eq.
  intros [[Heq|[Hcap Hd]]|[Hcap Hc]].
  - by apply Ascii.eqb_eq in Heq as ->.
  - destruct (capital_facts c Hcap) as (H1 & H2 & H3 & H4).
    rewrite <- Hd, ascii_nat_embedding in H1, H2, H4. by rewrite H1, H2, H3, H4.
  - destruct (capital_facts d Hcap) as (H1 & H2 & H3 & H4).
    rewrite <- Hc, ascii_nat_embedding in H1, H2, H4. by rewrite H1, H2, H3, H4.
Qed.

Lemma sameLetters_toLowerCase s t :
  sameLetters s t = true → toLowerCase s = toLowerCase t.
Proof.
  revert t. induction s as [|c s IH]; intros [|d t]; simpl; try done.
  intros [Hcd Hst]%andb_true_iff.
  apply sameLetter_spec in Hcd as [-> _]. by rewrite (IH t).
Qed.

Lemma sameLetters_trimStart s t :
  sameLetters s t = true → sameLetters (trimStart s) (trimStart t) = true.
Proof.
  revert t. induction s as [|c s IH]; intros [|d t]; simpl; try done.
  intros Hall. pose proof Hall as [Hcd Hst]%andb_true_iff.
  apply sameLetter_spec in Hcd as [_ ->].
  destruct (isWhiteSpace d); [by apply IH|done].
Qed.

Lemma sameLetters_trimEnd s t :
  sameLetters s t = true → sameLetters (trimEnd s) (trimEnd t) = true.
Proof.
  revert t. induction s as [|c s IH]; intros [|d t]; simpl; try done.
  intros [Hcd Hst]%andb_true_iff. specialize (IH t Hst).
  pose proof (sameLetter_spec c d Hcd) as [_ Hws].
  destruct (trimEnd s) as [|c' s'], (trimEnd t) as [|d' t']; try done.
  - rewrite Hws. destruct (isWhiteSpace d); simpl; [done|]. by rewrite Hcd.
  - simpl in *. by rewrite Hcd.
Qed.

Lemma sameLetters_normalized s t :
  sameLetters s t = true → toLowerCase (trim s) = toLowerCase (trim t).
Proof.
  intros H. by apply sameLetters_toLowerCase, sameLetters_trimStart, sameLetters_trimEnd.
Qed.

Lemma trimEnd_allWhiteSpace s : allWhiteSpace s = true → trimEnd s = EmptyString.
Proof.
  induction s as [|c s IH]; simpl; [done|].
  intros [Hc Hs]%andb_true_iff. by rewrite IH, Hc.
Qed.

Lemma trimEnd_append_space s suf :
  allWhiteSpace suf = true → trimEnd (s +:+ suf) = trimEnd s.
Proof.
  intros Hsuf. induction s as [|c s IH].
  - rewrite append_empty. by apply trimEnd_allWhiteSpace.
  - rewrite append_cons. simpl. by rewrite IH.
Qed.

Lemma trim_cons_space c s : isWhiteSpace c = true → trim (String c s) = trim s.
Proof.
  intros Hc. unfold trim. simpl.
  destruct (trimEnd s) as [|c' r]; simpl; by rewrite Hc.
Qed.

Lemma trim_append_space_l pre s :
  allWhiteSpace pre = true → trim (pre +:+ s) = trim s.
Proof.
  induction pre as [|c pre IH]; simpl; [done|].
  intros [Hc Hpre]%andb_true_iff.
  rewrite append_cons, trim_cons_space by done. by apply IH.
Qed.

Lemma trim_wrapped pre core suf :
  allWhiteSpace pre = true → allWhiteSpace suf = true →
  trim (pre +:+ core +:+ suf) = trim core.
Proof.
  intros Hpre Hsuf. rewrite trim_append_space_l by done.
  unfold trim. by rewrite trimEnd_append_space.
Qed.

Lemma differOnlyInCaseAndSpace_normalized u u' :
  differOnlyInCaseAndSpace u u' → toLowerCase (trim u) = toLowerCase (trim u').
Proof.
  intros (pre & core & suf & pre' & core' & suf' & -> & -> & ? & ? & ? & ? & Hsame).
  rewrite !trim_wrapped by done. by apply sameLetters_normalized.
Qed.

(** Conversely, two names with the same normal form differ only in letter
    case and in outer white space. *)
Lemma capital_lower_code c :
  isCapital c = true →
  nat_of_ascii (lowerChar c) = (nat_of_ascii c + 32)%nat
  ∧ isCapital (lowerChar c) = false.
Proof.
  destruct c as [[] [] [] [] [] [] [] []]; vm_compute; intros H;
    try discriminate H; by split.
Qed.

Lemma lowerChar_plain c : isCapital c = false → lowerChar c = c.
Proof. unfold isCapital, lowerChar. cbv zeta. by intros ->. Qed.

Lemma lowerChar_sameLetter c d : lowerChar c = lowerChar d → sameLetter c d = true.
Proof.
  intros Heq. unfold sameLetter.
  destruct (isCapital c) eqn:Hc, (isCapital d) eqn:Hd; simpl.
  - destruct (capital_lower_code c Hc) as [Hcc _], (capital_lower_code d Hd) as [Hdd _].
    rewrite Heq, Hdd in Hcc.
    assert (c = d) as ->.
    { rewrite <- (ascii_nat_embedding c), <- (ascii_nat_embedding d). f_equal. lia. }
    by rewrite Ascii.eqb_refl.
  - destruct (capital_lower_code c Hc) as [Hcc _].
    rewrite Heq, (lowerChar_plain d Hd) in Hcc. rewrite Hcc, Nat.eqb_refl.
    by rewrite !orb_true_r.
  - destruct (capital_lower_code d Hd) as [Hdd _].
    rewrite <- Heq, (lowerChar_plain c Hc) in Hdd. rewrite Hdd, Nat.eqb_refl.
    by rewrite !orb_true_r.
  - rewrite (lowerChar_plain c Hc), (lowerChar_plain d Hd) in Heq. subst.
    by rewrite Ascii.eqb_refl.
Qed.

Lemma toLowerCase_sameLetters s t :
  toLowerCase s = toLowerCase t → sameLetters s t = true.
Proof.
  revert t. induction s as [|c s IH]; intros [|d t]; simpl; try done.
  intros [= Hcd Hst]. by rewrite lowerChar_sameLetter, IH.
Qed.

Lemma append_assoc_string a b c : (a +:+ b) +:+ c = a +:+ b +:+ c.
Proof. induction a as [|x a IH]; [done|]. by rewrite !append_cons, IH. Qed.

Lemma trimEnd_decompose s :
  ∃ suf, s = trimEnd s +:+ suf ∧ allWhiteSpace suf = true.
Proof.
  induction s as [|c s (suf & Hs & Hsuf)]; [by exists EmptyString|].
  simpl. destruct (trimEnd s) as [|c' r] eqn:Hr.
  - rewrite append_empty in Hs. subst suf.
    destruct (isWhiteSpace c) eqn:Hc.
    + exists (String c s). rewrite append_empty. simpl. by rewrite Hc.
    + by exists s.
  - exists suf. rewrite append_cons. by rewrite <- Hs.
Qed.

Lemma trimStart_decompose s :
  ∃ pre, s = pre +:+ trimStart s ∧ allWhiteSpace pre = true.
Proof.
  induction s as [|c s (pre & Hs & Hpre)]; [by exists EmptyString|].
  simpl. destruct (isWhiteSpace c) eqn:Hc.
  - exists (String c pre). rewrite append_cons, <- Hs. simpl. by rewrite Hc.
  - by exists EmptyString.
Qed.

Lemma trim_decompose s :
  ∃ pre suf, s = pre +:+ trim s +:+ suf
             ∧ allWhiteSpace pre = true ∧ allWhiteSpace suf = true.
Proof.
  destruct (trimEnd_decompose s) as (suf & Hs & Hsuf).
  destruct (trimStart_decompose (trimEnd s)) as (pre & He & Hpre).
  exists pre, suf. split; [|done]. unfold trim.
  by rewrite <- append_assoc_string, <- He.
Qed.

Lemma normalized_differOnlyInCaseAndSpace u u' :
  toLowerCase (trim u) = toLowerCase (trim u') → differOnlyInCaseAndSpace u u'.
Proof.
  intros Hnorm.
  destruct (trim_decompose u) as (pre & suf & Hu & Hpre & Hsuf).
  destruct (trim_decompose u') as (pre' & suf' & Hu' & Hpre' & Hsuf').
  exists pre, (trim u), suf, pre', (trim u'), suf'.
  split_and!; try done. by apply toLowerCase_sameLetters.
Qed.

Lemma sameNormalForm_true u w :
  differOnlyInCaseAndSpace u w →
  String.eqb (toLowerCase (trim u)) (toLowerCase (trim w)) = true.
Proof. intros H. by apply String.eqb_eq, differOnlyInCaseAndSpace_normalized. Qed.

Lemma sameNormalForm_false u w :
  ¬ differOnlyInCaseAndSpace u w →
  String.eqb (toLowerCase (trim u)) (toLowerCase (trim w)) = false.
Proof.
  intros H. apply String.eqb_neq. intros Heq.
  by apply H, normalized_differOnlyInCaseAndSpace.
Qed.

(** A call whose outcome is resolved counts it at every visited position. *)
Lemma ingestGamePgn_gain `{E : RulesEngine} username pgn o idx fen :
  gameOutcome username pgn = Some o → fen ∈ visitedPositions pgn →
  resultCount o (getResultStats (ingestGamePgn username pgn idx) fen)
  = resultCount o (getResultStats idx fen) + 1.
Proof.
  intros Ho Hfen.
  destruct (gameOutcome_replay username pgn o idx Ho)
    as (chess & userLower & whiteName & blackName & Hload & ->).
  unfold visitedPositions in Hfen. rewrite Hload in Hfen.
  rewrite pgnLoop_results, decide_True; [done|].
  split_and!; [done|done|apply not_elem_of_empty].
Qed.

(** C10.  [ingestGamePgn] compares the trimmed, lower-cased identity with the
    trimmed, lower-cased White and Black headers.  Two identities that
    differ only in letter case and in leading or trailing white space leave
    the same index for every game record and every index; so do two game
    records with the same moves and result whose White and Black names
    differ only in that way.  And the comparison is exactly that one: with
    the tag [1-0] the call counts a win at every visited position when the
    identity is the White name up to case and outer white space, and a loss
    when it is the Black name and not the White one; with [0-1] the same
    with the colours exchanged; and with a decisive tag the call leaves the
    index as it is when the identity is neither name up to case and outer
    white space. *)
Theorem ingestGamePgn_identity_normalized `{E : RulesEngine} u u' pgn idx :
  differOnlyInCaseAndSpace u u' →
  ingestGamePgn u pgn idx = ingestGamePgn u' pgn idx
  ∧ ∀ chess, chess_loadPgn newChess pgn = Some chess →
      let white := header (chess_getHeaders chess) "White" in
      let black := header (chess_getHeaders chess) "Black" in
      let resultTag := trim (header (chess_getHeaders chess) "Result") in
      let gains o :=
        ∀ fen, fen ∈ visitedPositions pgn →
               resultCount o (getResultStats (ingestGamePgn u pgn idx) fen)
               = resultCount o (getResultStats idx fen) + 1 in
      (∀ pgn' chess',
          chess_loadPgn newChess pgn' = Some chess' →
          chess_history chess' = chess_history chess →
          header (chess_getHeaders chess') "Result"
          = header (chess_getHeaders chess) "Result" →
          differOnlyInCaseAndSpace white (header (chess_getHeaders chess') "White") →
          differOnlyInCaseAndSpace black (header (chess_getHeaders chess') "Black") →
          ingestGamePgn u' pgn' idx = ingestGamePgn u pgn idx)
      ∧ (resultTag = "1-0" → differOnlyInCaseAndSpace u white → gains Win)
      ∧ (resultTag = "1-0" → ¬ differOnlyInCaseAndSpace u white →
         differOnlyInCaseAndSpace u black → gains Loss)
      ∧ (resultTag = "0-1" → differOnlyInCaseAndSpace u black → gains Win)
      ∧ (resultTag = "0-1" → ¬ differOnlyInCaseAndSpace u black →
         differOnlyInCaseAndSpace u white → gains Loss)
      ∧ (decisive resultTag = true →
         ¬ differOnlyInCaseAndSpace u white → ¬ differOnlyInCaseAndSpace u black →
         ingestGamePgn u pgn idx = idx).
Proof.
  intros Hnorm. pose proof (differOnlyInCaseAndSpace_normalized _ _ Hnorm) as Hn.
  split; [unfold ingestGamePgn; by rewrite Hn|].
  intros chess Hload white black resultTag gains.
  assert (∀ o, gameOutcome u pgn = Some o → gains o) as Hgain.
  { intros o Ho fen Hfen. by apply ingestGamePgn_gain. }
  assert (gameOutcome u pgn
          = if decisive resultTag then
              if negb (String.eqb (toLowerCase (trim u)) (toLowerCase (trim white)))
                 && negb (String.eqb (toLowerCase (trim u)) (toLowerCase (trim black)))
              then None
              else outcomeOf resultTag
                     (String.eqb (toLowerCase (trim u)) (toLowerCase (trim white)))
                     (String.eqb (toLowerCase (trim u)) (toLowerCase (trim black)))
            else None) as Hout.
  { unfold gameOutcome. by rewrite Hload. }
  split_and!.
  - intros pgn' chess' Hload' Hhist Hres Hw Hb.
    apply differOnlyInCaseAndSpace_normalized in Hw, Hb.
    unfold ingestGamePgn. rewrite Hload, Hload', Hhist, Hres, <- Hn.
    fold white black in Hw, Hb |- *. by rewrite <- Hw, <- Hb.
  - intros Htag Hw. apply Hgain. rewrite Hout, Htag, (sameNormalForm_true u white Hw).
    done.
  - intros Htag Hnw Hb. apply Hgain.
    rewrite Hout, Htag, (sameNormalForm_false u white Hnw), (sameNormalForm_true u black Hb).
    done.
  - intros Htag Hb. apply Hgain. rewrite Hout, Htag, (sameNormalForm_true u black Hb).
    by destruct (String.eqb _ _).
  - intros Htag Hnb Hw. apply Hgain.
    rewrite Hout, Htag, (sameNormalForm_false u black Hnb), (sameNormalForm_true u white Hw).
    done.
  - intros Hdec Hnw Hnb. unfold ingestGamePgn. rewrite Hload. cbv zeta.
    fold white black resultTag.
    by rewrite Hdec, (sameNormalForm_false u white Hnw), (sameNormalForm_false u black Hnb).
Qed.

Lemma ingestGamePgn_identity_normalized_witness :
  let state := {| position := Table.fenE4E5;
                  headers := [("White", " Alice "); ("Black", "BOB"); ("Result", "1-0")];
                  history := ["e4"; "e5"] |} in
  let viaPadded := ingestGamePgn (E:=Styled.engine) "  Alice " Styled.pgnStyled emptyIndex in
  (differOnlyInCaseAndSpace "  Alice " "aLICE"
   ∧ differOnlyInCaseAndSpace "cAROL" "carol "
   ∧ chess_loadPgn (RulesEngine:=Styled.engine) newChess Styled.pgnStyled = Some state
   ∧ Table.startFen ∈ visitedPositions (E:=Styled.engine) Styled.pgnStyled)
  ∧ viaPadded = ingestGamePgn (E:=Styled.engine) "aLICE" Styled.pgnStyled emptyIndex
  ∧ ingestGamePgn (E:=Styled.engine) "aLICE" Table.pgnAliceBob emptyIndex = viaPadded
  ∧ resultCount Win (getResultStats viaPadded Table.startFen)
    = resultCount Win (getResultStats emptyIndex Table.startFen) + 1
  ∧ ingestGamePgn (E:=Styled.engine) "cAROL" Styled.pgnStyled emptyIndex = emptyIndex.
Proof.
  intros state viaPadded.
  assert (differOnlyInCaseAndSpace "  Alice " "aLICE") as Halice.
  { exists "  ", "Alice", " ", "", "aLICE", "". by repeat split. }
  assert (differOnlyInCaseAndSpace "cAROL" "carol ") as Hcarol.
  { exists "", "cAROL", "", "", "carol", " ". by repeat split. }
  assert (differOnlyInCaseAndSpace "  Alice " " Alice ") as Hwhite.
  { exists "  ", "Alice", " ", " ", "Alice", " ". by repeat split. }
  assert (differOnlyInCaseAndSpace " Alice " "alice") as Hwhite'.
  { exists " ", "Alice", " ", "", "alice", "". by repeat split. }
  assert (differOnlyInCaseAndSpace "BOB" "bob") as Hblack'.
  { exists "", "BOB", "", "", "bob", "". by repeat split. }
  assert (∀ w, toLowerCase (trim "cAROL") ≠ toLowerCase (trim w) →
               ¬ differOnlyInCaseAndSpace "cAROL" w) as Hno.
  { intros w Hne H. by apply Hne, differOnlyInCaseAndSpace_normalized. }
  assert (Table.startFen ∈ visitedPositions (E:=Styled.engine) Styled.pgnStyled) as Hfen
    by apply list_elem_of_here.
  destruct (ingestGamePgn_identity_normalized (E:=Styled.engine)
              "  Alice " "aLICE" Styled.pgnStyled emptyIndex Halice) as [Hsame Hgame].
  destruct (Hgame state eq_refl) as (Hrecords & Hwin & _).
  destruct (ingestGamePgn_identity_normalized (E:=Styled.engine)
              "cAROL" "carol " Styled.pgnStyled emptyIndex Hcarol) as [_ Hother].
  destruct (Hother state eq_refl) as (_ & _ & _ & _ & _ & Hskip).
  split; [by repeat split|]. split_and!.
  - exact Hsame.
  - exact (Hrecords Table.pgnAliceBob _ eq_refl eq_refl eq_refl Hwhite' Hblack').
  - exact (Hwin eq_refl Hwhite Table.startFen Hfen).
  - apply Hskip; [reflexivity|apply Hno; by vm_compute..].
Defined.

(** ** The store of bucket objects denotes the index value *)

Lemma deref_alter_eq f l (h : list PositionBucket) :
  (l < List.length h)%nat → Ref.deref (alter f l h) l = f (Ref.deref h l).
Proof.
  intros Hl. unfold Ref.deref. rewrite list_lookup_alter_eq.
  destruct (lookup_lt_is_Some_2 h l Hl) as [b ->]. done.
Qed.

Lemma deref_alter_ne f l l' (h : list PositionBucket) :
  l ≠ l' → Ref.deref (alter f l h) l' = Ref.deref h l'.
Proof. intros Hne. unfold Ref.deref. by rewrite list_lookup_alter_ne. Qed.

Lemma map_get_denote s fen :
  map_get fen (Ref.denote s) = Ref.deref (Ref.heap s) <$> map_get fen (Ref.index s).
Proof.
  unfold Ref.denote. induction (Ref.index s) as [|[k l] ix IH]; simpl; [done|].
  by destruct (String.eqb fen k).
Qed.

Lemma map_get_Some_snd {V} k (v : V) m : map_get k m = Some v → v ∈ m.*2.
Proof.
  intros H%map_get_Some_elem. apply list_elem_of_fmap. by exists (k, v).
Qed.

(** A mutation through a stored reference is a [set] of the mutated bucket
    at the position that holds the reference. *)
Lemma denote_write s fen l f :
  Ref.wf s → map_get fen (Ref.index s) = Some l →
  Ref.denote (Ref.write l f s)
  = map_set fen (f (Ref.deref (Ref.heap s) l)) (Ref.denote s).
Proof.
  destruct s as [h ix]. unfold Ref.wf, Ref.denote, Ref.write. simpl.
  intros (_ & Hnd & Hbound). revert Hnd Hbound.
  induction ix as [|[k l'] ix IH]; simpl; [done|].
  intros [Hl' Hnd]%NoDup_cons Hbound.
  destruct (String.eqb_spec fen k) as [->|Hne].
  - intros [= ->]. rewrite deref_alter_eq by (apply Hbound, list_elem_of_here).
    f_equal. apply list_fmap_ext. intros i [k' l''] Hi. simpl. f_equal.
    apply deref_alter_ne. intros ->. apply Hl'.
    apply list_elem_of_fmap. exists (k', l''). split; [done|].
    by apply list_elem_of_lookup_2 in Hi.
  - intros Hget. rewrite deref_alter_ne.
    + f_equal. apply IH; [done| |done].
      intros l0 Hl0. by apply Hbound, list_elem_of_further.
    + intros ->. by apply Hl', (map_get_Some_snd fen).
Qed.

Lemma wf_write s l f : Ref.wf s → Ref.wf (Ref.write l f s).
Proof.
  unfold Ref.wf, Ref.write. simpl. intros (? & ? & Hb). split_and!; [done|done|].
  intros l0 Hl0. rewrite length_alter. by apply Hb.
Qed.

Lemma findOrCreate_spec fen s :
  Ref.wf s →
  let '(l, s') := Ref.findOrCreate fen s in
  Ref.wf s' ∧ map_get fen (Ref.index s') = Some l
  ∧ Ref.denote s'
    = match map_get fen (Ref.denote s) with
      | Some _ => Ref.denote s
      | None => Ref.denote s ++ [(fen, newBucket)]
      end
  ∧ Ref.deref (Ref.heap s') l = default newBucket (map_get fen (Ref.denote s)).
Proof.
  intros (Hmap & Hnd & Hbound). unfold Ref.findOrCreate.
  rewrite map_get_denote. destruct (map_get fen (Ref.index s)) as [l|] eqn:Hget; simpl.
  { by repeat split. }
  assert (∀ l, l ∈ (Ref.index s).*2 →
            Ref.deref (Ref.heap s ++ [newBucket]) l = Ref.deref (Ref.heap s) l) as Hold.
  { intros l Hl. unfold Ref.deref. by rewrite lookup_app_l by by apply Hbound. }
  split_and!.
  - split_and!; simpl.
    + by apply isMap_set.
    + rewrite map_set_fresh, fmap_app by done. apply NoDup_app. split_and!; [done| |apply NoDup_singleton].
      intros l Hl ->%list_elem_of_singleton. apply Hbound in Hl. simpl in Hl. lia.
    + rewrite map_set_fresh, fmap_app, length_app by done. simpl.
      intros l [Hl| ->%list_elem_of_singleton]%elem_of_app; [apply Hbound in Hl|];
        simpl; lia.
  - apply map_get_set_eq.
  - unfold Ref.denote. simpl. rewrite map_set_fresh, fmap_app by done. simpl.
    f_equal.
    + apply list_fmap_ext. intros i [k l] Hi. simpl. f_equal. apply Hold.
      apply list_elem_of_fmap. exists (k, l). split; [done|].
      by apply list_elem_of_lookup_2 in Hi.
    + unfold Ref.deref. by rewrite lookup_app_r, Nat.sub_diag.
  - unfold Ref.deref. by rewrite lookup_app_r, Nat.sub_diag.
Qed.

Lemma findOrCreate_then_write fen s f :
  Ref.wf s →
  let '(l, s') := Ref.findOrCreate fen s in
  Ref.wf (Ref.write l f s')
  ∧ Ref.denote (Ref.write l f s')
    = map_set fen (f (default newBucket (map_get fen (Ref.denote s)))) (Ref.denote s).
Proof.
  intros Hwf. pose proof (findOrCreate_spec fen s Hwf) as Hspec.
  destruct (Ref.findOrCreate fen s) as [l s'].
  destruct Hspec as (Hwf' & Hget & Hden & Hderef).
  split; [by apply wf_write|].
  rewrite (denote_write s' fen l f) by done. rewrite Hderef, Hden.
  destruct (map_get fen (Ref.denote s)) eqn:Hold; [done|]. simpl.
  rewrite (map_set_fresh fen _ (Ref.denote s)) by done.
  by apply map_set_last.
Qed.

(** [addMove] and [addResult] on the store are [addMove] and [addResult]
    on the value it denotes. *)
Lemma denote_addMove fen p byUser color s :
  Ref.wf s →
  Ref.wf (Ref.addMove fen p byUser color s)
  ∧ Ref.denote (Ref.addMove fen p byUser color s)
    = addMove fen p byUser color (Ref.denote s).
Proof.
  intros Hwf. unfold Ref.addMove, addMove.
  pose proof (findOrCreate_then_write fen s (recordMove p byUser color) Hwf) as H.
  destruct (Ref.findOrCreate fen s) as [l s']. destruct H as [Hwf' ->].
  split; [done|]. by destruct (map_get fen (Ref.denote s)).
Qed.

Lemma denote_addResult fen o s :
  Ref.wf s →
  Ref.wf (Ref.addResult fen o s)
  ∧ Ref.denote (Ref.addResult fen o s) = addResult fen o (Ref.denote s).
Proof.
  intros Hwf. unfold Ref.addResult, addResult.
  pose proof (findOrCreate_then_write fen s (recordResult o) Hwf) as H.
  destruct (Ref.findOrCreate fen s) as [l s']. destruct H as [Hwf' ->].
  split; [done|]. by destruct (map_get fen (Ref.denote s)).
Qed.

Lemma wf_empty : Ref.wf Ref.empty.
Proof.
  unfold Ref.wf, isMap. simpl. split_and!; try apply NoDup_nil_2.
  by intros l ?%elem_of_nil.
Qed.

(** The queries read the store as they read the value it denotes. *)
Lemma denote_getTopMoves s fen limit :
  Ref.getTopMoves s fen limit = getTopMoves (Ref.denote s) fen limit.
Proof.
  unfold Ref.getTopMoves, getTopMoves. rewrite map_get_denote.
  by destruct (map_get fen (Ref.index s)).
Qed.

Lemma denote_getResultStats s fen :
  Ref.getResultStats s fen = getResultStats (Ref.denote s) fen.
Proof.
  unfold Ref.getResultStats, getResultStats. rewrite map_get_denote.
  by destruct (map_get fen (Ref.index s)).
Qed.

Lemma denote_serialize s : Ref.serialize s = serialize (Ref.denote s).
Proof.
  unfold Ref.serialize, serialize, Ref.denote.
  generalize (@nil (string * SerializedBucket)).
  induction (Ref.index s) as [|[k l] ix IH]; intros acc; simpl; [done|].
  by rewrite IH.
Qed.

(** ** Handles returned by [getBucket] *)

Lemma denote_keys s : (Ref.denote s).*1 = (Ref.index s).*1.
Proof. unfold Ref.denote. rewrite <- list_fmap_compose. by apply list_fmap_ext. Qed.

(** C9, as the claim states it, fails: the value returned by [getBucket] is
    the stored bucket.  After [ingestUciMoves(["e2e4"])] on a new index, the
    caller assigns 99 to [total] of the bucket it got for the starting
    position, or sets a key in its [moveCounts]; the next [getBucket],
    [serialize] and [getTopMoves] show the change. *)
Lemma getBucket_copy_counterexample :
  let e2e4 := {| from := "e2"; to := "e4"; promotion := None |} in
  let s := Ref.addMove Table.startFen e2e4 None None Ref.empty in
  let read s := total <$> (Ref.deref (Ref.heap s) <$> Ref.getBucket s Table.startFen) in
  Ref.wf s
  ∧ Ref.denote s = ingestUciMoves (E:=Table.engine) ["e2e4"] emptyIndex
  ∧ Ref.getBucket s Table.startFen = Some 0%nat
  ∧ read s = Some 1
  ∧ read (Ref.write 0 (assignTotal 99) s) = Some 99
  ∧ Ref.serialize (Ref.write 0 (assignTotal 99) s) ≠ Ref.serialize s
  ∧ Ref.getTopMoves (Ref.write 0 (moveCountsSet "a2a3" 7) s) Table.startFen 8
    ≠ Ref.getTopMoves s Table.startFen 8.
Proof.
  intros e2e4 s read. split_and!.
  - apply denote_addMove, wf_empty.
  - reflexivity.
  - reflexivity.
  - reflexivity.
  - reflexivity.
  - vm_compute. discriminate.
  - vm_compute. discriminate.
Qed.

(** C9, amended.  [getBucket] returns the stored bucket object: for every
    position that has a bucket, a mutation made through the returned value
    is what the following [getBucket], [getTopMoves], [getResultStats] and
    [serialize] calls observe at that position, and the buckets of all other
    positions stay as they were. *)
Theorem getBucket_live_handle (s : Ref.Store) fen l (f : PositionBucket → PositionBucket) :
  Ref.wf s → Ref.getBucket s fen = Some l →
  let b' := f (Ref.deref (Ref.heap s) l) in
  let s' := Ref.write l f s in
  Ref.getBucket s' fen = Some l
  ∧ Ref.deref (Ref.heap s') l = b'
  ∧ (∀ limit, Ref.getTopMoves s' fen limit = topMovesOf b' limit)
  ∧ Ref.getResultStats s' fen
    = {| rs_win := win (results b'); rs_loss := loss (results b');
         rs_draw := draw (results b');
         rs_total := win (results b') + loss (results b') + draw (results b') |}
  ∧ map_get fen (Ref.serialize s') = Some (serializeBucket b')
  ∧ (∀ fen', fen' ≠ fen →
       getBucket (Ref.denote s') fen' = getBucket (Ref.denote s) fen').
Proof.
  intros Hwf Hget b' s'. unfold Ref.getBucket in Hget.
  pose proof (denote_write s fen l f Hwf Hget) as Hden. fold b' s' in Hden.
  assert (Ref.deref (Ref.heap s') l = b') as Hderef.
  { destruct Hwf as (_ & _ & Hbound). apply deref_alter_eq, Hbound.
    by apply (map_get_Some_snd fen). }
  split_and!.
  - done.
  - done.
  - intros limit. unfold Ref.getTopMoves.
    change (Ref.index s') with (Ref.index s). by rewrite Hget, Hderef.
  - unfold Ref.getResultStats.
    change (Ref.index s') with (Ref.index s). by rewrite Hget, Hderef.
  - rewrite denote_serialize, serialize_fmap, map_get_fmap.
    + by rewrite Hden, map_get_set_eq.
    + unfold isMap. rewrite denote_keys. by destruct Hwf.
  - intros fen' Hne. unfold getBucket. by rewrite Hden, map_get_set_ne.
Qed.

Lemma getBucket_live_handle_witness :
  let e2e4 := {| from := "e2"; to := "e4"; promotion := None |} in
  let s := Ref.addMove Table.startFen e2e4 None None Ref.empty in
  let f := moveCountsSet "a2a3" 7 in
  let b' := f (Ref.deref (Ref.heap s) 0) in
  let s' := Ref.write 0 f s in
  moveCounts b' = [("e2e4", 1); ("a2a3", 7)]
  ∧ (Ref.getBucket s' Table.startFen = Some 0%nat
     ∧ Ref.deref (Ref.heap s') 0 = b'
     ∧ (∀ limit, Ref.getTopMoves s' Table.startFen limit = topMovesOf b' limit)
     ∧ Ref.getResultStats s' Table.startFen
       = {| rs_win := win (results b'); rs_loss := loss (results b');
            rs_draw := draw (results b');
            rs_total := win (results b') + loss (results b') + draw (results b') |}
     ∧ map_get Table.startFen (Ref.serialize s') = Some (serializeBucket b')
     ∧ (∀ fen', fen' ≠ Table.startFen →
          getBucket (Ref.denote s') fen' = getBucket (Ref.denote s) fen')).
Proof.
  intros e2e4 s f b' s'. split; [reflexivity|].
  apply (getBucket_live_handle s Table.startFen 0%nat f).
  - apply denote_addMove, wf_empty.
  - reflexivity.
Defined.

(** ** What the replay loops record, position by position *)

Lemma total_recordMove p byUser color b :
  total (recordMove p byUser color b) = total b + 1.
Proof. by destruct byUser as [[]|], color as [[]|]. Qed.

Lemma totalAt_addMove fen' p byUser color idx fen :
  totalAt (addMove fen' p byUser color idx) fen
  = totalAt idx fen + (if String.eqb fen' fen then 1 else 0).
Proof.
  unfold totalAt. destruct (String.eqb_spec fen' fen) as [->|Hne].
  - rewrite getBucket_addMove_eq, total_recordMove.
    by destruct (getBucket idx fen).
  - rewrite getBucket_addMove_ne by done. lia.
Qed.

Lemma totalAt_addResult fen' o idx fen :
  totalAt (addResult fen' o idx) fen = totalAt idx fen.
Proof.
  unfold totalAt. destruct (decide (fen' = fen)) as [->|Hne].
  - rewrite getBucket_addResult_eq.
    destruct (recordResult_counters o (default newBucket (getBucket idx fen))) as [-> _].
    by destruct (getBucket idx fen).
  - by rewrite getBucket_addResult_ne.
Qed.

Section Replayed.
Context {E : RulesEngine}.

(** [ingestUciMoves] counts a move at every position of [uciPositions]:
    the positions before the accepted moves and the position in which the
    first refused move was tried. *)
Lemma uciLoop_totalAt chess uciMoves idx fen :
  totalAt (uciLoop chess uciMoves idx) fen
  = totalAt idx fen + occurrences fen (uciPositions chess uciMoves).
Proof.
  revert chess idx. induction uciMoves as [|uci rest IH]; intros chess idx; simpl; [lia|].
  destruct (chess_move chess (uciParams uci)) as [[chess' m]|]; simpl.
  - rewrite IH, totalAt_addMove. lia.
  - rewrite totalAt_addMove. lia.
Qed.

Lemma uciPositions_refused chess uciMoves :
  uciPositions chess uciMoves
  = (uciLegalPlies chess uciMoves).1.*1
    ++ (if decide (List.length (uciLegalPlies chess uciMoves).1 < List.length uciMoves)%nat
        then [chess_fen (uciLegalPlies chess uciMoves).2] else []).
Proof.
  revert chess. induction uciMoves as [|uci rest IH]; intros chess; simpl; [done|].
  destruct (chess_move chess (uciParams uci)) as [[chess' m]|]; simpl.
  - rewrite IH. destruct (uciLegalPlies chess' rest) as [plies final]. simpl.
    f_equal. f_equal. apply decide_ext. lia.
  - done.
Qed.

(** [ingestSanMoves] records the accepted prefix and nothing else. *)
Lemma sanLoop_valid_prefix chess sanMoves idx :
  sanLoop chess sanMoves idx
  = foldl (fun idx ply => addMove ply.1 (moveParams ply.2) None None idx)
          idx (sanPlies chess sanMoves).
Proof.
  revert chess idx. induction sanMoves as [|san rest IH]; intros chess idx; simpl; [done|].
  destruct (chess_moveSan chess san) as [[chess' m]|]; simpl; [|done].
  by rewrite IH.
Qed.

Lemma sanLoop_totalAt chess sanMoves idx fen :
  totalAt (sanLoop chess sanMoves idx) fen
  = totalAt idx fen + occurrences fen (sanPositions chess sanMoves).
Proof.
  revert chess idx. induction sanMoves as [|san rest IH]; intros chess idx; simpl; [lia|].
  destruct (chess_moveSan chess san) as [[chess' m]|]; simpl; [|lia].
  rewrite IH, totalAt_addMove. lia.
Qed.

Lemma pgnLoop_totalAt userLower whiteName blackName outcome walker moves seen idx fen :
  totalAt (pgnLoop userLower whiteName blackName outcome walker moves seen idx) fen
  = totalAt idx fen + occurrences fen (sanPositions walker moves).
Proof.
  revert walker seen idx.
  induction moves as [|san rest IH]; intros walker seen idx; simpl; [lia|].
  destruct (chess_moveSan walker san) as [[walker' m]|]; simpl; [|lia].
  destruct outcome as [o|]; [case_bool_decide|]; rewrite IH;
    rewrite ?totalAt_addResult, totalAt_addMove; lia.
Qed.

(** The part of the skip rule that the code implements: a game with a
    decisive result tag in which the identity is on neither side. *)
Lemma ingestGamePgn_skips_decided username pgn idx :
  decisive (resultTagOf pgn) = true →
  matchesWhite username pgn = false → matchesBlack username pgn = false →
  ingestGamePgn username pgn idx = idx.
Proof.
  unfold resultTagOf, matchesWhite, matchesBlack, ingestGamePgn.
  destruct (chess_loadPgn newChess pgn) as [chess|]; [|done].
  simpl. by intros -> -> ->.
Qed.

(** With any other result tag the identity is not consulted before the
    replay: every visited position gets its move counted. *)
Lemma ingestGamePgn_undecided username pgn idx fen :
  is_Some (chess_loadPgn newChess pgn) →
  decisive (resultTagOf pgn) = false →
  totalAt (ingestGamePgn username pgn idx) fen
  = totalAt idx fen + occurrences fen (visitedPositions pgn).
Proof.
  unfold resultTagOf, visitedPositions, ingestGamePgn.
  intros [chess ->]. simpl. intros ->. apply pgnLoop_totalAt.
Qed.
End Replayed.

(** C1 at the failing input.  The record of bob against carol parses, its
    result tag is ["*"], and the identity "alice" matches neither header;
    yet [ingestGamePgn] creates two buckets on a new index and counts both
    moves as moves of the opponent. *)
Theorem ingestGamePgn_unrelated_game_indexed :
  let idx := ingestGamePgn (E:=Table.engine) "alice" Table.pgnBobCarol emptyIndex in
  is_Some (chess_loadPgn (RulesEngine:=Table.engine) newChess Table.pgnBobCarol)
  ∧ resultTagOf (E:=Table.engine) Table.pgnBobCarol = "*"
  ∧ matchesWhite (E:=Table.engine) "alice" Table.pgnBobCarol = false
  ∧ matchesBlack (E:=Table.engine) "alice" Table.pgnBobCarol = false
  ∧ size emptyIndex = 0%nat ∧ size idx = 2%nat
  ∧ (total <$> getBucket idx Table.startFen) = Some 1
  ∧ (oppTotal <$> getBucket idx Table.startFen) = Some 1
  ∧ (moveCounts <$> getBucket idx Table.startFen) = Some [("e2e4", 1)]
  ∧ (oppTotal <$> getBucket idx Table.fenE4) = Some 1.
Proof. intros idx. split_and!; try reflexivity. by eexists. Qed.

(** C2 at the failing input.  In ["e2e4"; "e7e5"; "e2e4"] the third move is
    the first one the engine refuses.  [ingestUciMoves] has already counted
    it in the bucket of the position after 1. e4 e5, a bucket that the two
    valid plies alone do not create; [ingestSanMoves] on the same game stops
    with the valid prefix. *)
Theorem ingestUciMoves_records_refused_move :
  let moves := ["e2e4"; "e7e5"; "e2e4"] in
  let idx := ingestUciMoves (E:=Table.engine) moves emptyIndex in
  let prefix := ingestUciMoves (E:=Table.engine) (take 2 moves) emptyIndex in
  List.length (uciLegalPlies (E:=Table.engine) newChess moves).1 = 2%nat
  ∧ chess_fen (uciLegalPlies (E:=Table.engine) newChess moves).2 = Table.fenE4E5
  ∧ getBucket prefix Table.fenE4E5 = None
  ∧ (moveCounts <$> getBucket idx Table.fenE4E5) = Some [("e2e4", 1)]
  ∧ totalAt idx Table.fenE4E5 = 1
  ∧ size prefix = 2%nat ∧ size idx = 3%nat
  ∧ ingestSanMoves (E:=Table.engine) ["e4"; "e5"; "e4"] emptyIndex
    = ingestSanMoves (E:=Table.engine) ["e4"; "e5"] emptyIndex.
Proof. intros moves idx prefix. by split_and!. Qed.

(** ** The scenarios of the specification *)

(** Scenario A: the move list [e2e4], without identity. *)
Example scenario_basic_ingest :
  let idx := ingestUciMoves (E:=Table.engine) ["e2e4"] emptyIndex in
  getBucket idx Table.startFen
  = Some (recordMove {| from := "e2"; to := "e4"; promotion := None |} None None newBucket)
  ∧ (total <$> getBucket idx Table.startFen) = Some 1
  ∧ (moveCounts <$> getBucket idx Table.startFen) = Some [("e2e4", 1)]
  ∧ (userTotal <$> getBucket idx Table.startFen) = Some 0
  ∧ (oppTotal <$> getBucket idx Table.startFen) = Some 0.
Proof. by repeat split. Qed.

(** Scenario B: alice beats bob with 1. e4 e5, tracked identity "alice". *)
Example scenario_identity_and_outcome :
  let idx := ingestGamePgn (E:=Table.engine) "alice" Table.pgnAliceBob emptyIndex in
  let first := default newBucket (getBucket idx Table.startFen) in
  let second := default newBucket (getBucket idx Table.fenE4) in
  size idx = 2%nat
  ∧ (total first = 1 ∧ userTotal first = 1 ∧ userWhiteTotal first = 1
     ∧ win (results first) = 1)
  ∧ (total second = 1 ∧ oppTotal second = 1 ∧ oppBlackTotal second = 1
     ∧ win (results second) = 1).
Proof. by repeat split. Qed.

(** Scenario C, for a finished game: carol is on neither side of alice
    against bob. *)
Example scenario_skip_unrelated_finished_game :
  ingestGamePgn (E:=Table.engine) "carol" Table.pgnAliceBob emptyIndex = emptyIndex.
Proof. reflexivity. Qed.

(** Scenario E: with identifiers that leave out the move clocks, the game
    1. Nf3 Nf6 2. Ng1 Ng8 3. e4 is at the starting position twice; its bucket
    counts two moves and one win. *)
Example scenario_repetition :
  let idx := ingestGamePgn (E:=Clockless.engine) "alice" Clockless.pgnShuffle emptyIndex in
  visitedPositions (E:=Clockless.engine) Clockless.pgnShuffle
  = [Clockless.start; Clockless.afterNf3; Clockless.afterNf6; Clockless.afterNg1;
     Clockless.start]
  ∧ (moveCounts <$> getBucket idx Clockless.start) = Some [("g1f3", 1); ("e2e4", 1)]
  ∧ getResultStats idx Clockless.start
    = {| rs_win := 1; rs_loss := 0; rs_draw := 0; rs_total := 1 |}.
Proof. by repeat split. Qed.

(** * Further properties of the index *)

(** ** Invariants of the role counters *)

Lemma recordMove_roleMarginals p byUser color b :
  roleMarginalsAgree b → roleMarginalsAgree (recordMove p byUser color b).
Proof.
  unfold roleMarginalsAgree. intros H. destruct_and! H.
  destruct byUser as [[]|], color as [[]|]; simpl;
    rewrite ?sum_values_incr; split_and!; lia.
Qed.

Lemma recordResult_roleMarginals o b :
  roleMarginalsAgree b → roleMarginalsAgree (recordResult o b).
Proof. by destruct o. Qed.

(** X1.  After any sequence of ingestion operations on a new index, each of
    the six role and role-and-colour groups of every bucket is consistent
    on its own: the group's total is the sum of the group's move counts and
    the sum of its target-square counts. *)
Theorem role_marginal_consistency `{E : RulesEngine} (ops : list Op) fen b :
  getBucket (runOps ops) fen = Some b →
  (userTotal b = sum_values (userMoveCounts b)
   ∧ userTotal b = sum_values (userToSquareCounts b))
  ∧ (oppTotal b = sum_values (oppMoveCounts b)
     ∧ oppTotal b = sum_values (oppToSquareCounts b))
  ∧ (userWhiteTotal b = sum_values (userWhiteMoveCounts b)
     ∧ userWhiteTotal b = sum_values (userWhiteToSquareCounts b))
  ∧ (userBlackTotal b = sum_values (userBlackMoveCounts b)
     ∧ userBlackTotal b = sum_values (userBlackToSquareCounts b))
  ∧ (oppWhiteTotal b = sum_values (oppWhiteMoveCounts b)
     ∧ oppWhiteTotal b = sum_values (oppWhiteToSquareCounts b))
  ∧ (oppBlackTotal b = sum_values (oppBlackMoveCounts b)
     ∧ oppBlackTotal b = sum_values (oppBlackToSquareCounts b)).
Proof.
  intros Hb.
  apply (runOps_buckets (fun _ => roleMarginalsAgree) (fun _ => True))
    with (ops := ops) (fen := fen);
    [ intros; by repeat split
    | intros; by apply recordMove_roleMarginals
    | intros; by apply recordMove_roleMarginals
    | intros; by apply recordResult_roleMarginals
    | intros; by apply Forall_true
    | done ].
Qed.

Lemma role_marginal_consistency_witness :
  let ops := [IngestGamePgn "alice" Table.pgnAliceBob;
              IngestGamePgn "bob" Table.pgnAliceBob;
              IngestUciMoves ["e2e4"]] in
  let b := bucketAt (runOps (E:=Table.engine) ops) Table.startFen in
  (total b = 3 ∧ userTotal b = 1 ∧ oppTotal b = 1)
  ∧ ((userTotal b = sum_values (userMoveCounts b)
      ∧ userTotal b = sum_values (userToSquareCounts b))
     ∧ (oppTotal b = sum_values (oppMoveCounts b)
        ∧ oppTotal b = sum_values (oppToSquareCounts b))
     ∧ (userWhiteTotal b = sum_values (userWhiteMoveCounts b)
        ∧ userWhiteTotal b = sum_values (userWhiteToSquareCounts b))
     ∧ (userBlackTotal b = sum_values (userBlackMoveCounts b)
        ∧ userBlackTotal b = sum_values (userBlackToSquareCounts b))
     ∧ (oppWhiteTotal b = sum_values (oppWhiteMoveCounts b)
        ∧ oppWhiteTotal b = sum_values (oppWhiteToSquareCounts b))
     ∧ (oppBlackTotal b = sum_values (oppBlackMoveCounts b)
        ∧ oppBlackTotal b = sum_values (oppBlackToSquareCounts b))).
Proof.
  intros ops b. split; [by repeat split|].
  apply (role_marginal_consistency (E:=Table.engine) ops Table.startFen b).
  reflexivity.
Defined.

(** ** Counts per key *)

Lemma countOf_incr k k' (m : list (string * Z)) :
  countOf k' (incr k m) = countOf k' m + (if String.eqb k k' then 1 else 0).
Proof.
  unfold countOf, incr. destruct (String.eqb_spec k k') as [->|Hne].
  - by rewrite map_get_set_eq.
  - rewrite map_get_set_ne by done. lia.
Qed.

Lemma recordMove_keysSplit p byUser color b :
  byUser = None ∨ is_Some color →
  keysSplit b → keysSplit (recordMove p byUser color b).
Proof.
  unfold keysSplit, keySplit. intros Hargs H k. specialize (H k).
  destruct byUser as [[]|], color as [[]|]; simpl;
    try (destruct Hargs as [?|[? ?]]; discriminate);
    rewrite ?countOf_incr;
    destruct (String.eqb (moveKey p) k), (String.eqb (to p) k); lia.
Qed.

Lemma recordMove_keysExhaust p byUser color b :
  keysExhaust b → keysExhaust (recordMove p (Some byUser) (Some color) b).
Proof.
  unfold keysExhaust. intros H k. specialize (H k).
  destruct byUser, color; simpl; rewrite ?countOf_incr;
    destruct (String.eqb (moveKey p) k), (String.eqb (to p) k); lia.
Qed.

(** X2.  The role split holds move by move and square by square: in every
    bucket, for every move key and every target square, the user's count
    plus the opponent's count is at most the global count, with equality
    at positions where no move was recorded without a role, and the white
    and black counts of each role add up to the role's count. *)
Theorem role_partition_per_key `{E : RulesEngine} (ops : list Op) fen b k :
  getBucket (runOps ops) fen = Some b →
  (countOf k (userMoveCounts b) + countOf k (oppMoveCounts b) <= countOf k (moveCounts b)
   ∧ countOf k (userToSquareCounts b) + countOf k (oppToSquareCounts b)
     <= countOf k (toSquareCounts b))
  ∧ ((∀ op, op ∈ ops → fen ∉ barePositions op) →
     countOf k (userMoveCounts b) + countOf k (oppMoveCounts b) = countOf k (moveCounts b)
     ∧ countOf k (userToSquareCounts b) + countOf k (oppToSquareCounts b)
       = countOf k (toSquareCounts b))
  ∧ (countOf k (userWhiteMoveCounts b) + countOf k (userBlackMoveCounts b)
     = countOf k (userMoveCounts b)
     ∧ countOf k (oppWhiteMoveCounts b) + countOf k (oppBlackMoveCounts b)
       = countOf k (oppMoveCounts b)
     ∧ countOf k (userWhiteToSquareCounts b) + countOf k (userBlackToSquareCounts b)
       = countOf k (userToSquareCounts b)
     ∧ countOf k (oppWhiteToSquareCounts b) + countOf k (oppBlackToSquareCounts b)
       = countOf k (oppToSquareCounts b)).
Proof.
  intros Hb.
  set (bare := fun f => ∃ op, op ∈ ops ∧ f ∈ barePositions op).
  set (P := fun f b => keysSplit b ∧ (¬ bare f → keysExhaust b)).
  assert (allBuckets P (runOps ops)) as Hall.
  { apply (runOps_buckets P bare).
    - intros f. split; [|intros _]; intros k0; unfold keySplit, countOf; simpl; lia.
    - intros f p b0 Hbare [Hs _]. split; [|done].
      apply recordMove_keysSplit; [by left|done].
    - intros f p byUser color b0 [Hs Hex]. split.
      + apply recordMove_keysSplit; [right; by eexists|done].
      + intros Hn. by apply recordMove_keysExhaust, Hex.
    - intros f o b0 [Hs Hex]. by destruct o.
    - intros op Hop. apply Forall_forall. intros f Hf. exists op. by split. }
  destruct (Hall fen b Hb) as [Hs Hex]. destruct (Hs k) as [(? & ? & ?) (? & ? & ?)].
  split_and!; try done.
  intros Hnone. apply Hex. intros (op & Hop & Hin). by apply (Hnone op).
Qed.

Lemma role_partition_per_key_witness :
  let ops := [IngestGamePgn "alice" Table.pgnAliceBob;
              IngestGamePgn "alice" Table.pgnBobCarol;
              IngestUciMoves ["d2d4"]] in
  let b := bucketAt (runOps (E:=Table.engine) ops) Table.fenE4 in
  let k := "e7e5" in
  (countOf k (moveCounts b) = 2 ∧ countOf k (oppMoveCounts b) = 2
   ∧ countOf k (oppBlackMoveCounts b) = 2)
  ∧ ((countOf k (userMoveCounts b) + countOf k (oppMoveCounts b) <= countOf k (moveCounts b)
      ∧ countOf k (userToSquareCounts b) + countOf k (oppToSquareCounts b)
        <= countOf k (toSquareCounts b))
     ∧ ((∀ op, op ∈ ops → Table.fenE4 ∉ barePositions (E:=Table.engine) op) →
        countOf k (userMoveCounts b) + countOf k (oppMoveCounts b) = countOf k (moveCounts b)
        ∧ countOf k (userToSquareCounts b) + countOf k (oppToSquareCounts b)
          = countOf k (toSquareCounts b))
     ∧ (countOf k (userWhiteMoveCounts b) + countOf k (userBlackMoveCounts b)
        = countOf k (userMoveCounts b)
        ∧ countOf k (oppWhiteMoveCounts b) + countOf k (oppBlackMoveCounts b)
          = countOf k (oppMoveCounts b)
        ∧ countOf k (userWhiteToSquareCounts b) + countOf k (userBlackToSquareCounts b)
          = countOf k (userToSquareCounts b)
        ∧ countOf k (oppWhiteToSquareCounts b) + countOf k (oppBlackToSquareCounts b)
          = countOf k (oppToSquareCounts b))).
Proof.
  intros ops b k. split; [by repeat split|].
  apply (role_partition_per_key (E:=Table.engine) ops Table.fenE4 b k). reflexivity.
Defined.

(** ** What a bucket holds once it exists *)

Lemma Forall_map_set {V} (P : string * V → Prop) k v m :
  P (k, v) → Forall P m → Forall P (map_set k v m).
Proof.
  intros Hkv. induction 1 as [|[k' v'] m Hhd Htl IH]; simpl.
  - by constructor.
  - destruct (String.eqb k k'); by constructor.
Qed.

Lemma countsPositive_incr k m : countsPositive m → countsPositive (incr k m).
Proof.
  intros Hm. apply Forall_map_set; [|done]. simpl.
  destruct (map_get k m) as [v|] eqn:Hget; simpl; [|lia].
  apply map_get_Some_elem in Hget.
  pose proof (proj1 (Forall_forall _ _) Hm (k, v) Hget) as Hv. simpl in Hv. lia.
Qed.

Lemma recordMove_positive p byUser color b :
  0 <= total b → allCountsPositive b → countersNonNegative b →
  1 <= total (recordMove p byUser color b)
  ∧ allCountsPositive (recordMove p byUser color b)
  ∧ countersNonNegative (recordMove p byUser color b).
Proof.
  unfold allCountsPositive, countersNonNegative. intros Ht Hp Hn.
  destruct_and! Hp. destruct_and! Hn.
  destruct byUser as [[]|], color as [[]|]; simpl;
    split_and!; try lia; try done; by apply countsPositive_incr.
Qed.

Lemma recordResult_positive o b :
  1 <= total b → allCountsPositive b → countersNonNegative b →
  1 <= total (recordResult o b)
  ∧ allCountsPositive (recordResult o b)
  ∧ countersNonNegative (recordResult o b).
Proof.
  unfold countersNonNegative. intros Ht Hp Hn. destruct_and! Hn.
  destruct o; simpl; split_and!; try done; lia.
Qed.

(** Index invariants whose [addResult] step needs the bucket to be there:
    in the replay loop [addResult] comes right after [addMove] for the same
    position. *)
Section ExistingBucketInvariant.
Context {E : RulesEngine}.
Variable Q : MoveIndex → Prop.
Hypothesis Q_empty : Q emptyIndex.
Hypothesis Q_move :
  ∀ fen p byUser color idx, Q idx → Q (addMove fen p byUser color idx).
Hypothesis Q_result :
  ∀ fen o idx, is_Some (getBucket idx fen) → Q idx → Q (addResult fen o idx).

Lemma pgnLoop_existing userLower whiteName blackName outcome walker moves seen idx :
  Q idx → Q (pgnLoop userLower whiteName blackName outcome walker moves seen idx).
Proof.
  revert walker seen idx.
  induction moves as [|san rest IH]; intros walker seen idx Hidx; simpl; [done|].
  destruct (chess_moveSan walker san) as [[walker' m]|]; [|done].
  destruct outcome as [o|]; [case_bool_decide|]; apply IH; try by apply Q_move.
  apply Q_result; [|by apply Q_move].
  rewrite getBucket_addMove_eq. by eexists.
Qed.

Lemma applyOp_existing op idx : Q idx → Q (applyOp op idx).
Proof.
  destruct op as [uciMoves|sanMoves|username pgn|]; simpl; intros Hidx.
  - apply (uciLoop_inv Q (fun _ => True)); [by intros; apply Q_move| |done].
    by apply Forall_true.
  - apply (sanLoop_inv Q (fun _ => True)); [by intros; apply Q_move| |done].
    by apply Forall_true.
  - unfold ingestGamePgn.
    destruct (chess_loadPgn newChess pgn) as [chess|]; [|done].
    repeat case_match; try done; by apply pgnLoop_existing.
  - done.
Qed.

Lemma runOps_existing ops : Q (runOps ops).
Proof.
  unfold runOps. induction ops as [|op ops IH] using rev_ind; [done|].
  rewrite foldl_app. simpl. by apply applyOp_existing.
Qed.
End ExistingBucketInvariant.

(** X3.  A bucket exists only where a move was recorded: after any sequence
    of ingestion operations on a new index every bucket has [total >= 1],
    every count stored in any of its fifteen count maps is at least 1, and
    no role counter or outcome counter is negative. *)
Theorem buckets_hold_moves `{E : RulesEngine} (ops : list Op) fen b :
  getBucket (runOps ops) fen = Some b →
  1 <= total b ∧ allCountsPositive b ∧ countersNonNegative b.
Proof.
  revert fen b.
  apply (runOps_existing
           (fun idx => ∀ fen b, getBucket idx fen = Some b →
                                1 <= total b ∧ allCountsPositive b ∧ countersNonNegative b)).
  - by intros fen b.
  - intros fen p byUser color idx Hidx fen' b.
    destruct (decide (fen = fen')) as [<-|Hne].
    + rewrite getBucket_addMove_eq. intros [= <-].
      destruct (getBucket idx fen) as [b0|] eqn:Hb0; simpl.
      * destruct (Hidx fen b0 Hb0) as (? & ? & ?). apply recordMove_positive; [lia|done|done].
      * apply recordMove_positive; [done| |].
        -- unfold allCountsPositive; simpl. split_and!; by constructor.
        -- unfold countersNonNegative; simpl. lia.
    + rewrite getBucket_addMove_ne by done. apply Hidx.
  - intros fen o idx [b0 Hb0] Hidx fen' b.
    destruct (decide (fen = fen')) as [<-|Hne].
    + rewrite getBucket_addResult_eq, Hb0. intros [= <-]. simpl.
      destruct (Hidx fen b0 Hb0) as (? & ? & ?). by apply recordResult_positive.
    + rewrite getBucket_addResult_ne by done. apply Hidx.
Qed.

Lemma buckets_hold_moves_witness :
  let ops := [IngestGamePgn "alice" Table.pgnAliceBob; IngestUciMoves ["zz"]] in
  let b := bucketAt (runOps (E:=Table.engine) ops) Table.startFen in
  moveCounts b = [("e2e4", 1); ("zz", 1)]
  ∧ (1 <= total b ∧ allCountsPositive b ∧ countersNonNegative b).
Proof.
  intros ops b. split; [reflexivity|].
  apply (buckets_hold_moves (E:=Table.engine) ops Table.startFen b). reflexivity.
Defined.

(** ** Buckets are never removed one by one *)

Lemma map_keys_set_prefix {V} k (v : V) m : map_keys m `prefix_of` map_keys (map_set k v m).
Proof.
  unfold map_keys. rewrite map_set_keys. destruct (map_get k m); [done|].
  by apply prefix_app_r.
Qed.

(** X4.  No ingestion operation removes or reorders a bucket: the position
    identifiers of the index before the call are a prefix, in the same
    insertion order, of those after it, so every position that had a
    bucket still has one.  Only [clear] removes buckets. *)
Theorem ingestion_keeps_buckets `{E : RulesEngine} (op : Op) (idx : MoveIndex) :
  op ≠ Clear →
  map_keys idx `prefix_of` map_keys (applyOp op idx)
  ∧ (size idx <= size (applyOp op idx))%nat
  ∧ ∀ fen, is_Some (getBucket idx fen) → is_Some (getBucket (applyOp op idx) fen).
Proof.
  intros Hop.
  set (Q := fun i : MoveIndex => map_keys idx `prefix_of` map_keys i).
  assert (∀ fen p byUser color i, Q i → Q (addMove fen p byUser color i)) as Hmove.
  { intros fen p byUser color i Hi. unfold Q, addMove.
    etrans; [exact Hi|]. apply map_keys_set_prefix. }
  assert (∀ fen o i, Q i → Q (addResult fen o i)) as Hres.
  { intros fen o i Hi. unfold Q, addResult.
    etrans; [exact Hi|]. apply map_keys_set_prefix. }
  assert (Q idx) as Hstart by (unfold Q; reflexivity).
  assert (Q (applyOp op idx)) as [more Hmore].
  { destruct op as [uciMoves|sanMoves|username pgn|]; simpl; [| | |done].
    - apply (uciLoop_inv Q (fun _ => True)); [by intros; apply Hmove| |exact Hstart].
      by apply Forall_true.
    - apply (sanLoop_inv Q (fun _ => True)); [by intros; apply Hmove| |exact Hstart].
      by apply Forall_true.
    - apply (ingestGamePgn_inv Q); [by intros; apply Hmove|exact Hres|exact Hstart]. }
  split_and!.
  - by exists more.
  - unfold size. rewrite <- !(length_fmap fst). unfold map_keys in Hmore.
    rewrite Hmore, length_app. lia.
  - intros fen Hsome. unfold getBucket in *. apply map_get_is_Some.
    apply map_get_is_Some in Hsome. unfold map_keys in Hmore. rewrite Hmore.
    apply elem_of_app. by left.
Qed.

Lemma ingestion_keeps_buckets_witness :
  let idx := ingestUciMoves (E:=Table.engine) ["d2d4"] emptyIndex in
  let op := IngestGamePgn "alice" Table.pgnAliceBob in
  (map_keys idx = [Table.startFen]
   ∧ map_keys (applyOp (E:=Table.engine) op idx) = [Table.startFen; Table.fenE4])
  ∧ (map_keys idx `prefix_of` map_keys (applyOp (E:=Table.engine) op idx)
     ∧ (size idx <= size (applyOp (E:=Table.engine) op idx))%nat
     ∧ ∀ fen, is_Some (getBucket idx fen) →
              is_Some (getBucket (applyOp (E:=Table.engine) op idx) fen)).
Proof.
  intros idx op. split; [by split|].
  apply (ingestion_keeps_buckets (E:=Table.engine) op idx). discriminate.
Defined.

(** ** Tallies of moves and outcomes *)

Section TallyFacts.
Context {E : RulesEngine}.

Lemma pgnLoop_results_none userLower whiteName blackName walker moves seen idx fen :
  getResultStats
    (pgnLoop userLower whiteName blackName None walker moves seen idx) fen
  = getResultStats idx fen.
Proof.
  revert walker seen idx.
  induction moves as [|san rest IH]; intros walker seen idx; simpl; [done|].
  destruct (chess_moveSan walker san) as [[walker' m]|]; [|done].
  by rewrite IH, getResultStats_addMove.
Qed.

Lemma ingestGamePgn_totalAt username pgn idx fen :
  totalAt (ingestGamePgn username pgn idx) fen
  = totalAt idx fen
    + occurrences fen (recordedPositions (IngestGamePgn username pgn)).
Proof.
  unfold recordedPositions, replayed, resultTagOf, matchesWhite, matchesBlack,
    visitedPositions, ingestGamePgn.
  destruct (chess_loadPgn newChess pgn) as [chess|]; simpl; [|lia].
  destruct (decisive _); simpl; [|apply pgnLoop_totalAt].
  destruct (negb _ && negb _); simpl; [lia|apply pgnLoop_totalAt].
Qed.

Lemma ingestGamePgn_results username pgn idx fen o :
  resultCount o (getResultStats (ingestGamePgn username pgn idx) fen)
  = resultCount o (getResultStats idx fen)
    + (if decide (gameOutcome username pgn = Some o ∧ fen ∈ visitedPositions pgn)
       then 1 else 0).
Proof.
  destruct (gameOutcome username pgn) as [o0|] eqn:Hout.
  - destruct (gameOutcome_replay username pgn o0 idx Hout)
      as (chess & userLower & whiteName & blackName & Hload & ->).
    unfold visitedPositions. rewrite Hload, pgnLoop_results. f_equal.
    apply decide_ext. split.
    + intros (-> & ? & _). by split.
    + intros ([= ->] & ?). split_and!; [done|done|apply not_elem_of_empty].
  - rewrite decide_False by (by intros [? _]).
    revert Hout. unfold gameOutcome, ingestGamePgn.
    destruct (chess_loadPgn newChess pgn) as [chess|]; simpl; [|intros; lia].
    destruct (decisive _); simpl; [|intros _; rewrite pgnLoop_results_none; lia].
    destruct (negb _ && negb _); simpl; [intros; lia|].
    intros ->. rewrite pgnLoop_results_none. lia.
Qed.

Lemma uciLoop_results chess uciMoves idx fen :
  getResultStats (uciLoop chess uciMoves idx) fen = getResultStats idx fen.
Proof.
  apply (uciLoop_inv (fun i => getResultStats i fen = getResultStats idx fen)
                     (fun _ => True)); [|by apply Forall_true|done].
  intros fen' p i _ Hi. by rewrite getResultStats_addMove.
Qed.

Lemma sanLoop_results chess sanMoves idx fen :
  getResultStats (sanLoop chess sanMoves idx) fen = getResultStats idx fen.
Proof.
  apply (sanLoop_inv (fun i => getResultStats i fen = getResultStats idx fen)
                     (fun _ => True)); [|by apply Forall_true|done].
  intros fen' p i _ Hi. by rewrite getResultStats_addMove.
Qed.
End TallyFacts.

(** X5.  [total] of a bucket is the number of moves recorded at its position
    since the last [clear]: one for every ply that [ingestSanMoves] or a
    replayed [ingestGamePgn] accepted there, and one for every ply that
    [ingestUciMoves] tried there; a position without a bucket has none. *)
Theorem total_counts_recorded_moves `{E : RulesEngine} (ops : list Op) fen :
  totalAt (runOps ops) fen = moveTally ops fen.
Proof.
  unfold runOps, moveTally. induction ops as [|op ops IH] using rev_ind; [done|].
  rewrite !foldl_app. simpl. rewrite <- IH.
  destruct op as [uciMoves|sanMoves|username pgn|]; simpl.
  - apply uciLoop_totalAt.
  - apply sanLoop_totalAt.
  - apply ingestGamePgn_totalAt.
  - done.
Qed.

(** X6.  Each outcome counter of a position is the number of
    [ingestGamePgn] calls since the last [clear] whose outcome for the
    tracked identity was that outcome and whose replay visited the
    position; [ingestUciMoves] and [ingestSanMoves] never change it.  *)
Theorem results_count_games `{E : RulesEngine} (ops : list Op) fen o :
  resultCount o (getResultStats (runOps ops) fen) = outcomeTally o ops fen.
Proof.
  unfold runOps, outcomeTally. induction ops as [|op ops IH] using rev_ind.
  { by destruct o. }
  rewrite !foldl_app. simpl. rewrite <- IH.
  destruct op as [uciMoves|sanMoves|username pgn|]; simpl.
  - unfold ingestUciMoves. by rewrite uciLoop_results.
  - unfold ingestSanMoves. by rewrite sanLoop_results.
  - apply ingestGamePgn_results.
  - by destruct o.
Qed.

(** ** Moves without a role *)

(** X7.  [ingestUciMoves] and [ingestSanMoves] write the global counters
    only: at every position the outcome counters and the six role and
    role-and-colour groups (total and both count maps) are what they were
    before the call, all zero and empty where the call created the bucket. *)
Theorem bare_ingestion_keeps_roles `{E : RulesEngine} (moves : list string)
    (idx : MoveIndex) fen :
  rolePart (bucketAt (ingestUciMoves moves idx) fen) = rolePart (bucketAt idx fen)
  ∧ rolePart (bucketAt (ingestSanMoves moves idx) fen) = rolePart (bucketAt idx fen).
Proof.
  set (Q := fun i : MoveIndex =>
              rolePart (bucketAt i fen) = rolePart (bucketAt idx fen)).
  assert (∀ fen' p i, True → Q i → Q (addMove fen' p None None i)) as Hmove.
  { intros fen' p i _ Hi. unfold Q, bucketAt in *.
    destruct (decide (fen' = fen)) as [->|Hne].
    - rewrite getBucket_addMove_eq. exact Hi.
    - by rewrite getBucket_addMove_ne. }
  split.
  - apply (uciLoop_inv Q (fun _ => True)); [done|by apply Forall_true|done].
  - apply (sanLoop_inv Q (fun _ => True)); [done|by apply Forall_true|done].
Qed.

(** ** The accepted prefix of a SAN list *)

Section AcceptedPrefix.
Context {E : RulesEngine}.

Lemma sanLoop_accepted chess sanMoves idx :
  sanLoop chess sanMoves idx
  = sanLoop chess (take (acceptedLength chess sanMoves) sanMoves) idx.
Proof.
  unfold acceptedLength. revert chess idx.
  induction sanMoves as [|san rest IH]; intros chess idx; simpl; [done|].
  destruct (chess_moveSan chess san) as [[chess' m]|] eqn:Hmove; simpl; [|done].
  by rewrite Hmove, <- IH.
Qed.

Lemma acceptedLength_take chess sanMoves :
  acceptedLength chess (take (acceptedLength chess sanMoves) sanMoves)
  = acceptedLength chess sanMoves.
Proof.
  unfold acceptedLength. revert chess.
  induction sanMoves as [|san rest IH]; intros chess; simpl; [done|].
  destruct (chess_moveSan chess san) as [[chess' m]|] eqn:Hmove; simpl; [|done].
  by rewrite Hmove; simpl; rewrite IH.
Qed.

Lemma acceptedLength_app chess sanMoves more :
  (acceptedLength chess sanMoves < List.length sanMoves)%nat →
  acceptedLength chess (sanMoves ++ more) = acceptedLength chess sanMoves.
Proof.
  unfold acceptedLength. revert chess.
  induction sanMoves as [|san rest IH]; intros chess; simpl; [lia|].
  destruct (chess_moveSan chess san) as [[chess' m]|]; simpl; [|done].
  intros Hlt. rewrite IH; [done|lia].
Qed.
End AcceptedPrefix.

(** X8.  [ingestSanMoves] stops at the first move the engine refuses and
    keeps what it recorded: the call equals the call on the accepted
    prefix of the list, and once a list contains a refused move, nothing
    appended to it changes the result. *)
Theorem ingestSanMoves_accepted_prefix `{E : RulesEngine} (sanMoves : list string)
    (idx : MoveIndex) :
  let n := acceptedLength newChess sanMoves in
  ingestSanMoves sanMoves idx = ingestSanMoves (take n sanMoves) idx
  ∧ acceptedLength newChess (take n sanMoves) = n
  ∧ ((n < List.length sanMoves)%nat →
     ∀ more, ingestSanMoves (sanMoves ++ more) idx = ingestSanMoves sanMoves idx).
Proof.
  intros n. subst n. unfold ingestSanMoves. split_and!.
  - apply sanLoop_accepted.
  - apply acceptedLength_take.
  - intros Hlt more.
    rewrite (sanLoop_accepted newChess (sanMoves ++ more)), (sanLoop_accepted newChess sanMoves).
    rewrite acceptedLength_app by done.
    rewrite take_app_le; [done|lia].
Qed.

Lemma ingestSanMoves_accepted_prefix_witness :
  let sanMoves := ["e4"; "Zz"; "e5"] in
  (acceptedLength (E:=Table.engine) newChess sanMoves = 1%nat
   ∧ (acceptedLength (E:=Table.engine) newChess sanMoves < List.length sanMoves)%nat)
  ∧ ∀ more, ingestSanMoves (E:=Table.engine) (sanMoves ++ more) emptyIndex
            = ingestSanMoves (E:=Table.engine) sanMoves emptyIndex.
Proof.
  intros sanMoves.
  assert (acceptedLength (E:=Table.engine) newChess sanMoves < List.length sanMoves)%nat
    as Hlt by (vm_compute; lia).
  split; [split; [reflexivity|exact Hlt]|].
  exact (proj2 (proj2 (ingestSanMoves_accepted_prefix (E:=Table.engine) sanMoves
                         emptyIndex)) Hlt).
Defined.

(** ** The current index and the first version *)

Lemma map_set_fmap {A B} (f : A → B) k v (m : list (string * A)) :
  (fun kv => (kv.1, f kv.2)) <$> map_set k v m
  = map_set k (f v) ((fun kv => (kv.1, f kv.2)) <$> m).
Proof.
  induction m as [|[k' v'] m IH]; simpl; [done|].
  destruct (String.eqb k k'); simpl; [done|]. f_equal. apply IH.
Qed.

Lemma map_set_same {V} k (v : V) m : map_get k m = Some v → map_set k v m = m.
Proof.
  induction m as [|[k' v'] m IH]; simpl; [done|].
  destruct (String.eqb_spec k k') as [->|Hne].
  - by intros [= ->].
  - intros H. by rewrite IH.
Qed.

Lemma globalPart_recordMove p byUser color b :
  globalPart (recordMove p byUser color b) = V1.recordMove p (globalPart b).
Proof. by destruct byUser as [[]|], color as [[]|]. Qed.

Lemma globalIndex_addMove fen p byUser color idx :
  globalIndex (addMove fen p byUser color idx) = V1.addMove fen p (globalIndex idx).
Proof.
  unfold globalIndex, addMove, V1.addMove.
  rewrite (map_set_fmap globalPart), (map_get_fmap globalPart), globalPart_recordMove.
  by destruct (map_get fen idx).
Qed.

Lemma globalIndex_addResult fen o idx :
  is_Some (getBucket idx fen) → globalIndex (addResult fen o idx) = globalIndex idx.
Proof.
  intros [b Hb]. unfold globalIndex, addResult, getBucket in *.
  rewrite Hb, (map_set_fmap globalPart). apply map_set_same.
  rewrite (map_get_fmap globalPart), Hb. by destruct o.
Qed.

Section Versions.
Context {E : RulesEngine}.

Lemma globalIndex_uciLoop chess uciMoves idx :
  globalIndex (uciLoop chess uciMoves idx) = V1.uciLoop chess uciMoves (globalIndex idx).
Proof.
  revert chess idx. induction uciMoves as [|uci rest IH]; intros chess idx; simpl; [done|].
  destruct (chess_move chess (uciParams uci)) as [[chess' m]|].
  - by rewrite IH, globalIndex_addMove.
  - by rewrite globalIndex_addMove.
Qed.

Lemma globalIndex_sanLoop chess sanMoves idx :
  globalIndex (sanLoop chess sanMoves idx) = V1.sanLoop chess sanMoves (globalIndex idx).
Proof.
  revert chess idx. induction sanMoves as [|san rest IH]; intros chess idx; simpl; [done|].
  destruct (chess_moveSan chess san) as [[chess' m]|]; [|done].
  by rewrite IH, globalIndex_addMove.
Qed.

Lemma globalIndex_pgnLoop userLower whiteName blackName outcome walker moves seen idx :
  globalIndex (pgnLoop userLower whiteName blackName outcome walker moves seen idx)
  = V1.sanLoop walker moves (globalIndex idx).
Proof.
  revert walker seen idx.
  induction moves as [|san rest IH]; intros walker seen idx; simpl; [done|].
  destruct (chess_moveSan walker san) as [[walker' m]|]; [|done].
  destruct outcome as [o|]; [case_bool_decide|]; rewrite IH;
    rewrite ?globalIndex_addResult, ?globalIndex_addMove; try done.
  rewrite getBucket_addMove_eq. by eexists.
Qed.

Lemma ingestGamePgn_cases username pgn idx :
  if replayed username pgn
  then ∃ chess userLower whiteName blackName outcome,
         chess_loadPgn newChess pgn = Some chess
         ∧ ingestGamePgn username pgn idx
           = pgnLoop userLower whiteName blackName outcome newChess
                     (chess_history chess) ∅ idx
  else ingestGamePgn username pgn idx = idx.
Proof.
  unfold replayed, resultTagOf, matchesWhite, matchesBlack, ingestGamePgn.
  destruct (chess_loadPgn newChess pgn) as [chess|]; [|done]. simpl.
  destruct (decisive _); simpl; [|by eauto 10].
  destruct (negb _ && negb _); simpl; [done|by eauto 10].
Qed.
End Versions.

(** X9.  On move lists the current index computes what the first version
    (src/lib/indexer.ts) computed: the four global fields of every bucket
    after [ingestUciMoves] or [ingestSanMoves], position by position and in
    the same insertion order, are the index that the first version builds
    from the same list on the same global fields. *)
Theorem current_refines_first_version `{E : RulesEngine} (moves : list string)
    (idx : MoveIndex) :
  globalIndex (ingestUciMoves moves idx) = V1.ingestUciMoves moves (globalIndex idx)
  ∧ globalIndex (ingestSanMoves moves idx) = V1.ingestSanMoves moves (globalIndex idx).
Proof. split; [apply globalIndex_uciLoop|apply globalIndex_sanLoop]. Qed.

(** X10.  The move counters do not depend on who is tracked.  When
    [ingestGamePgn] replays a game, the global fields ([total], [moveCounts],
    [toSquareCounts], [fromSquareCounts]) of every bucket are those that
    [ingestSanMoves] records for the game's move list, whatever the
    identity; when it does not replay the game, the index is unchanged. *)
Theorem ingestGamePgn_global_counters `{E : RulesEngine} username pgn (idx : MoveIndex) :
  (replayed username pgn = true →
   globalIndex (ingestGamePgn username pgn idx)
   = globalIndex (ingestSanMoves (historyOf pgn) idx))
  ∧ (replayed username pgn = false → ingestGamePgn username pgn idx = idx).
Proof.
  pose proof (ingestGamePgn_cases username pgn idx) as Hcases.
  split; intros Hr; rewrite Hr in Hcases; [|done].
  destruct Hcases as (chess & ul & wn & bn & outcome & Hload & ->).
  unfold historyOf, ingestSanMoves. rewrite Hload.
  by rewrite globalIndex_pgnLoop, globalIndex_sanLoop.
Qed.

Lemma ingestGamePgn_global_counters_witness :
  let viaAlice := ingestGamePgn (E:=Table.engine) "alice" Table.pgnAliceBob emptyIndex in
  let viaBob := ingestGamePgn (E:=Table.engine) "bob" Table.pgnAliceBob emptyIndex in
  (viaAlice ≠ viaBob ∧ globalIndex viaAlice = globalIndex viaBob)
  ∧ ((replayed (E:=Table.engine) "alice" Table.pgnAliceBob = true →
      globalIndex viaAlice
      = globalIndex (ingestSanMoves (E:=Table.engine)
                       (historyOf (E:=Table.engine) Table.pgnAliceBob) emptyIndex))
     ∧ (replayed (E:=Table.engine) "alice" Table.pgnAliceBob = false →
        viaAlice = emptyIndex)).
Proof.
  intros viaAlice viaBob. split; [split; [by vm_compute|reflexivity]|].
  exact (ingestGamePgn_global_counters (E:=Table.engine) "alice" Table.pgnAliceBob
           emptyIndex).
Defined.

Lemma foldl_map_set_fresh {A B} (g : A → B) (l : list (string * A)) :
  isMap l →
  foldl (fun out fb => map_set fb.1 (g fb.2) out) [] l
  = (fun fb => (fb.1, g fb.2)) <$> l.
Proof.
  intros Hmap.
  assert (∀ (l : list (string * A)) (acc : list (string * B)),
            NoDup (acc.*1 ++ l.*1) →
            foldl (fun out fb => map_set fb.1 (g fb.2) out) acc l
            = acc ++ ((fun fb => (fb.1, g fb.2)) <$> l)) as Hgen.
  { clear l Hmap. induction l as [|[k v] l IH]; intros acc Hnd; simpl.
    - by rewrite app_nil_r.
    - rewrite map_set_fresh.
      + rewrite IH; rewrite <- ?app_assoc; [done|].
        by rewrite fmap_app, <- app_assoc.
      + apply map_get_None. apply NoDup_app in Hnd as (_ & Hdisj & _).
        intros Hin. apply (Hdisj k Hin), list_elem_of_here. }
  by rewrite Hgen.
Qed.

(** X11.  A cache written by the first version can be read by the current
    [fromSerialized]: the call succeeds, the rebuilt index has a bucket
    exactly at the positions of the old index, the four global fields of
    each bucket are those of the old bucket, and all outcome and role
    counters are zero and all role count maps empty. *)
Theorem first_version_cache_readable (old : V1.MoveIndex) :
  isIndexV1 old →
  ∃ idx, fromSerialized (asCurrentData (V1.serialize old)) = Some idx
    ∧ ∀ fen,
        globalPart <$> getBucket idx fen = V1.getBucket old fen
        ∧ rolePart (bucketAt idx fen) = rolePart newBucket.
Proof.
  intros [Hmap Hbuckets].
  destruct (fromSerialized_spec (asCurrentData (V1.serialize old)))
    as (idx & Hrun & Hget & _).
  exists idx. split; [done|]. intros fen. unfold bucketAt. rewrite Hget.
  unfold asCurrentData, V1.serialize.
  rewrite (foldl_map_set_fresh V1.serializeBucket) by done.
  rewrite (map_get_fmap asCurrentRecord), (map_get_fmap V1.serializeBucket).
  unfold V1.getBucket. destruct (map_get fen old) as [b|] eqn:Hb; simpl; [|done].
  apply map_get_Some_elem in Hb.
  pose proof (proj1 (Forall_forall _ _) Hbuckets (fen, b) Hb) as (Hm & Ht & Hf).
  simpl in Hm, Ht, Hf. split; [|done].
  unfold globalPart. simpl. rewrite !Map_of_entries by done. by destruct b.
Qed.

Lemma first_version_cache_readable_witness :
  let old := V1.ingestUciMoves (E:=Table.engine) ["e2e4"; "e7e5"]
               (V1.ingestUciMoves (E:=Table.engine) ["d2d4"] []) in
  (V1.total <$> V1.getBucket old Table.startFen = Some 2 ∧ isIndexV1 old)
  ∧ ∃ idx, fromSerialized (asCurrentData (V1.serialize old)) = Some idx
      ∧ ∀ fen,
          globalPart <$> getBucket idx fen = V1.getBucket old fen
          ∧ rolePart (bucketAt idx fen) = rolePart newBucket.
Proof.
  intros old.
  assert (isIndexV1 old) as Hold.
  { unfold isIndexV1, isMap. split; [apply (bool_decide_unpack _); by vm_compute|].
    repeat (constructor;
            [split_and!; apply (bool_decide_unpack _); by vm_compute|]).
    constructor. }
  split; [by split|]. exact (first_version_cache_readable old Hold).
Defined.

(** ** Move keys *)

(** X12.  A move key stores a move without loss.  For a coordinate string
    of any length, the key that [ingestUciMoves] records is the string cut
    to five code units, and [getTopMoves] splits it back into the [from],
    [to] and [promotion] that were recorded.  The same holds for a resolved
    move whose squares have two code units and whose promotion, when
    present, is not empty. *)
Theorem move_key_round_trip (p : MoveParams) (uci : string) (c : Z) :
  String.length (from p) = 2%nat → String.length (to p) = 2%nat →
  promotion p ≠ Some EmptyString →
  (let e := toTopMove (moveKey p, c) in
   top_from e = from p ∧ top_to e = to p ∧ top_promotion e = promotion p
   ∧ top_count e = c)
  ∧ (let e := toTopMove (moveKey (uciParams uci), c) in
     moveKey (uciParams uci) = slice 0 5 uci
     ∧ top_from e = from (uciParams uci) ∧ top_to e = to (uciParams uci)
     ∧ top_promotion e = promotion (uciParams uci)).
Proof.
  intros Hf Ht Hp. split.
  - destruct p as [[|a [|b [|? ?]]] [|c0 [|d [|? ?]]] promo]; simpl in *;
      try discriminate.
    destruct promo as [[|e s]|]; [done| |]; by repeat split.
  - destruct uci as [|a1 [|a2 [|a3 [|a4 [|a5 [|a6 rest]]]]]]; by repeat split.
Qed.

Lemma move_key_round_trip_witness :
  let p := {| from := "e7"; to := "e8"; promotion := Some "q" |} in
  moveKey p = "e7e8q"
  ∧ ((let e := toTopMove (moveKey p, 3) in
      top_from e = from p ∧ top_to e = to p ∧ top_promotion e = promotion p
      ∧ top_count e = 3)
     ∧ (let e := toTopMove (moveKey (uciParams "e7e8qx"), 3) in
        moveKey (uciParams "e7e8qx") = slice 0 5 "e7e8qx"
        ∧ top_from e = from (uciParams "e7e8qx") ∧ top_to e = to (uciParams "e7e8qx")
        ∧ top_promotion e = promotion (uciParams "e7e8qx"))).
Proof.
  intros p. split; [reflexivity|].
  apply (move_key_round_trip p "e7e8qx" 3); [reflexivity|reflexivity|discriminate].
Defined.

(** ** Serialized records *)

Lemma Map_of_id {V} (m : list (string * V)) : isMap m → Map_of m = m.
Proof. apply Map_of_entries. Qed.

Lemma serialize_deserialize_bucket s :
  completeRecord s → serializeBucket (deserializeBucket s) = s.
Proof.
  unfold completeRecord. intros H. destruct_and! H.
  repeat match goal with
         | H : ∃ _, _ |- _ => destruct H as [? H]
         | H : _ ∧ _ |- _ => destruct H
         end.
  destruct s. simpl in *. subst.
  unfold serializeBucket, deserializeBucket, resultAt, map_entries. simpl.
  by rewrite !Map_of_id by done.
Qed.

(** X13.  Serialization undoes deserialization on what [serialize] writes:
    for a map of records that have every field, three results and entry
    lists without repeated keys, [fromSerialized] succeeds and serializing
    its result gives back the same record at every position. *)
Theorem deserialize_then_serialize (data : SerializedIndex) :
  isMap data → Forall (fun fs => completeRecord fs.2) data →
  ∃ idx, fromSerialized data = Some idx
    ∧ map_keys (serialize idx) ≡ₚ map_keys data
    ∧ ∀ fen, map_get fen (serialize idx) = map_get fen data.
Proof.
  intros Hmap Hcomplete.
  destruct (fromSerialized_spec data) as (idx & Hrun & Hget & Hdom).
  assert (isMap idx) as Hidx.
  { unfold isMap. rewrite Hdom by done. by rewrite Object_keys_Permutation. }
  exists idx. split; [done|]. rewrite serialize_fmap by done. split.
  - unfold map_keys.
    assert (((fun fb => (fb.1, serializeBucket fb.2)) <$> idx).*1 = idx.*1) as ->.
    { rewrite <- list_fmap_compose. by apply list_fmap_ext. }
    by rewrite Hdom, Object_keys_Permutation.
  - intros fen. rewrite map_get_fmap. unfold getBucket in Hget. rewrite Hget.
    destruct (map_get fen data) as [s|] eqn:Hs; [|done]. simpl. f_equal.
    apply serialize_deserialize_bucket. apply map_get_Some_elem in Hs.
    by apply (proj1 (Forall_forall _ _) Hcomplete (fen, s)).
Qed.

Lemma serializeBucket_complete b : bucketMaps b → completeRecord (serializeBucket b).
Proof.
  unfold bucketMaps, completeRecord. intros H. destruct_and! H.
  simpl. split_and!; try done; eauto.
Qed.

Lemma deserialize_then_serialize_witness :
  let idx := runOps (E:=Table.engine)
               [IngestGamePgn "alice" Table.pgnAliceBob; IngestUciMoves ["d2d4"]] in
  let data := serialize idx in
  (isMap data ∧ Forall (fun fs => completeRecord fs.2) data)
  ∧ ∃ idx', fromSerialized data = Some idx'
      ∧ map_keys (serialize idx') ≡ₚ map_keys data
      ∧ ∀ fen, map_get fen (serialize idx') = map_get fen data.
Proof.
  intros idx data.
  destruct (runOps_isIndex (E:=Table.engine)
              [IngestGamePgn "alice" Table.pgnAliceBob; IngestUciMoves ["d2d4"]])
    as [Hmap Hbuckets]. fold idx in Hmap, Hbuckets.
  assert (isMap data ∧ Forall (fun fs => completeRecord fs.2) data) as [Hd Hc].
  { unfold data. rewrite serialize_fmap by done. split.
    - unfold isMap. rewrite <- list_fmap_compose.
      by rewrite (list_fmap_ext (fst ∘ _) fst idx) by done.
    - apply Forall_fmap. eapply Forall_impl; [exact Hbuckets|].
      intros [fen b] Hb. by apply serializeBucket_complete. }
  split; [by split|]. exact (deserialize_then_serialize data Hd Hc).
Defined.

(** ** More on top moves *)

Lemma sum_values_Permutation (l1 l2 : list (string * Z)) :
  l1 ≡ₚ l2 → sum_values l1 = sum_values l2.
Proof. induction 1; simpl; lia. Qed.

Lemma pairs_of_topMoves (l : list (string * Z)) :
  (fun e => (top_key e, top_count e)) <$> (toTopMove <$> l) = l.
Proof.
  rewrite <- list_fmap_compose. rewrite <- (list_fmap_id l) at 2.
  apply list_fmap_ext. intros i [k c] _. simpl. by rewrite top_key_toTopMove.
Qed.

(** X14.  With a limit that is at least the number of distinct moves,
    [getTopMoves] lists every move of the bucket exactly once, and in an
    index built by ingestion the counts it returns add up to the bucket's
    [total]. *)
Theorem getTopMoves_lists_all `{E : RulesEngine} (ops : list Op) fen b (k : Z) :
  getBucket (runOps ops) fen = Some b →
  Z.of_nat (List.length (moveCounts b)) <= k →
  let r := getTopMoves (runOps ops) fen k in
  (fun e => (top_key e, top_count e)) <$> r ≡ₚ moveCounts b
  ∧ List.length r = List.length (moveCounts b)
  ∧ foldr (fun e acc => top_count e + acc) 0 r = total b.
Proof.
  intros Hb Hk r.
  assert (marginalsAgree b) as (Hm & _ & _).
  { apply (runOps_buckets (fun _ => marginalsAgree) (fun _ => True))
      with (ops := ops) (fen := fen);
      [ intros; apply newBucket_marginals
      | intros; by apply recordMove_marginals
      | intros; by apply recordMove_marginals
      | intros; by apply recordResult_marginals
      | intros; by apply Forall_true
      | done ]. }
  assert (r = toTopMove <$> sortByCount (moveCounts b)) as Hr.
  { subst r. unfold getTopMoves, getBucket in *. rewrite Hb.
    unfold topMovesOf, map_entries. rewrite array_slice0_nonneg by lia.
    rewrite take_ge; [done|]. rewrite length_sortByCount. lia. }
  assert ((fun e => (top_key e, top_count e)) <$> r ≡ₚ moveCounts b) as Hperm.
  { rewrite Hr, pairs_of_topMoves. apply sortByCount_Permutation. }
  split_and!; [done| |].
  - by rewrite Hr, length_fmap, length_sortByCount.
  - rewrite Hm, <- (sum_values_Permutation _ _ Hperm).
    clear. induction r as [|e r IH]; simpl; [done|]. by rewrite IH.
Qed.

Lemma getTopMoves_lists_all_witness :
  let ops := [IngestUciMoves ["d2d4"]; IngestUciMoves ["e2e4"];
              IngestGamePgn "alice" Table.pgnAliceBob] in
  let b := bucketAt (runOps (E:=Table.engine) ops) Table.startFen in
  let r := getTopMoves (runOps (E:=Table.engine) ops) Table.startFen 8 in
  (top_key <$> r = ["e2e4"; "d2d4"] ∧ top_count <$> r = [2; 1])
  ∧ ((fun e => (top_key e, top_count e)) <$> r ≡ₚ moveCounts b
     ∧ List.length r = List.length (moveCounts b)
     ∧ foldr (fun e acc => top_count e + acc) 0 r = total b).
Proof.
  intros ops b r. split; [by split|].
  apply (getTopMoves_lists_all (E:=Table.engine) ops Table.startFen b 8);
    [reflexivity|by vm_compute].
Defined.

(** X15.  The first entry that [getTopMoves] returns is a most played move:
    for a limit of at least 1 and a bucket that has recorded a move, the
    result is not empty and no move of the bucket has a larger count than
    its first entry. *)
Theorem getTopMoves_best_first (idx : MoveIndex) fen b (k : Z) :
  getBucket idx fen = Some b → 1 <= k → moveCounts b ≠ [] →
  ∃ e rest, getTopMoves idx fen k = e :: rest
    ∧ (top_key e, top_count e) ∈ moveCounts b
    ∧ ∀ key c, (key, c) ∈ moveCounts b → c <= top_count e.
Proof.
  intros Hb Hk Hne. unfold getTopMoves, getBucket in *. rewrite Hb.
  unfold topMovesOf, map_entries. rewrite array_slice0_nonneg by lia.
  pose proof (sortByCount_descending (moveCounts b)) as Hdesc.
  pose proof (elem_of_sortByCount) as Hin.
  destruct (sortByCount (moveCounts b)) as [|[k0 c0] sorted] eqn:Hsorted.
  { destruct (moveCounts b) as [|kc l]; [done|].
    assert (kc ∈ sortByCount (kc :: l)) as H
      by (apply elem_of_sortByCount, list_elem_of_here).
    rewrite Hsorted in H. by apply elem_of_nil in H. }
  destruct (Z.to_nat k) as [|n] eqn:Hn; [lia|]. simpl.
  eexists _, _. split; [done|]. rewrite top_key_toTopMove. simpl.
  split.
  - apply (Hin (k0, c0) (moveCounts b)). rewrite Hsorted. apply list_elem_of_here.
  - intros key c Hkc. apply (Hin _ (moveCounts b)) in Hkc. rewrite Hsorted in Hkc.
    apply elem_of_cons in Hkc as [[= -> ->]|Hkc]; [lia|].
    apply (Hdesc (k0, c0) (key, c)). apply sublist_pair_cons. by right.
Qed.

Lemma getTopMoves_best_first_witness :
  let idx := runOps (E:=Table.engine)
               [IngestUciMoves ["d2d4"]; IngestUciMoves ["e2e4"];
                IngestUciMoves ["e2e4"]] in
  let b := bucketAt idx Table.startFen in
  moveCounts b = [("d2d4", 1); ("e2e4", 2)]
  ∧ ∃ e rest, getTopMoves idx Table.startFen 1 = e :: rest
      ∧ (top_key e, top_count e) ∈ moveCounts b
      ∧ ∀ key c, (key, c) ∈ moveCounts b → c <= top_count e.
Proof.
  intros idx b. split; [reflexivity|].
  apply (getTopMoves_best_first idx Table.startFen b 1); [reflexivity|lia|discriminate].
Defined.

(** X16.  A negative limit is an end index counted from the back, as
    [Array.prototype.slice] defines it: [getTopMoves(fen, k)] with [k < 0]
    returns the sorted moves without the last [-k] of them, nothing when
    the bucket has at most [-k] moves. *)
Theorem getTopMoves_negative_limit (idx : MoveIndex) fen b (k : Z) :
  getBucket idx fen = Some b → k < 0 →
  let n := Z.of_nat (List.length (moveCounts b)) in
  getTopMoves idx fen k
  = toTopMove <$> take (Z.to_nat (n + k)) (sortByCount (moveCounts b))
  ∧ Z.of_nat (List.length (getTopMoves idx fen k)) = Z.max (n + k) 0.
Proof.
  intros Hb Hk n. unfold getTopMoves, getBucket in *. rewrite Hb.
  unfold topMovesOf, map_entries, array_slice0.
  destruct (Z.ltb_spec k 0) as [_|?]; [|lia].
  rewrite length_sortByCount. fold n.
  assert (Z.to_nat (Z.max (n + k) 0) = Z.to_nat (n + k)) as -> by lia.
  split; [done|].
  rewrite length_fmap, length_take, length_sortByCount. lia.
Qed.

Lemma getTopMoves_negative_limit_witness :
  let idx := runOps (E:=Table.engine)
               [IngestUciMoves ["d2d4"]; IngestUciMoves ["e2e4"];
                IngestUciMoves ["e2e4"]; IngestUciMoves ["c2c4"]] in
  let b := bucketAt idx Table.startFen in
  let n := Z.of_nat (List.length (moveCounts b)) in
  (n = 3 ∧ top_key <$> getTopMoves idx Table.startFen (-1) = ["e2e4"; "d2d4"])
  ∧ (getTopMoves idx Table.startFen (-1)
     = toTopMove <$> take (Z.to_nat (n + -1)) (sortByCount (moveCounts b))
     ∧ Z.of_nat (List.length (getTopMoves idx Table.startFen (-1))) = Z.max (n + -1) 0).
Proof.
  intros idx b n. split; [by split|].
  apply (getTopMoves_negative_limit idx Table.startFen b (-1)); [reflexivity|lia].
Defined.

(** * The lichess client *)

(** ** [trim] *)

Lemma trimStart_idempotent s : trimStart (trimStart s) = trimStart s.
Proof.
  induction s as [|c s IH]; simpl; [done|].
  destruct (isWhiteSpace c) eqn:Hc; [done|]. simpl. by rewrite Hc.
Qed.

Lemma trimEnd_idempotent s : trimEnd (trimEnd s) = trimEnd s.
Proof.
  induction s as [|c s IH]; simpl; [done|].
  destruct (trimEnd s) as [|c' r] eqn:Hr.
  - destruct (isWhiteSpace c) eqn:Hc; simpl; [done|]. by rewrite Hc.
  - simpl in *. by rewrite IH.
Qed.

Lemma trimEnd_trimStart s : trimEnd (trimStart s) = trimStart (trimEnd s).
Proof.
  induction s as [|c s IH]; simpl; [done|].
  destruct (isWhiteSpace c) eqn:Hc.
  - rewrite IH. destruct (trimEnd s) as [|c' r]; simpl; by rewrite ?Hc.
  - simpl. destruct (trimEnd s) as [|c' r]; simpl; by rewrite Hc.
Qed.

Lemma trim_idempotent s : trim (trim s) = trim s.
Proof.
  unfold trim. by rewrite trimEnd_trimStart, trimEnd_idempotent, trimStart_idempotent.
Qed.

Lemma occursIn_trimStart c s : occursIn c (trimStart s) = true → occursIn c s = true.
Proof.
  induction s as [|d s IH]; simpl; [done|].
  destruct (isWhiteSpace d); [|done]. intros H. rewrite IH by done. apply orb_true_r.
Qed.

Lemma occursIn_trimEnd c s : occursIn c (trimEnd s) = true → occursIn c s = true.
Proof.
  induction s as [|d s IH]; simpl; [done|].
  destruct (trimEnd s) as [|c' r].
  - destruct (isWhiteSpace d); simpl; [done|]. rewrite orb_false_r. by intros ->.
  - simpl in *. intros [->|H]%orb_true_iff; [done|]. rewrite IH by done. apply orb_true_r.
Qed.

Lemma occursIn_trim c s : occursIn c s = false → occursIn c (trim s) = false.
Proof.
  intros Hs. destruct (occursIn c (trim s)) eqn:Ht; [|done].
  apply occursIn_trimStart, occursIn_trimEnd in Ht. congruence.
Qed.

(** ** [split] and [join] *)

Lemma splitOn_not_nil sep s : splitOn sep s ≠ [].
Proof.
  destruct s as [|c s]; simpl; [done|].
  destruct (Ascii.eqb c sep); [done|]. by destruct (splitOn sep s).
Qed.

Lemma splitOn_no_separator sep s :
  Forall (fun part => occursIn sep part = false) (splitOn sep s).
Proof.
  induction s as [|c s IH]; simpl; [by repeat constructor|].
  destruct (Ascii.eqb_spec c sep) as [->|Hne]; [by constructor|].
  destruct (splitOn sep s) as [|h t]; [repeat constructor|].
  - simpl. rewrite orb_false_r. by apply Ascii.eqb_neq.
  - apply Forall_cons in IH as [Hh Ht]. constructor; [|done].
    simpl. rewrite Hh, orb_false_r. by apply Ascii.eqb_neq.
Qed.

Lemma splitOn_append_part sep part rest :
  occursIn sep part = false →
  splitOn sep (part +:+ String sep rest) = part :: splitOn sep rest.
Proof.
  induction part as [|c part IH]; intros Hpart.
  - rewrite append_empty. simpl. by rewrite Ascii.eqb_refl.
  - simpl in Hpart. apply orb_false_iff in Hpart as [Hc Hpart].
    rewrite append_cons. simpl. rewrite Hc, IH by done. done.
Qed.

Lemma splitOn_whole sep part :
  occursIn sep part = false → splitOn sep part = [part].
Proof.
  induction part as [|c part IH]; intros Hpart; simpl; [done|].
  simpl in Hpart. apply orb_false_iff in Hpart as [Hc Hpart].
  by rewrite Hc, IH.
Qed.

(** [split] undoes [join] when no part contains the separator. *)
Lemma splitOn_joinWith sep parts :
  parts ≠ [] → Forall (fun part => occursIn sep part = false) parts →
  splitOn sep (joinWith (String sep EmptyString) parts) = parts.
Proof.
  induction parts as [|x [|y rest] IH]; intros Hne Hparts; [done| |].
  - simpl. apply splitOn_whole. by apply Forall_cons in Hparts as [? _].
  - apply Forall_cons in Hparts as [Hx Hrest].
    change (joinWith (String sep EmptyString) (x :: y :: rest))
      with (x +:+ String sep EmptyString +:+ joinWith (String sep EmptyString) (y :: rest)).
    change (String sep EmptyString +:+ ?s) with (String sep s).
    rewrite splitOn_append_part by done. f_equal. by apply IH.
Qed.

Lemma splitOn_append sep a b :
  splitOn sep (a +:+ String sep b) = splitOn sep a ++ splitOn sep b.
Proof.
  induction a as [|c a IH]; simpl.
  - by rewrite Ascii.eqb_refl.
  - destruct (Ascii.eqb c sep); rewrite IH; [done|].
    pose proof (splitOn_not_nil sep a). by destruct (splitOn sep a).
Qed.

Lemma joinWith_splitOn sep s : joinWith (String sep EmptyString) (splitOn sep s) = s.
Proof.
  induction s as [|c s IH]; simpl; [done|].
  destruct (Ascii.eqb_spec c sep) as [->|Hne].
  - pose proof (splitOn_not_nil sep s).
    destruct (splitOn sep s) as [|h t] eqn:Hs; [done|]. simpl in *. by rewrite IH.
  - pose proof (splitOn_not_nil sep s).
    destruct (splitOn sep s) as [|h [|h' t]] eqn:Hs; [done|simpl in *; by subst|].
    simpl in *. by rewrite <- IH.
Qed.

(** A line is blank exactly when trimming leaves nothing. *)
Lemma allWhiteSpace_append a b :
  allWhiteSpace (a +:+ b) = allWhiteSpace a && allWhiteSpace b.
Proof.
  induction a as [|c a IH]; [done|]. rewrite append_cons. simpl.
  by rewrite IH, andb_assoc.
Qed.

Lemma truthy_trim l : truthy (trim l) = negb (allWhiteSpace l).
Proof.
  unfold truthy. destruct (allWhiteSpace l) eqn:Hl; simpl.
  - unfold trim. by rewrite trimEnd_allWhiteSpace.
  - apply negb_true_iff, String.eqb_neq. intros Hempty.
    destruct (trim_decompose l) as (pre & suf & Heq & Hpre & Hsuf).
    rewrite Hempty, append_empty in Heq.
    rewrite Heq, allWhiteSpace_append, Hpre, Hsuf in Hl. done.
Qed.

Lemma List_filter_all {A} (f : A → bool) l :
  Forall (fun x => f x = true) l → List.filter f l = l.
Proof.
  intros H. apply forallb_filter_id, forallb_forall.
  intros x Hx%list_elem_of_In. by apply (proj1 (Forall_forall _ _) H).
Qed.

Lemma List_filter_fmap {A B} (f : A → B) (g : B → bool) (l : list A) :
  List.filter g (f <$> l) = f <$> List.filter (fun x => g (f x)) l.
Proof.
  induction l as [|x l IH]; [done|]. cbn.
  destruct (g (f x)); cbn; [f_equal|]; apply IH.
Qed.

(** ** [parseNdjson] *)

(** X17.  [parseNdjson] returns the lines of the text that are not blank,
    each without its surrounding white space, in their order, and nothing
    else: for the text made of any lines joined by line feeds, the result
    is the trimmed non-blank lines among them.  So the lines returned are
    clean (not empty, trimmed, without a line feed), clean lines come back
    unchanged, and a line feed at the end of the text changes nothing. *)
Theorem parseNdjson_lines (text : string) (raw : list string) :
  Forall (fun l => occursIn lineFeed l = false) raw →
  parseNdjson (joinWith (String lineFeed EmptyString) raw)
  = trim <$> List.filter (fun l => negb (allWhiteSpace l)) raw
  ∧ (Forall cleanLine raw →
     parseNdjson (joinWith (String lineFeed EmptyString) raw) = raw)
  ∧ Forall cleanLine (parseNdjson text)
  ∧ parseNdjson (text +:+ String lineFeed EmptyString) = parseNdjson text.
Proof.
  intros Hraw.
  assert (parseNdjson (joinWith (String lineFeed EmptyString) raw)
          = trim <$> List.filter (fun l => negb (allWhiteSpace l)) raw) as Hall.
  { unfold parseNdjson. destruct raw as [|l0 rest]; [done|].
    rewrite splitOn_joinWith by done. rewrite List_filter_fmap.
    f_equal. apply filter_ext. intros l. apply truthy_trim. }
  split_and!.
  - exact Hall.
  - intros Hclean. rewrite Hall.
    assert (List.filter (fun l => negb (allWhiteSpace l)) raw = raw) as ->.
    { apply List_filter_all. eapply Forall_impl; [exact Hclean|].
      intros l (Hne & Htrim & _). rewrite <- truthy_trim, Htrim.
      unfold truthy. by apply negb_true_iff, String.eqb_neq. }
    rewrite <- (list_fmap_id raw) at 2. apply list_fmap_ext.
    intros i l Hl. apply list_elem_of_lookup_2 in Hl.
    by apply (proj1 (Forall_forall _ _) Hclean l Hl).
  - unfold parseNdjson. apply Forall_forall. intros l Hl.
    apply list_elem_of_In, filter_In in Hl as [Hl Hne].
    apply list_elem_of_In, list_elem_of_fmap in Hl as (part & -> & Hpart).
    split_and!.
    + intros Heq. unfold truthy in Hne. by rewrite Heq in Hne.
    + apply trim_idempotent.
    + apply occursIn_trim.
      by apply (proj1 (Forall_forall _ _) (splitOn_no_separator lineFeed text)).
  - unfold parseNdjson. rewrite splitOn_append, fmap_app, List.filter_app.
    simpl. by rewrite app_nil_r.
Qed.

Lemma parseNdjson_lines_witness :
  let raw := [""; " {1} "; ""; "{2 a}"; "  "] in
  let text := joinWith (String lineFeed EmptyString) raw in
  Forall (fun l => occursIn lineFeed l = false) raw
  ∧ parseNdjson text = ["{1}"; "{2 a}"]
  ∧ parseNdjson text = trim <$> List.filter (fun l => negb (allWhiteSpace l)) raw
  ∧ Forall cleanLine (parseNdjson text)
  ∧ parseNdjson (text +:+ String lineFeed EmptyString) = parseNdjson text.
Proof.
  intros raw text.
  assert (Forall (fun l => occursIn lineFeed l = false) raw) as Hraw
    by (by repeat constructor).
  split; [exact Hraw|]. split; [reflexivity|].
  destruct (parseNdjson_lines text raw Hraw) as (Hall & _ & Hclean & Hend).
  by repeat split.
Defined.

(** ** The history of user names *)

Lemma getUserHistory_array l : getUserHistory (HistoryArray (JString <$> l)) = l.
Proof. unfold getUserHistory. induction l as [|x l IH]; simpl; [done|]. by f_equal. Qed.

Lemma sameName_refl u : sameName u u = true.
Proof. unfold sameName. apply String.eqb_refl. Qed.

Lemma sameName_false u x : sameName u x = false ↔ toLowerCase x ≠ toLowerCase u.
Proof. unfold sameName. apply String.eqb_neq. Qed.

Lemma sameName_true u x : sameName u x = true ↔ toLowerCase x = toLowerCase u.
Proof. unfold sameName. apply String.eqb_eq. Qed.

Lemma findIndex_None f l :
  findIndex f l = None → Forall (fun x => f x = false) l.
Proof.
  induction l as [|x l IH]; simpl; [by constructor|].
  destruct (f x) eqn:Hx; [done|]. destruct (findIndex f l); [done|].
  intros _. constructor; [done|by apply IH].
Qed.

Lemma findIndex_Some f l i :
  findIndex f l = Some i →
  ∃ x, l !! i = Some x ∧ f x = true ∧ Forall (fun y => f y = false) (take i l).
Proof.
  revert i. induction l as [|x l IH]; intros i; simpl; [done|].
  destruct (f x) eqn:Hx.
  - intros [= <-]. exists x. simpl. by repeat split; try constructor.
  - destruct (findIndex f l) as [j|] eqn:Hj; [|done]. intros [= <-].
    destruct (IH j eq_refl) as (y & Hy & Hfy & Hbefore).
    exists y. simpl. repeat split; [done..|]. by constructor.
Qed.

Lemma List_filter_sublist {A} (f : A → bool) (l : list A) :
  List.filter f l `sublist_of` l.
Proof.
  induction l as [|x l IH]; simpl; [done|].
  destruct (f x); [by apply sublist_skip|by apply sublist_cons].
Qed.

Lemma delete_sublist {A} (i : nat) (l : list A) : delete i l `sublist_of` l.
Proof.
  revert i. induction l as [|x l IH]; intros [|i]; simpl; try done.
  - by apply sublist_cons.
  - by apply sublist_skip.
Qed.

Lemma distinctNames_sublist l k :
  l `sublist_of` k → distinctNames k → distinctNames l.
Proof.
  unfold distinctNames. intros Hsub Hk.
  exact (sublist_NoDup _ _ Hk (fmap_sublist toLowerCase _ _ Hsub)).
Qed.

(** The list from which [addUserToHistory] has taken the first entry with
    the name [u]. *)
Lemma spliced_sublist u h :
  match findIndex (sameName u) h with
  | Some i => delete i h
  | None => h
  end `sublist_of` h.
Proof. destruct (findIndex _ _); [apply delete_sublist|done]. Qed.

Lemma spliced_no_match u h :
  distinctNames h →
  Forall (fun x => sameName u x = false)
    match findIndex (sameName u) h with
    | Some i => delete i h
    | None => h
    end.
Proof.
  intros Hd. destruct (findIndex _ _) as [i|] eqn:Hi; [|by apply findIndex_None].
  apply findIndex_Some in Hi as (x & Hx & Hsame & _).
  apply sameName_true in Hsame.
  apply Forall_forall. intros y Hy. apply sameName_false. intros Heq.
  apply list_elem_of_lookup in Hy as [j Hj].
  unfold distinctNames in Hd.
  assert (Hlen : (i < List.length h)%nat) by (by eapply lookup_lt_Some).
  destruct (decide (j < i)%nat) as [Hlt|Hge].
  - rewrite list_lookup_delete_lt in Hj by done.
    assert (j = i); [|lia].
    eapply (NoDup_lookup _ j i (toLowerCase y) Hd);
      rewrite list_lookup_fmap; [by rewrite Hj|rewrite Hx; simpl; congruence].
  - rewrite list_lookup_delete_ge in Hj by lia.
    assert (S j = i); [|lia].
    eapply (NoDup_lookup _ (S j) i (toLowerCase y) Hd);
      rewrite list_lookup_fmap; [by rewrite Hj|rewrite Hx; simpl; congruence].
Qed.

Lemma distinctNames_cons u h :
  Forall (fun x => sameName u x = false) h → distinctNames h →
  distinctNames (u :: h).
Proof.
  unfold distinctNames. intros Hno Hd. simpl. constructor; [|done].
  intros (x & Heq & Hx)%list_elem_of_fmap.
  apply (proj1 (Forall_forall _ _) Hno), sameName_false in Hx. congruence.
Qed.

Lemma addUserToHistory_kept stored username slot :
  keptHistory (getUserHistory slot) →
  keptHistory (getUserHistory (addUserToHistory stored username slot)).
Proof.
  intros (Hd & Hlen & Hall). unfold addUserToHistory.
  destruct (truthy (trim username)) eqn:Hu; simpl negb; cbv iota; [|done].
  destruct stored; [|done]. rewrite getUserHistory_array.
  set (h := getUserHistory slot) in *.
  set (rest := match findIndex _ h with Some i => delete i h | None => h end).
  assert (Hsub : rest `sublist_of` h) by apply spliced_sublist.
  assert (Hkept : distinctNames (trim username :: rest)
                  ∧ Forall (fun x => x ≠ EmptyString ∧ trim x = x) (trim username :: rest)).
  { split.
    - apply distinctNames_cons; [by apply spliced_no_match|].
      by eapply distinctNames_sublist.
    - constructor.
      + split; [|apply trim_idempotent]. intros Heq. unfold truthy in Hu.
        by rewrite Heq in Hu.
      + eapply Forall_forall. intros x Hx.
        apply (proj1 (Forall_forall _ _) Hall). by eapply elem_of_sublist. }
  destruct Hkept as (Hd' & Hall'). split_and!.
  - eapply distinctNames_sublist; [apply sublist_take|done].
  - rewrite length_take. lia.
  - by apply Forall_take.
Qed.

Lemma removeUserFromHistory_kept stored username slot :
  keptHistory (getUserHistory slot) →
  keptHistory (getUserHistory (removeUserFromHistory stored username slot)).
Proof.
  intros (Hd & Hlen & Hall). unfold removeUserFromHistory.
  destruct stored; [|done]. rewrite getUserHistory_array.
  set (h := getUserHistory slot) in *.
  pose proof (List_filter_sublist (fun x => negb (sameName (trim username) x)) h) as Hsub.
  split_and!.
  - by eapply distinctNames_sublist.
  - apply sublist_length in Hsub. lia.
  - apply Forall_forall. intros x Hx.
    apply (proj1 (Forall_forall _ _) Hall). by eapply elem_of_sublist.
Qed.

(** The first entry with the name [u], when there is one, splits the list. *)
Lemma findIndex_split u h :
  match findIndex (sameName u) h with
  | None => Forall (fun x => sameName u x = false) h
  | Some i =>
      ∃ before x after,
        h = before ++ x :: after ∧ List.length before = i
        ∧ Forall (fun y => sameName u y = false) before
        ∧ sameName u x = true
        ∧ delete i h = before ++ after
  end.
Proof.
  destruct (findIndex _ _) as [i|] eqn:Hi; [|by apply findIndex_None].
  apply findIndex_Some in Hi as (x & Hx & Hsame & Hbefore).
  exists (take i h), x, (drop (S i) h). split_and!.
  - by rewrite take_drop_middle.
  - apply length_take_le. apply lookup_lt_Some in Hx. lia.
  - done.
  - done.
  - apply delete_take_drop.
Qed.

(** X18.  [addUserToHistory] with a name that is not blank, when the write
    is accepted, stores exactly this: the trimmed name, followed by the old
    history without its first entry equal to the name up to letter case
    (every other entry stays, in its place), cut to 20 names.  So the name
    comes first, at most 20 names are kept, the names after the first are a
    subsequence of the old history, and the call is idempotent; when the old
    history has at most one entry with the name, no entry after the first
    has it. *)
Theorem addUserToHistory_front (username : string) (slot : HistorySlot) :
  truthy (trim username) = true →
  let u := trim username in
  let h := getUserHistory slot in
  let h' := getUserHistory (addUserToHistory true username slot) in
  (∃ rest,
     h' = take 20 (u :: rest)
     ∧ ((Forall (fun x => sameName u x = false) h ∧ rest = h)
        ∨ ∃ before x after,
            h = before ++ x :: after
            ∧ Forall (fun y => sameName u y = false) before
            ∧ sameName u x = true
            ∧ rest = before ++ after))
  ∧ head h' = Some u
  ∧ (List.length h' ≤ 20)%nat
  ∧ tail h' `sublist_of` h
  ∧ (atMostOneNamed u h → Forall (fun x => sameName u x = false) (tail h'))
  ∧ addUserToHistory true username (addUserToHistory true username slot)
    = addUserToHistory true username slot.
Proof.
  intros Hu u h h'. unfold h', addUserToHistory. rewrite Hu. simpl negb. cbv iota.
  rewrite !getUserHistory_array. fold h. fold u.
  pose proof (findIndex_split u h) as Hsplit.
  pose proof (spliced_sublist u h) as Hsub.
  set (rest := match findIndex _ h with Some i => delete i h | None => h end) in *.
  change (take 20 (u :: rest)) with (u :: take 19 rest).
  split_and!.
  - exists rest. split; [done|]. unfold rest.
    destruct (findIndex (sameName u) h) as [i|]; [|by left].
    destruct Hsplit as (before & x & after & Hh & _ & Hbefore & Hx & Hdel).
    right. by exists before, x, after.
  - done.
  - simpl. rewrite length_take. lia.
  - simpl. etrans; [apply sublist_take|done].
  - intros Hone. simpl. apply Forall_take. unfold rest.
    destruct (findIndex (sameName u) h) as [i|]; [|done].
    destruct Hsplit as (before & x & after & Hh & Hlen & Hbefore & Hx & ->).
    apply Forall_app. split; [done|].
    apply Forall_forall. intros y Hy.
    destruct (sameName u y) eqn:Hsame; [exfalso|done].
    apply list_elem_of_lookup in Hy as [k Hk].
    assert (h !! List.length before = Some x) as Hix
      by (rewrite Hh; apply list_lookup_middle; done).
    assert (h !! (List.length before + S k)%nat = Some y) as Hiy.
    { rewrite Hh, lookup_app_r by lia.
      replace (List.length before + S k - List.length before)%nat with (S k) by lia.
      done. }
    pose proof (Hone _ _ x y Hix Hiy Hx Hsame). lia.
  - simpl findIndex. rewrite sameName_refl. simpl.
    change (take 20 (u :: ?l)) with (u :: take 19 l).
    by rewrite take_idemp.
Qed.

Lemma addUserToHistory_front_witness :
  let slot := HistoryArray [JString "Bob"; JNotString; JString "alice"; JString "carol";
                            JString "ALICE"] in
  let slot1 := HistoryArray [JString "Bob"; JString "alice"; JString "carol"] in
  (truthy (trim " Alice ") = true ∧ atMostOneNamed (trim " Alice ") (getUserHistory slot1))
  ∧ getUserHistory (addUserToHistory true " Alice " slot) = ["Alice"; "Bob"; "carol"; "ALICE"]
  ∧ (∃ rest,
       getUserHistory (addUserToHistory true " Alice " slot) = take 20 (trim " Alice " :: rest)
       ∧ ((Forall (fun x => sameName (trim " Alice ") x = false) (getUserHistory slot)
           ∧ rest = getUserHistory slot)
          ∨ ∃ before x after,
              getUserHistory slot = before ++ x :: after
              ∧ Forall (fun y => sameName (trim " Alice ") y = false) before
              ∧ sameName (trim " Alice ") x = true
              ∧ rest = before ++ after))
  ∧ Forall (fun x => sameName (trim " Alice ") x = false)
      (tail (getUserHistory (addUserToHistory true " Alice " slot1))).
Proof.
  intros slot slot1.
  assert (atMostOneNamed (trim " Alice ") (getUserHistory slot1)) as Hone.
  { intros [|[|[|i]]] [|[|[|j]]] x y; simpl; intros Hx Hy; try done;
      injection Hx as <-; injection Hy as <-; by vm_compute. }
  split; [by split|]. split; [reflexivity|].
  split.
  - exact (proj1 (addUserToHistory_front " Alice " slot eq_refl)).
  - exact (proj1 (proj2 (proj2 (proj2 (proj2
             (addUserToHistory_front " Alice " slot1 eq_refl))))) Hone).
Defined.

(** X19.  The history stays well kept under any sequence of
    [addUserToHistory] and [removeUserFromHistory] calls, whether or not the
    storage accepts each write and whatever the names (blank ones included):
    no two names equal up to letter case, at most 20 names, every name
    trimmed and not empty. *)
Theorem history_stays_kept (ops : list HistoryOp) (slot : HistorySlot) :
  keptHistory (getUserHistory slot) →
  keptHistory (getUserHistory (runHistory ops slot)).
Proof.
  unfold runHistory. revert slot. induction ops as [|op ops IH]; intros slot Hslot; [done|].
  simpl. apply IH. destruct op as [stored username|stored username]; simpl.
  - by apply addUserToHistory_kept.
  - by apply removeUserFromHistory_kept.
Qed.

Lemma history_stays_kept_witness :
  let ops := [AddUser true "bob"; AddUser true " Alice"; AddUser false "dave";
              AddUser true "BOB "; AddUser true "  "; RemoveUser true "ALICE";
              AddUser true "carol"] in
  keptHistory (getUserHistory HistoryAbsent)
  ∧ getUserHistory (runHistory ops HistoryAbsent) = ["carol"; "BOB"]
  ∧ keptHistory (getUserHistory (runHistory ops HistoryAbsent)).
Proof.
  assert (keptHistory (getUserHistory HistoryAbsent)) as Hstart.
  { split_and!; simpl; [constructor|lia|constructor]. }
  split; [exact Hstart|]. split; [reflexivity|].
  exact (history_stays_kept _ HistoryAbsent Hstart).
Defined.

(** X20.  [removeUserFromHistory], when the write is accepted: no remaining
    name equals the trimmed name up to letter case, every other name stays,
    in the old order, and the call is idempotent.  When the write is refused
    the slot is left as it was. *)
Theorem removeUserFromHistory_removes (username : string) (slot : HistorySlot) :
  let h := getUserHistory slot in
  let h' := getUserHistory (removeUserFromHistory true username slot) in
  Forall (fun x => sameName (trim username) x = false) h'
  ∧ h' `sublist_of` h
  ∧ (∀ x, x ∈ h → sameName (trim username) x = false → x ∈ h')
  ∧ removeUserFromHistory true username (removeUserFromHistory true username slot)
    = removeUserFromHistory true username slot
  ∧ removeUserFromHistory false username slot = slot.
Proof.
  intros h h'. unfold h', removeUserFromHistory. rewrite !getUserHistory_array. fold h.
  split_and!.
  - apply Forall_forall. intros x Hx.
    apply list_elem_of_In, filter_In in Hx as [_ Hx]. by apply negb_true_iff.
  - apply List_filter_sublist.
  - intros x Hx Hne. apply list_elem_of_In, filter_In. split; [by apply list_elem_of_In|].
    by rewrite Hne.
  - do 2 f_equal. apply forallb_filter_id, forallb_forall.
    intros x Hx. by apply filter_In in Hx as [_ Hx].
  - done.
Qed.

Lemma removeUserFromHistory_removes_witness :
  let slot := HistoryArray [JString "Bob"; JString "alice"; JString "ALICE"] in
  let h' := getUserHistory (removeUserFromHistory true " Alice" slot) in
  h' = ["Bob"]
  ∧ ("Bob" ∈ getUserHistory slot ∧ sameName (trim " Alice") "Bob" = false)
  ∧ "Bob" ∈ h'.
Proof.
  intros slot h'. split; [reflexivity|].
  assert ("Bob" ∈ getUserHistory slot) as Hin by apply list_elem_of_here.
  split; [by split|].
  exact (proj1 (proj2 (proj2 (removeUserFromHistory_removes " Alice" slot)))
           "Bob" Hin eq_refl).
Defined.

(** ** The cached index *)

Lemma insertByIndex_ordered k l : indexOrdered l → indexOrdered (insertByIndex k l).
Proof.
  induction l as [|k' l IH]; intros Hs; simpl; [done|].
  destruct Hs as [Hhd Hs].
  destruct (N.ltb_spec (default 0 (arrayIndex k')) (default 0 (arrayIndex k)))%N as [Hlt|Hge].
  - split; [|by apply IH].
    destruct l as [|k'' l]; simpl; [lia|].
    destruct (N.ltb_spec (default 0 (arrayIndex k'')) (default 0 (arrayIndex k)))%N;
      [done|lia].
  - simpl. done.
Qed.

Lemma insertByIndex_ordered_id l : indexOrdered l → foldr insertByIndex [] l = l.
Proof.
  induction l as [|k l IH]; intros Hs; simpl; [done|].
  destruct Hs as [Hhd Hs]. rewrite IH by done.
  destruct l as [|k' l]; simpl; [done|].
  destruct (N.ltb_spec (default 0 (arrayIndex k')) (default 0 (arrayIndex k)))%N; [lia|done].
Qed.

Lemma List_filter_none {A} (f : A → bool) l :
  Forall (fun x => f x = false) l → List.filter f l = [].
Proof.
  induction 1 as [|x l Hx _ IH]; simpl; [done|]. by rewrite Hx.
Qed.

Lemma Forall_List_filter {A} (f : A → bool) l :
  Forall (fun x => f x = true) (List.filter f l).
Proof.
  apply Forall_forall. intros x Hx. by apply list_elem_of_In, filter_In in Hx as [_ ?].
Qed.

(** An object created with its keys in [Object.keys] order lists them in
    that order again. *)
Lemma Object_keys_ordered {V W} (o : list (string * V)) (o' : list (string * W)) :
  o'.*1 = Object_keys o → Object_keys o' = Object_keys o.
Proof.
  intros Hkeys. unfold Object_keys at 1. rewrite Hkeys. unfold Object_keys.
  set (A := List.filter isArrayIndex o.*1).
  set (B := List.filter (fun k => negb (isArrayIndex k)) o.*1).
  assert (HA : Forall (fun k => isArrayIndex k = true) (foldr insertByIndex [] A)).
  { assert (foldr insertByIndex [] A ≡ₚ A) as ->.
    { induction A as [|k l IH]; simpl; [done|]. by rewrite insertByIndex_Permutation, IH. }
    apply Forall_List_filter. }
  assert (HB : Forall (fun k => negb (isArrayIndex k) = true) B)
    by apply Forall_List_filter.
  rewrite !List.filter_app.
  rewrite (List_filter_all isArrayIndex (foldr insertByIndex [] A)) by done.
  rewrite (List_filter_none isArrayIndex B)
    by (eapply Forall_impl; [exact HB|]; by intros k ?%negb_true_iff).
  rewrite (List_filter_none _ (foldr insertByIndex [] A))
    by (eapply Forall_impl; [exact HA|]; by intros k ->).
  rewrite (List_filter_all _ B) by done.
  rewrite app_nil_r. simpl. f_equal.
  apply insertByIndex_ordered_id.
  clear HA. induction A as [|k l IH]; simpl; [done|].
  by apply insertByIndex_ordered.
Qed.

(** The copy that [JSON.stringify] and [JSON.parse] make of a record map
    has the same record at every key, and its keys in [Object.keys] order. *)
Lemma jsonCopy_get (data : SerializedIndex) k :
  map_get k (jsonCopy data) = map_get k data.
Proof.
  unfold jsonCopy.
  assert (∀ ks, (k ∈ ks → map_get k (omap (fun k' => pair k' <$> map_get k' data) ks)
                          = map_get k data)
                ∧ (k ∉ ks → map_get k (omap (fun k' => pair k' <$> map_get k' data) ks)
                            = None)) as Hgen.
  { induction ks as [|k' ks [IHin IHout]].
    - split; [by intros ?%elem_of_nil|done].
    - cbn [omap list_omap]. destruct (map_get k' data) as [v|] eqn:Hv; cbn.
      + destruct (String.eqb_spec k k') as [->|Hne].
        * split; [done|]. intros Hout. destruct Hout. apply list_elem_of_here.
        * split.
          -- intros [?|?]%elem_of_cons; [done|by apply IHin].
          -- intros Hout. apply IHout. intros ?. by apply Hout, list_elem_of_further.
      + split.
        * intros [->|?]%elem_of_cons; [|by apply IHin].
          rewrite Hv. destruct (decide (k' ∈ ks)); [|by apply IHout].
          rewrite IHin by done. done.
        * intros Hout. apply IHout. intros ?. by apply Hout, list_elem_of_further. }
  destruct (Hgen (Object_keys data)) as [Hin Hout].
  destruct (decide (k ∈ Object_keys data)) as [Hk|Hk]; [by apply Hin|].
  rewrite Hout by done. rewrite Object_keys_Permutation in Hk.
  symmetry. by apply map_get_None.
Qed.

Lemma jsonCopy_keys (data : SerializedIndex) : (jsonCopy data).*1 = Object_keys data.
Proof.
  unfold jsonCopy.
  assert (∀ ks, Forall (fun k => is_Some (map_get k data)) ks →
                (omap (fun k' => pair k' <$> map_get k' data) ks).*1 = ks) as Hgen.
  { induction 1 as [|k ks [v Hv] _ IH]; simpl; [done|]. rewrite Hv. simpl. by f_equal. }
  apply Hgen, Forall_forall. intros k Hk.
  apply map_get_is_Some. by rewrite <- Object_keys_Permutation.
Qed.

Lemma Object_keys_jsonCopy (data : SerializedIndex) :
  Object_keys (jsonCopy data) = Object_keys data.
Proof. apply Object_keys_ordered, jsonCopy_keys. Qed.

Lemma Object_values_jsonCopy (data : SerializedIndex) :
  Object_values (jsonCopy data) = Object_values data.
Proof.
  unfold Object_values. rewrite Object_keys_jsonCopy.
  induction (Object_keys data) as [|k ks IH]; [done|].
  cbn [omap list_omap]. by rewrite jsonCopy_get, IH.
Qed.

Lemma fromSerializedLoop_ext data data' keys idx :
  (∀ k, map_get k data = map_get k data') →
  fromSerializedLoop data keys idx = fromSerializedLoop data' keys idx.
Proof.
  intros Hget. revert idx. induction keys as [|k keys IH]; intros idx; simpl; [done|].
  rewrite Hget. by destruct (map_get k data').
Qed.

Lemma fromSerialized_jsonCopy data :
  fromSerialized (jsonCopy data) = fromSerialized data.
Proof.
  unfold fromSerialized. rewrite Object_keys_jsonCopy.
  apply fromSerializedLoop_ext, jsonCopy_get.
Qed.

(** The first value of an object is one of its values. *)
Lemma head_Object_values {V} (o : list (string * V)) :
  match head (Object_values o) with
  | Some v => ∃ k, (k, v) ∈ o
  | None => o = []
  end.
Proof.
  unfold Object_values.
  destruct (Object_keys o) as [|k ks] eqn:Hkeys; simpl.
  - pose proof (Object_keys_Permutation o) as Hp. rewrite Hkeys in Hp.
    apply Permutation_nil_l in Hp. by destruct o.
  - assert (is_Some (map_get k o)) as [v Hv].
    { apply map_get_is_Some. rewrite <- Object_keys_Permutation, Hkeys.
      apply list_elem_of_here. }
    rewrite Hv. simpl. exists k. by apply map_get_Some_elem.
Qed.

Lemma map_set_values {V} (P : V → Prop) k v (m : list (string * V)) :
  P v → Forall (fun kv => P kv.2) m → Forall (fun kv => P kv.2) (map_set k v m).
Proof.
  intros Hv. induction 1 as [|[k' v'] m Hkv Hm IH]; simpl.
  - by repeat constructor.
  - destruct (String.eqb k k'); constructor; done.
Qed.

Lemma map_set_not_nil {V} k v (m : list (string * V)) : map_set k v m ≠ [].
Proof. destruct m as [|[k' v'] m]; simpl; [done|]. by destruct (String.eqb k k'). Qed.

Lemma serialize_records idx :
  Forall (fun kv => ∃ b, kv.2 = serializeBucket b) (serialize idx)
  ∧ (idx ≠ [] → serialize idx ≠ []).
Proof.
  unfold serialize.
  assert (∀ (l : MoveIndex) acc,
            Forall (fun kv => ∃ b, kv.2 = serializeBucket b) acc →
            Forall (fun kv => ∃ b, kv.2 = serializeBucket b)
              (foldl (fun out fb => map_set fb.1 (serializeBucket fb.2) out) acc l)
            ∧ (l ≠ [] ∨ acc ≠ [] →
               foldl (fun out fb => map_set fb.1 (serializeBucket fb.2) out) acc l ≠ []))
    as Hgen.
  { induction l as [|[fen b] l IH]; intros acc Hacc; simpl.
    - split; [done|]. by intros [?|?].
    - destruct (IH (map_set fen (serializeBucket b) acc)) as [Hall Hne].
      { apply (map_set_values (fun s => ∃ b, s = serializeBucket b)); [by exists b|done]. }
      split; [done|]. intros _. apply Hne. right. apply map_set_not_nil. }
  destruct (Hgen idx []) as [Hall Hne]; [constructor|].
  split; [done|]. intros ?. apply Hne. by left.
Qed.

Lemma load_saved idx slot :
  loadIndexFromLocalStorage (saveIndexToLocalStorage true idx slot)
  = (if idx is [] then None else fromSerialized (serialize idx)).
Proof.
  unfold saveIndexToLocalStorage, loadIndexFromLocalStorage.
  rewrite Object_values_jsonCopy, fromSerialized_jsonCopy.
  destruct (serialize_records idx) as [Hall Hne].
  pose proof (head_Object_values (serialize idx)) as Hhead.
  destruct (head (Object_values (serialize idx))) as [s|].
  - destruct Hhead as [k Hk].
    destruct (proj1 (Forall_forall _ _) Hall _ Hk) as [b Hb]. simpl in Hb. subst s.
    simpl. destruct idx; [|done]. by apply elem_of_nil in Hk.
  - destruct idx as [|fb idx]; [done|]. by destruct Hne.
Qed.

(** X21.  The cache round trip.  Loading what [saveIndexToLocalStorage] has
    stored gives what [fromSerialized] gives on the serialized index: for an
    index with at least one bucket, an index with the same position
    identifiers and an equal bucket at each.  An index without buckets is
    the exception: it is read back as no cache at all, because the loader
    finds no first record to check.  When the write is refused, the slot and
    so the next load are as before. *)
Theorem saved_index_loads (idx : MoveIndex) (slot : IndexSlot) :
  isIndex idx →
  (idx ≠ [] →
   ∃ idx', loadIndexFromLocalStorage (saveIndexToLocalStorage true idx slot) = Some idx'
     ∧ fromSerialized (serialize idx) = Some idx'
     ∧ map_keys idx' ≡ₚ map_keys idx
     ∧ ∀ fen, getBucket idx' fen = getBucket idx fen)
  ∧ (idx = [] →
     loadIndexFromLocalStorage (saveIndexToLocalStorage true idx slot) = None)
  ∧ loadIndexFromLocalStorage (saveIndexToLocalStorage false idx slot)
    = loadIndexFromLocalStorage slot.
Proof.
  intros [Hmap Hbuckets]. split_and!; [|by intros ->|done].
  intros Hne. rewrite load_saved.
  destruct (fromSerialized_spec (serialize idx)) as (idx' & Hrun & Hget & Hdom).
  assert ((serialize idx).*1 = idx.*1) as Hkeys.
  { rewrite serialize_fmap by done. rewrite <- list_fmap_compose.
    by apply list_fmap_ext. }
  exists idx'. split_and!; [by destruct idx|done| |].
  - unfold map_keys. rewrite Hdom by (unfold isMap; by rewrite Hkeys).
    by rewrite Object_keys_Permutation, Hkeys.
  - intros fen. rewrite Hget, serialize_fmap, map_get_fmap by done.
    unfold getBucket. destruct (map_get fen idx) as [b|] eqn:Hb; [|done].
    simpl. f_equal. apply deserialize_serialize_bucket.
    apply map_get_Some_elem in Hb.
    by apply (proj1 (Forall_forall _ _) Hbuckets (fen, b)).
Qed.

Lemma saved_index_loads_witness :
  let idx := runOps (E:=Table.engine)
               [IngestGamePgn "alice" Table.pgnAliceBob; IngestUciMoves ["d2d4"]] in
  (isIndex idx ∧ idx ≠ [])
  ∧ ∃ idx', loadIndexFromLocalStorage (saveIndexToLocalStorage true idx IndexAbsent)
            = Some idx'
      ∧ fromSerialized (serialize idx) = Some idx'
      ∧ map_keys idx' ≡ₚ map_keys idx
      ∧ ∀ fen, getBucket idx' fen = getBucket idx fen.
Proof.
  intros idx.
  assert (idx ≠ []) as Hne by (by vm_compute).
  split; [split; [apply runOps_isIndex|exact Hne]|].
  exact (proj1 (saved_index_loads idx IndexAbsent (runOps_isIndex _)) Hne).
Defined.

(** X22.  A cache written by the first version is discarded by the loader,
    whatever it holds: its first record has none of the fields [ut], [om],
    [uwt], [obm], so the loader answers as if nothing were stored (although
    [fromSerialized] could read it). *)
Theorem first_version_cache_discarded (old : V1.MoveIndex) :
  loadIndexFromLocalStorage
    (IndexObject (jsonCopy (asCurrentData (V1.serialize old)))) = None.
Proof.
  unfold loadIndexFromLocalStorage. rewrite Object_values_jsonCopy.
  pose proof (head_Object_values (asCurrentData (V1.serialize old))) as Hhead.
  destruct (head (Object_values _)) as [s|]; [|done].
  destruct Hhead as [k Hk]. unfold asCurrentData in Hk.
  apply list_elem_of_fmap in Hk as ([k' s'] & [= -> ->] & _). done.
Qed.

(** ** Indexing the fetched games *)

Lemma indexLines_run `{E : RulesEngine} username lines idx totalGames :
  indexLines username lines idx totalGames
  = (foldl (fun idx op => applyOp op idx) idx
       (IngestGamePgn username <$> fetchedGames lines),
     totalGames + Z.of_nat (List.length (fetchedGames lines))).
Proof.
  revert idx totalGames.
  induction lines as [|[pgn|] lines IH]; intros idx totalGames; cbn.
  - f_equal. lia.
  - destruct (truthy pgn); cbn; rewrite IH; [|done]. f_equal.
    fold (fetchedGames lines). rewrite Nat2Z.inj_succ. lia.
  - apply IH.
Qed.

Lemma rs_total_resultCount idx fen :
  rs_total (getResultStats idx fen)
  = resultCount Win (getResultStats idx fen)
    + resultCount Loss (getResultStats idx fen)
    + resultCount Draw (getResultStats idx fen).
Proof. unfold getResultStats. by destruct (map_get fen idx). Qed.

(** A game adds at most one to the games counted at a position. *)
Lemma ingestGamePgn_games `{E : RulesEngine} username pgn idx fen :
  rs_total (getResultStats idx fen)
  <= rs_total (getResultStats (ingestGamePgn username pgn idx) fen)
  <= rs_total (getResultStats idx fen) + 1.
Proof.
  rewrite !rs_total_resultCount, !ingestGamePgn_results.
  destruct (gameOutcome username pgn) as [[| |]|];
    repeat case_decide; try lia;
    repeat match goal with H : _ = Some _ ∧ _ |- _ => destruct H as [[=] _] end.
Qed.

Lemma games_run_bound `{E : RulesEngine} username games fen :
  0 <= rs_total (getResultStats (runOps (IngestGamePgn username <$> games)) fen)
  <= Z.of_nat (List.length games).
Proof.
  unfold runOps. induction games as [|pgn games IH] using rev_ind; [done|].
  rewrite fmap_app, foldl_app, length_app. simpl.
  pose proof (ingestGamePgn_games username pgn
    (foldl (fun idx op => applyOp op idx) emptyIndex (IngestGamePgn username <$> games))
    fen). lia.
Qed.

Lemma runOps_total_positive `{E : RulesEngine} (ops : list Op) fen b :
  getBucket (runOps ops) fen = Some b → 1 <= total b.
Proof.
  revert fen b.
  apply (runOps_existing
           (fun idx => ∀ fen b, getBucket idx fen = Some b → 1 <= total b)).
  - by intros fen b.
  - intros fen p0 byUser color idx Hidx fen' b.
    destruct (decide (fen = fen')) as [<-|Hne].
    + rewrite getBucket_addMove_eq. intros [= <-].
      assert (0 <= total (default newBucket (getBucket idx fen))) as Hold.
      { destruct (getBucket idx fen) as [b0|] eqn:Hb0; simpl; [|done].
        specialize (Hidx fen b0 Hb0). lia. }
      revert Hold. generalize (default newBucket (getBucket idx fen)). intros b0 Hold.
      destruct byUser as [[|]|], color as [[|]|]; simpl; lia.
    + rewrite getBucket_addMove_ne by done. apply Hidx.
  - intros fen o idx [b0 Hb0] Hidx fen' b.
    destruct (decide (fen = fen')) as [<-|Hne].
    + rewrite getBucket_addResult_eq, Hb0. intros [= <-]. simpl.
      specialize (Hidx fen b0 Hb0). by destruct o.
    + rewrite getBucket_addResult_ne by done. apply Hidx.
Qed.

Lemma games_run_roles `{E : RulesEngine} username games fen b :
  getBucket (runOps (IngestGamePgn username <$> games)) fen = Some b →
  userTotal b + oppTotal b = total b.
Proof.
  intros Hb.
  assert (allBuckets (fun _ => rolesExhaust) (runOps (IngestGamePgn username <$> games)))
    as Hall.
  { apply (runOps_buckets (fun _ => rolesExhaust) (fun _ => False)).
    - intros f. reflexivity.
    - by intros f p b0 [].
    - intros f p byUser color b0. apply recordMove_role_exhaust.
    - intros f o b0. unfold rolesExhaust.
      destruct (recordResult_counters o b0) as (Ht & Hu & Ho & _). by rewrite Ht, Hu, Ho.
    - intros op (pgn & -> & _)%list_elem_of_fmap. constructor. }
  exact (Hall fen b Hb).
Qed.

(** X23.  The loop of [fetchAndIndexUserGames] builds the index that the
    [ingestGamePgn] calls for the fetched game records build on a new index,
    in the order of the lines, and counts one game for each of them: the
    lines that do not parse, have no [pgn] or an empty one change neither
    the index nor the count. *)
Theorem fetched_index_run `{E : RulesEngine} (username : string)
    (lines : list (option string)) :
  indexFetchedGames username lines
  = (runOps (IngestGamePgn username <$> fetchedGames lines),
     Z.of_nat (List.length (fetchedGames lines)))
  ∧ fetchedGames lines `sublist_of` omap id lines.
Proof.
  split; [apply indexLines_run|].
  unfold fetchedGames. induction lines as [|[pgn|] lines IH]; cbn; [done| |done].
  destruct (truthy pgn); [by apply sublist_skip|by apply sublist_cons].
Qed.

(** X24.  What the board reads off a freshly fetched index.  Every bucket
    holds at least one move and each of its moves has a role, so
    [userTotal + oppTotal = total]; hence [noMatchesForPosition] answers
    true exactly at the positions without a bucket.  And the games counted
    at a position, [win + loss + draw], are between 0 and [totalGames]. *)
Theorem fetched_index_answers `{E : RulesEngine} (username : string)
    (lines : list (option string)) (fen : string) :
  let index := (indexFetchedGames username lines).1 in
  let totalGames := (indexFetchedGames username lines).2 in
  (∀ b, getBucket index fen = Some b →
        1 <= total b ∧ userTotal b + oppTotal b = total b)
  ∧ (noMatchesForPosition (Some index) fen = true ↔ getBucket index fen = None)
  ∧ 0 <= rs_total (getResultStats index fen) <= totalGames.
Proof.
  unfold indexFetchedGames. rewrite indexLines_run. simpl. fold (runOps (IngestGamePgn username <$> fetchedGames lines)).
  assert (∀ b, getBucket (runOps (IngestGamePgn username <$> fetchedGames lines)) fen = Some b →
               1 <= total b ∧ userTotal b + oppTotal b = total b) as Hb.
  { intros b Hb. split; [|by eapply games_run_roles].
    exact (runOps_total_positive _ fen b Hb). }
  split_and!; [done| |apply games_run_bound|apply games_run_bound].
  unfold noMatchesForPosition.
  destruct (getBucket _ fen) as [b|]; [|done].
  destruct (Hb b eq_refl) as [Hpos Hsum]. split; [|done].
  intros Hz%Z.eqb_eq. lia.
Qed.

Lemma fetched_index_answers_witness :
  let lines := [Some Table.pgnAliceBob; None; Some Table.pgnBobCarol] in
  let index := (indexFetchedGames (E:=Table.engine) "bob" lines).1 in
  let totalGames := (indexFetchedGames (E:=Table.engine) "bob" lines).2 in
  (totalGames = 2 ∧ rs_total (getResultStats index Table.startFen) = 1
   ∧ noMatchesForPosition (Some index) Table.startFen = false
   ∧ noMatchesForPosition (Some index) "8/8/8/8/8/8/8/8 w - - 0 1" = true)
  ∧ (∀ b, getBucket index Table.startFen = Some b →
          1 <= total b ∧ userTotal b + oppTotal b = total b)
  ∧ (noMatchesForPosition (Some index) Table.startFen = true
     ↔ getBucket index Table.startFen = None)
  ∧ 0 <= rs_total (getResultStats index Table.startFen) <= totalGames.
Proof.
  intros lines index totalGames. split; [by repeat split|].
  exact (fetched_index_answers (E:=Table.engine) "bob" lines Table.startFen).
Defined.

(** ** The older client *)

Lemma older_indexLines `{E : RulesEngine} username lines idx totalGames :
  Forall (fun pgn => replayed username pgn = true) (fetchedGames lines) →
  OlderClient.indexLines lines (globalIndex idx) totalGames
  = (globalIndex (indexLines username lines idx totalGames).1,
     (indexLines username lines idx totalGames).2).
Proof.
  revert idx totalGames.
  induction lines as [|[pgn|] lines IH]; intros idx totalGames Hall; cbn; [done| |].
  - cbn in Hall. destruct (truthy pgn); cbn in Hall; [|by apply IH].
    apply Forall_cons in Hall as [Hpgn Hall]. rewrite <- IH by done. f_equal.
    pose proof (ingestGamePgn_cases username pgn idx) as Hcases. rewrite Hpgn in Hcases.
    destruct Hcases as (chess & ul & wn & bn & outcome & Hload & ->).
    unfold OlderClient.pgnToSanMoves, V1.ingestSanMoves. rewrite Hload.
    by rewrite globalIndex_pgnLoop.
  - by apply IH.
Qed.

Lemma older_totalGames `{E : RulesEngine} username lines idx idx' totalGames :
  (OlderClient.indexLines lines idx' totalGames).2
  = (indexLines username lines idx totalGames).2.
Proof.
  revert idx idx' totalGames.
  induction lines as [|[pgn|] lines IH]; intros idx idx' totalGames; cbn; [done| |].
  - destruct (truthy pgn); apply IH.
  - apply IH.
Qed.

(** X25.  The older client, which indexed the move list of every fetched
    game, and the current one count the same games, and they build the same
    move counters whenever the current one replays every fetched game (no
    game with a decisive result in which the user is on neither side): the
    four global fields of every bucket of the current index are the bucket
    of the older index, in the same order of positions. *)
Theorem older_client_agrees `{E : RulesEngine} (username : string)
    (lines : list (option string)) :
  (OlderClient.indexFetchedGames lines).2 = (indexFetchedGames username lines).2
  ∧ (Forall (fun pgn => replayed username pgn = true) (fetchedGames lines) →
     (OlderClient.indexFetchedGames lines).1
     = globalIndex (indexFetchedGames username lines).1).
Proof.
  split; [apply older_totalGames|]. intros Hall.
  unfold OlderClient.indexFetchedGames, indexFetchedGames.
  change (@nil (string * V1.PositionBucket)) with (globalIndex emptyIndex).
  by rewrite (older_indexLines username).
Qed.

Lemma older_client_agrees_witness :
  let lines := [Some Table.pgnAliceBob; None; Some EmptyString; Some Table.pgnBobCarol] in
  (Forall (fun pgn => replayed (E:=Table.engine) "bob" pgn = true) (fetchedGames lines)
   ∧ (indexFetchedGames (E:=Table.engine) "bob" lines).2 = 2)
  ∧ (OlderClient.indexFetchedGames (E:=Table.engine) lines).1
    = globalIndex (indexFetchedGames (E:=Table.engine) "bob" lines).1.
Proof.
  intros lines.
  assert (Forall (fun pgn => replayed (E:=Table.engine) "bob" pgn = true)
            (fetchedGames lines)) as Hall.
  { repeat constructor. }
  split; [split; [exact Hall|reflexivity]|].
  exact (proj2 (older_client_agrees (E:=Table.engine) "bob" lines) Hall).
Defined.

(** ** The engine wrapper *)

Lemma prefix_append p h x :
  String.prefix p h = true → String.prefix p (h +:+ x) = true.
Proof.
  revert h. induction p as [|c p IH]; intros h; [by destruct (h +:+ x)|].
  destruct h as [|d h]; simpl; [done|].
  destruct (ascii_dec c d); [apply IH|done].
Qed.

Lemma prefix_info head :
  String.prefix "info " head = true → ∃ rest, head = "info " +:+ rest.
Proof.
  intros H.
  repeat match type of H with
         | String.prefix (String _ _) ?h = true =>
             destruct h; simpl in H; [discriminate|];
             match type of H with
             | (if ?d then _ else _) = true => destruct d; [subst|discriminate]
             end
         end.
  by eexists.
Qed.

Section EngineMessages.
Variable num : Type.
Variable Number : option string → num.
Variable isFinite : num → bool.

Lemma infoLoop_pv_cut pre post (upd : Stockfish.EvalUpdate num) :
  "pv" ∉ pre →
  let full := Stockfish.infoLoop num Number isFinite (pre ++ "pv" :: post) upd in
  let cut := Stockfish.infoLoop num Number isFinite (pre ++ ["pv"]) upd in
  Stockfish.pv full = Some (joinWith " " post) ∧ Stockfish.pv cut = Some EmptyString
  ∧ Stockfish.depth full = Stockfish.depth cut
  ∧ Stockfish.seldepth full = Stockfish.seldepth cut
  ∧ Stockfish.nodes full = Stockfish.nodes cut
  ∧ Stockfish.nps full = Stockfish.nps cut
  ∧ Stockfish.scoreCp full = Stockfish.scoreCp cut
  ∧ Stockfish.mate full = Stockfish.mate cut.
Proof.
  revert upd. induction pre as [|k pre IH]; intros upd Hpv.
  - cbn. by repeat split.
  - apply not_elem_of_cons in Hpv as [Hk Hpre].
    assert (head (pre ++ "pv" :: post) = head (pre ++ ["pv"])) as Hhead
      by (by destruct pre).
    assert (Stockfish.isToken "cp" (head (pre ++ ["pv"])) = true
            ∨ Stockfish.isToken "mate" (head (pre ++ ["pv"])) = true →
            head (tail (pre ++ "pv" :: post)) = head (tail (pre ++ ["pv"]))) as Htail.
    { destruct pre as [|x [|y pre]]; cbn; [|done..]. by intros [?|?]. }
    rewrite <- !app_comm_cons. cbn [Stockfish.infoLoop]. rewrite Hhead.
    destruct (String.eqb k "depth"); [by apply IH|].
    destruct (String.eqb k "seldepth"); [by apply IH|].
    destruct (String.eqb k "nodes"); [by apply IH|].
    destruct (String.eqb k "nps"); [by apply IH|].
    destruct (String.eqb k "score").
    { destruct (Stockfish.isToken "cp" (head (pre ++ ["pv"]))) eqn:Hcp.
      { rewrite Htail by (by left). by apply IH. }
      destruct (Stockfish.isToken "mate" (head (pre ++ ["pv"]))) eqn:Hmate.
      { rewrite Htail by (by right). by apply IH. }
      by apply IH. }
    destruct (String.eqb_spec k "pv"); [done|by apply IH].
Qed.

Lemma infoLoop_finite parts (upd : Stockfish.EvalUpdate num) :
  (∀ n, Stockfish.scoreCp upd = Some n → isFinite n = true) →
  (∀ n, Stockfish.mate upd = Some n → isFinite n = true) →
  let out := Stockfish.infoLoop num Number isFinite parts upd in
  (∀ n, Stockfish.scoreCp out = Some n → isFinite n = true)
  ∧ (∀ n, Stockfish.mate out = Some n → isFinite n = true).
Proof.
  revert upd. induction parts as [|k rest IH]; intros upd Hcp Hmate; [done|].
  cbn [Stockfish.infoLoop].
  repeat match goal with
         | |- context [if String.eqb k ?s then _ else _] =>
             destruct (String.eqb k s); [try (by apply IH); try done|]
         end; try by apply IH.
  destruct (Stockfish.isToken "cp" (head rest)).
  { apply IH; [|done]. cbn. intros n.
    destruct (isFinite (Number (head (tail rest)))) eqn:Hfin; [|done]. by intros [= <-]. }
  destruct (Stockfish.isToken "mate" (head rest)); [|by apply IH].
  apply IH; [done|]. cbn. intros n.
  destruct (isFinite (Number (head (tail rest)))) eqn:Hfin; [|done]. by intros [= <-].
Qed.

Lemma infoLoop_no_pv parts (upd : Stockfish.EvalUpdate num) :
  "pv" ∉ parts →
  Stockfish.pv (Stockfish.infoLoop num Number isFinite parts upd) = Stockfish.pv upd.
Proof.
  revert upd. induction parts as [|k rest IH]; intros upd Hpv; [done|].
  apply not_elem_of_cons in Hpv as [Hk Hrest]. cbn [Stockfish.infoLoop].
  destruct (String.eqb k "depth"); [by rewrite IH|].
  destruct (String.eqb k "seldepth"); [by rewrite IH|].
  destruct (String.eqb k "nodes"); [by rewrite IH|].
  destruct (String.eqb k "nps"); [by rewrite IH|].
  destruct (String.eqb k "score").
  { destruct (Stockfish.isToken "cp" (head rest)); [by rewrite IH|].
    destruct (Stockfish.isToken "mate" (head rest)); by rewrite IH. }
  destruct (String.eqb_spec k "pv"); [done|by rewrite IH].
Qed.

Lemma handleMessage_info line :
  String.prefix "info " line = true →
  Stockfish.handleMessage num Number isFinite line
  = Stockfish.Emit (Stockfish.infoLoop num Number isFinite (tail (splitOn " " line))
                      (Stockfish.newUpdate num)).
Proof.
  intros Hinfo. destruct (prefix_info line Hinfo) as [rest ->].
  unfold Stockfish.handleMessage. by rewrite Hinfo.
Qed.

(** X26.  The principal variation of an [info] line is the text after its
    first [pv] part, exactly as the engine sent it (spaces included), and
    reading stops there: every other field of the update is what the line
    cut after that [pv] gives, so nothing in the variation is read as a
    field. *)
Theorem info_line_pv (head text : string) :
  String.prefix "info " head = true →
  "pv" ∉ tail (splitOn " " head) →
  ∃ upd cut,
    Stockfish.handleMessage num Number isFinite (head +:+ " pv " +:+ text)
    = Stockfish.Emit upd
    ∧ Stockfish.handleMessage num Number isFinite (head +:+ " pv") = Stockfish.Emit cut
    ∧ Stockfish.pv upd = Some text ∧ Stockfish.pv cut = Some EmptyString
    ∧ Stockfish.depth upd = Stockfish.depth cut
    ∧ Stockfish.seldepth upd = Stockfish.seldepth cut
    ∧ Stockfish.nodes upd = Stockfish.nodes cut
    ∧ Stockfish.nps upd = Stockfish.nps cut
    ∧ Stockfish.scoreCp upd = Stockfish.scoreCp cut
    ∧ Stockfish.mate upd = Stockfish.mate cut.
Proof.
  intros Hinfo Hpv. rewrite !handleMessage_info by (by apply prefix_append).
  destruct (prefix_info head Hinfo) as [rest ->].
  do 2 eexists. split; [reflexivity|]. split; [reflexivity|].
  change (("info " +:+ rest) +:+ " pv " +:+ text)
    with (("info " +:+ rest) +:+ String " " ("pv" +:+ String " " text)).
  change (("info " +:+ rest) +:+ " pv")
    with (("info " +:+ rest) +:+ String " " "pv").
  rewrite !splitOn_append.
  change (splitOn " " "pv") with ["pv"].
  pose proof (splitOn_not_nil " " ("info " +:+ rest)) as Hne.
  destruct (splitOn " " ("info " +:+ rest)) as [|first pre] eqn:Hparts; [done|].
  cbn [tail app] in *.
  pose proof (infoLoop_pv_cut pre (splitOn " " text) (Stockfish.newUpdate num) Hpv) as H.
  cbv zeta in H. rewrite (joinWith_splitOn " " text) in H. exact H.
Qed.

(** X27.  An update that [handleMessage] emits comes from an [info] line;
    its [scoreCp] and [mate] are [null] or finite numbers, never [NaN] or
    an infinity; and its [pv] is [null] when no part of the line after the
    first is [pv]. *)
Theorem info_update_sound (line : string) (upd : Stockfish.EvalUpdate num) :
  Stockfish.handleMessage num Number isFinite line = Stockfish.Emit upd →
  String.prefix "info " line = true
  ∧ (∀ n, Stockfish.scoreCp upd = Some n → isFinite n = true)
  ∧ (∀ n, Stockfish.mate upd = Some n → isFinite n = true)
  ∧ ("pv" ∉ tail (splitOn " " line) → Stockfish.pv upd = None).
Proof.
  unfold Stockfish.handleMessage.
  destruct (String.prefix "uciok" line); [done|].
  destruct (String.prefix "readyok" line); [done|].
  destruct (String.prefix "info " line); [|done].
  intros [= <-]. split; [done|].
  destruct (infoLoop_finite (tail (splitOn " " line)) (Stockfish.newUpdate num))
    as [Hcp Hmate]; [done..|].
  split_and!; [done|done|]. intros Hpv. by rewrite infoLoop_no_pv.
Qed.
End EngineMessages.

Lemma info_line_pv_witness :
  let head := "info depth 16 seldepth 29 score cp 32 nodes 12345" in
  let text := "e2e4 e7e5  g1f3" in
  (String.prefix "info " head = true ∧ "pv" ∉ tail (splitOn " " head))
  ∧ ∃ upd cut,
      Stockfish.handleMessage (option N) decimalNumber decimalFinite (head +:+ " pv " +:+ text)
      = Stockfish.Emit upd
      ∧ Stockfish.handleMessage (option N) decimalNumber decimalFinite (head +:+ " pv")
        = Stockfish.Emit cut
      ∧ Stockfish.pv upd = Some text ∧ Stockfish.pv cut = Some EmptyString
      ∧ Stockfish.depth upd = Stockfish.depth cut
      ∧ Stockfish.seldepth upd = Stockfish.seldepth cut
      ∧ Stockfish.nodes upd = Stockfish.nodes cut
      ∧ Stockfish.nps upd = Stockfish.nps cut
      ∧ Stockfish.scoreCp upd = Stockfish.scoreCp cut
      ∧ Stockfish.mate upd = Stockfish.mate cut.
Proof.
  intros head text.
  assert ("pv" ∉ tail (splitOn " " head)) as Hpv.
  { apply (bool_decide_unpack _). by vm_compute. }
  split; [split; [reflexivity|exact Hpv]|].
  exact (info_line_pv (option N) decimalNumber decimalFinite head text eq_refl Hpv).
Defined.

Lemma info_update_sound_witness :
  let line := "info depth 16 score cp x12 score mate 3 nodes" in
  let upd := {| Stockfish.depth := Some (Some 16%N); Stockfish.seldepth := None;
                Stockfish.nodes := Some None; Stockfish.nps := None;
                Stockfish.scoreCp := None; Stockfish.mate := Some (Some 3%N);
                Stockfish.pv := None |} in
  Stockfish.handleMessage (option N) decimalNumber decimalFinite line = Stockfish.Emit upd
  ∧ (String.prefix "info " line = true
     ∧ (∀ n, Stockfish.scoreCp upd = Some n → decimalFinite n = true)
     ∧ (∀ n, Stockfish.mate upd = Some n → decimalFinite n = true)
     ∧ ("pv" ∉ tail (splitOn " " line) → Stockfish.pv upd = None)).
Proof.
  intros line upd. split; [reflexivity|].
  exact (info_update_sound (option N) decimalNumber decimalFinite line upd eq_refl).
Defined.
